(** * HoloPy: composite scatterers, tie tables and fit models

    A shallow embedding of
      - [holopy/scattering/scatterer/composite.py] (class [Scatterers]) and
      - [holopy/fitting/model.py] (classes [Parametrization] and [Model]),
    together with the properties of these programs that we establish.

    Python dictionaries keep insertion order and the code iterates over
    them, so a dictionary is an association list without repeated keys.
    Exceptions are values of [result].  Objects that the code mutates
    while several names refer to them (tie tables, [Parameter] objects,
    the list of free parameters) are threaded through explicitly. *)

From Stdlib Require Import String Ascii ZArith QArith Bool Arith Lia List.
From Stdlib Require Import DecimalString DecimalNat.
Import ListNotations.

Local Close Scope Q_scope.
Local Open Scope string_scope.
Local Open Scope nat_scope.
Local Open Scope list_scope.
Local Open Scope bool_scope.

Set Implicit Arguments.

(** ** Exceptions *)

Inductive exn : Type :=
| ValueError
| KeyError
| IndexError
| TypeError
| NameError (name : string)
| InvalidScatterer.

Inductive result (A : Type) : Type :=
| OK (a : A)
| Raise (e : exn).

Arguments OK {A} a.
Arguments Raise {A} e.

Definition bind {A B : Type} (r : result A) (k : A -> result B) : result B :=
  match r with
  | OK a => k a
  | Raise e => Raise e
  end.

Notation "x <- r ;; k" := (bind r (fun x => k))
  (at level 61, r at next level, right associativity).

Definition raises {A : Type} (r : result A) : Prop := exists e, r = Raise e.

(** ** Keys with decidable equality *)

Class EqDec (K : Type) := eq_dec : forall a b : K, {a = b} + {a <> b}.

#[export] Instance string_EqDec : EqDec string := string_dec.

#[export] Instance option_EqDec {K : Type} `{EqDec K} : EqDec (option K).
Proof.
  intros [a|] [b|].
  - destruct (eq_dec a b) as [->|n]; [left; reflexivity | right; congruence].
  - right; discriminate.
  - right; discriminate.
  - left; reflexivity.
Defined.

Definition eqb_of {K : Type} `{EqDec K} (a b : K) : bool :=
  if eq_dec a b then true else false.

(** ** Insertion-ordered dictionaries *)

Definition dict (K V : Type) : Type := list (K * V).

Section Dict.
Context {K : Type} `{EqDec K} {V : Type}.

(** [d[k]], [None] standing for [KeyError]. *)
Fixpoint dict_get (d : dict K V) (k : K) : option V :=
  match d with
  | [] => None
  | (k', v) :: d' => if eq_dec k k' then Some v else dict_get d' k
  end.

(** [k in d] *)
Definition dict_mem (d : dict K V) (k : K) : bool :=
  match dict_get d k with Some _ => true | None => false end.

(** [d[k] = v]: an existing key keeps its position, a new one goes last. *)
Fixpoint dict_set (d : dict K V) (k : K) (v : V) : dict K V :=
  match d with
  | [] => [(k, v)]
  | (k', v') :: d' =>
      if eq_dec k k' then (k', v) :: d' else (k', v') :: dict_set d' k v
  end.

(** [d.update(e)] *)
Definition dict_update (d e : dict K V) : dict K V :=
  fold_left (fun acc kv => dict_set acc (fst kv) (snd kv)) e d.

(** A dictionary display or comprehension: the pairs are stored one
    after the other. *)
Definition dict_of_list (l : list (K * V)) : dict K V := dict_update [] l.

Definition dict_keys (d : dict K V) : list K := map fst d.

(** Key access that raises [KeyError]. *)
Definition dict_item (d : dict K V) (k : K) : result V :=
  match dict_get d k with Some v => OK v | None => Raise KeyError end.

(** [x in l] for a list [l]. *)
Definition mem (x : K) (l : list K) : bool :=
  if in_dec eq_dec x l then true else false.
End Dict.

(** Modelled from the spec: [dict_without] of [holopy.core.utils], used
    by tie discovery to visit "every pair of distinct namespaced
    entries": a copy of the dictionary from which the given key is
    deleted. *)
Definition dict_without {V : Type} (d : dict string V) (k : string) : dict string V :=
  filter (fun kv => negb (eqb_of (fst kv) k)) d.

(** ** Strings *)

(** [s.split(':', 1)]: the text before the first colon and the text after
    it, when there is a colon. *)
Fixpoint split_colon (s : string) : option (string * string) :=
  match s with
  | EmptyString => None
  | String c s' =>
      if Ascii.eqb c ":" then Some (EmptyString, s')
      else match split_colon s' with
           | Some (a, b) => Some (String c a, b)
           | None => None
           end
  end.

Definition split1 (s : string) : list string :=
  match split_colon s with
  | Some (a, b) => [a; b]
  | None => [s]
  end.

(** ['{0}'.format(i)] for a natural number [i]. *)
Definition str_of_nat (i : nat) : string := NilZero.string_of_uint (Nat.to_uint i).

(** ['{0}:{1}'.format(i, key)] *)
Definition prefixed (i : nat) (key : string) : string :=
  (str_of_nat i ++ ":" ++ key)%string.

(** A text of ASCII characters.  [int] is modelled on such texts: on a
    text with other characters it also takes the digits and the white
    space of other scripts, which the model does not have. *)
Definition ascii_text (s : string) : bool :=
  forallb (fun c => nat_of_ascii c <? 128) (list_ascii_of_string s).

(** [int(s)] on ASCII text: surrounding white space (tab, line feed,
    vertical tab, form feed, carriage return and space) is dropped, one
    sign is allowed, and the digits may be separated by single
    underscores. *)
Definition is_space (c : ascii) : bool :=
  let n := nat_of_ascii c in
  (9 <=? n) && (n <=? 13) || (n =? 32).

Definition digit_of (c : ascii) : option Z :=
  let n := nat_of_ascii c in
  if (48 <=? n) && (n <=? 57) then Some (Z.of_nat (n - 48)) else None.

Fixpoint lstrip (s : string) : string :=
  match s with
  | EmptyString => EmptyString
  | String c s' => if is_space c then lstrip s' else s
  end.

Fixpoint rstrip (s : string) : string :=
  match s with
  | EmptyString => EmptyString
  | String c s' =>
      match rstrip s' with
      | EmptyString => if is_space c then EmptyString else String c EmptyString
      | r => String c r
      end
  end.

Fixpoint digits_value (acc : Z) (after_sep : bool) (s : string) : option Z :=
  match s with
  | EmptyString => if after_sep then None else Some acc
  | String c s' =>
      match digit_of c with
      | Some d => digits_value (10 * acc + d) false s'
      | None =>
          if Ascii.eqb c "_" && negb after_sep then digits_value acc true s'
          else None
      end
  end.

Definition py_int (s : string) : result Z :=
  let body := rstrip (lstrip s) in
  let parsed :=
    match body with
    | String "-" t => option_map Z.opp (digits_value 0 true t)
    | String "+" t => digits_value 0 true t
    | t => digits_value 0 true t
    end in
  match parsed with
  | Some z => OK z
  | None => Raise ValueError
  end.

(** [l[n]] for a Python integer [n]: a negative index counts from the
    end, and an index outside the list raises [IndexError]. *)
Definition py_index {A : Type} (l : list A) (n : Z) : result nat :=
  let len := Z.of_nat (length l) in
  if (0 <=? n)%Z && (n <? len)%Z then OK (Z.to_nat n)
  else if (- len <=? n)%Z && (n <? 0)%Z then OK (Z.to_nat (len + n))
  else Raise IndexError.

(** [l[i] = f(l[i])] at a position inside the list. *)
Fixpoint list_alter {A : Type} (f : A -> A) (i : nat) (l : list A) : list A :=
  match l, i with
  | [], _ => []
  | x :: l', O => f x :: l'
  | x :: l', S i' => x :: list_alter f i' l'
  end.

(** [enumerate(l)], counting from [i]. *)
Fixpoint enumerate_from {A : Type} (i : nat) (l : list A) : list (nat * A) :=
  match l with
  | [] => []
  | x :: l' => (i, x) :: enumerate_from (S i) l'
  end.

(** [[f(x) for x in l]] where [f] may raise: the first exception wins. *)
Fixpoint mapM {A B : Type} (f : A -> result B) (l : list A) : result (list B) :=
  match l with
  | [] => OK []
  | x :: l' => y <- f x ;; ys <- mapM f l' ;; OK (y :: ys)
  end.

(** * Composite scatterers ([composite.py]) *)

Module Composite.

(** What the code asks of a value stored in a scatterer: [a == b],
    [a is b], [isinstance(a, Number)] and, for a prior, its [guess].
    The classes of the values (numbers, priors) are defined outside
    [composite.py]. *)
Class PyValue (val : Type) : Type := {
  py_eq : val -> val -> bool;
  py_is : val -> val -> bool;
  is_Number : val -> bool;
  guess : val -> val
}.

(** A tie table: display name -> raw names of the group. *)
Definition tie_table : Type := dict string (list string).

(** A scatterer is a primitive, known here by the ordered name -> value
    mapping that its [parameters] property returns, or a [Scatterers]
    object with its two attributes. *)
#[warnings="-register-all"]
Inductive scatterer (val : Type) : Type :=
| Prim (pars : dict string val)
| Scatterers (scatterers : list (scatterer val)) (ties : tie_table).

Arguments Prim {val} pars.
Arguments Scatterers {val} scatterers ties.

Section Engine.
Context {val : Type} {PV : PyValue val}.

Definition pdict : Type := dict string val.

(** [_all_ties]: [sum(self.ties.values(), [])] *)
Definition _all_ties (ties : tie_table) : list string :=
  concat (map snd ties).

(** [_reversed_ties] *)
Definition _reversed_ties (ties : tie_table) : dict string string :=
  fold_left
    (fun reversed_ties tg =>
       dict_update reversed_ties
         (dict_of_list (map (fun tie => (tie, fst tg)) (snd tg))))
    ties [].

(** The loop of [raw_parameters], over the [parameters] of the
    children. *)
Definition raw_from (children : list (result pdict)) : result pdict :=
  fold_left
    (fun acc ic =>
       parameters <- acc ;;
       child <- snd ic ;;
       OK (dict_update parameters
             (dict_of_list
                (map (fun kv => (prefixed (fst ic) (fst kv), snd kv)) child))))
    (enumerate_from 0 children) (OK []).

(** The two inner loops of [_check_ties] and the read between them. *)
Fixpoint check_present (raw : pdict) (raw_names : list string) : result unit :=
  match raw_names with
  | [] => OK tt
  | raw_name :: rest =>
      if dict_mem raw raw_name then check_present raw rest
      else Raise ValueError
  end.

Fixpoint check_equal (raw : pdict) (tied_val : val) (raw_names : list string)
  : result unit :=
  match raw_names with
  | [] => OK tt
  | raw_name :: rest =>
      v <- dict_item raw raw_name ;;
      if py_eq v tied_val then check_equal raw tied_val rest
      else Raise ValueError
  end.

(** [raw_names[0]] *)
Definition first_name (raw_names : list string) : result string :=
  match raw_names with
  | [] => Raise IndexError
  | n :: _ => OK n
  end.

Definition check_group (raw : pdict) (raw_names : list string) : result unit :=
  _ <- check_present raw raw_names ;;
  first <- first_name raw_names ;;
  tied_val <- dict_item raw first ;;
  check_equal raw tied_val raw_names.

Fixpoint check_groups (raw : pdict) (ties : tie_table) : result unit :=
  match ties with
  | [] => OK tt
  | (tied_name, raw_names) :: rest =>
      _ <- check_group raw raw_names ;;
      check_groups raw rest
  end.

(** The dictionary built by [parameters] once the check has passed. *)
Definition collapse (raw : pdict) (ties : tie_table) : result pdict :=
  let parameters :=
    filter (fun kv => negb (mem (fst kv) (_all_ties ties))) raw in
  tied <- mapM (fun tg =>
                  first <- first_name (snd tg) ;;
                  v <- dict_item raw first ;;
                  OK (fst tg, v)) ties ;;
  OK (dict_update parameters (dict_of_list tied)).

(** The [parameters] property, of a primitive and of a composite. *)
Fixpoint parameters (s : scatterer val) : result pdict :=
  match s with
  | Prim pars => OK pars
  | Scatterers scatterers ties =>
      let raw_parameters := raw_from (map parameters scatterers) in
      _ <- (raw <- raw_parameters ;; check_groups raw ties) ;;
      raw <- raw_parameters ;;
      collapse raw ties
  end.

Definition raw_parameters (scatterers : list (scatterer val)) : result pdict :=
  raw_from (map parameters scatterers).

Definition _check_ties (scatterers : list (scatterer val)) (ties : tie_table)
  : result unit :=
  raw <- raw_parameters scatterers ;;
  check_groups raw ties.

(** [self.ties[name].append(new_name)] *)
Definition append_member (ties : tie_table) (name new_name : string)
  : result tie_table :=
  group <- dict_item ties name ;;
  OK (dict_set ties name (group ++ [new_name])).

(** [add_tie]: the tie table after the call and how the call ends. *)
Definition add_tie (scatterers : list (scatterer val)) (ties : tie_table)
           (old_name new_name : string) : tie_table * result unit :=
  let updated :=
    if dict_mem ties old_name then append_member ties old_name new_name
    else if mem old_name (_all_ties ties) then
      tie_name <- dict_item (_reversed_ties ties) old_name ;;
      append_member ties tie_name new_name
    else
      match split1 new_name with
      | [_; tie_name] =>
          let tie_name :=
            if dict_mem ties tie_name then new_name else tie_name in
          OK (dict_set ties tie_name [new_name; old_name])
      | _ => Raise IndexError
      end in
  match updated with
  | OK ties' => (ties', _check_ties scatterers ties')
  | Raise e => (ties, Raise e)
  end.

(** The inner loop of [_find_new_ties]: the first other entry that is
    the same object as [par], unless [par] is a number. *)
Definition alias_of (reference_parameters : pdict) (fullkey : string) (par : val)
  : option string :=
  option_map fst
    (find (fun ref => py_is par (snd ref) && negb (is_Number par))
          (dict_without reference_parameters fullkey)).

(** The outer loop of [_find_new_ties] over the entries still to visit. *)
Fixpoint find_ties_loop (scatterers : list (scatterer val))
         (reference_parameters : pdict) (items : pdict) (ties : tie_table)
  : tie_table * result unit :=
  match items with
  | [] => (ties, OK tt)
  | (fullkey, par) :: rest =>
      if mem fullkey (_all_ties ties) then
        find_ties_loop scatterers reference_parameters rest ties
      else
        match alias_of reference_parameters fullkey par with
        | None => find_ties_loop scatterers reference_parameters rest ties
        | Some ref_key =>
            match add_tie scatterers ties ref_key fullkey with
            | (ties', OK _) =>
                find_ties_loop scatterers reference_parameters rest ties'
            | (ties', Raise e) => (ties', Raise e)
            end
        end
  end.

Definition _find_new_ties (scatterers : list (scatterer val)) (ties : tie_table)
  : tie_table * result unit :=
  match raw_parameters scatterers with
  | Raise e => (ties, Raise e)
  | OK reference_parameters =>
      find_ties_loop scatterers reference_parameters reference_parameters ties
  end.

(** [__init__(scatterers, ties)]: the table [ties] is stored as it is
    and then updated in place, so the caller's table and the
    attribute of the new object are one object; the function returns
    its final contents and how the constructor ends. *)
Definition init (scatterers : list (scatterer val)) (ties : tie_table)
  : tie_table * result unit :=
  match _find_new_ties scatterers ties with
  | (ties', OK _) => (ties', _check_ties scatterers ties')
  | (ties', Raise e) => (ties', Raise e)
  end.

(** The object that [Scatterers(scatterers, ties)] evaluates to. *)
Definition construct (scatterers : list (scatterer val)) (ties : tie_table)
  : result (scatterer val) :=
  match init scatterers ties with
  | (ties', OK _) => OK (Scatterers scatterers ties')
  | (_, Raise e) => Raise e
  end.

(** [add(scatterer)]: both attributes after the call, and its end. *)
Definition add (scatterers : list (scatterer val)) (ties : tie_table)
           (s : scatterer val)
  : list (scatterer val) * tie_table * result unit :=
  let scatterers' := scatterers ++ [s] in
  let '(ties', r) := init scatterers' ties in
  (scatterers', ties', r).

(** *** Reconstruction *)

(** Modelled from the spec: [from_parameters] of a primitive scatterer
    (class [Scatterer], outside [composite.py]).  It "returns a
    physical object, so any priors are replaced with their guesses if
    not included in passed-in parameters"; a supplied value replaces a
    prior, and replaces a constant only under [overwrite]. *)
Definition prim_from_parameters (pars new_parameters : pdict) (overwrite : bool)
  : pdict :=
  map (fun kv =>
         let supplied := dict_get new_parameters (fst kv) in
         (fst kv,
          if is_Number (snd kv) then
            match supplied with
            | Some v => if overwrite then v else snd kv
            | None => snd kv
            end
          else
            match supplied with
            | Some v => v
            | None => guess (snd kv)
            end)) pars.

(** First loop of [from_parameters]: every tie whose display name is a
    key of [new_parameters] is written to all its raw names, in
    [new_parameters] itself. *)
Definition expand_ties (ties : tie_table) (new_parameters : pdict) : pdict :=
  fold_left
    (fun new_parameters tg =>
       match dict_get new_parameters (fst tg) with
       | Some tied_val =>
           dict_update new_parameters
             (dict_of_list (map (fun name => (name, tied_val)) (snd tg)))
       | None => new_parameters
       end)
    ties new_parameters.

(** Second loop: the entries are sorted by their leading index. *)
Definition collect_entry (collected : list pdict) (kv : string * val)
  : result (list pdict) :=
  match split1 (fst kv) with
  | [index; par] =>
      n <- py_int index ;;
      i <- py_index collected n ;;
      OK (list_alter (fun d => dict_set d par (snd kv)) i collected)
  | _ => OK collected
  end.

Fixpoint collect (collected : list pdict) (items : pdict)
  : result (list pdict) :=
  match items with
  | [] => OK collected
  | kv :: rest =>
      collected' <- collect_entry collected kv ;;
      collect collected' rest
  end.

(** What a call of [from_parameters] leaves behind: the caller's
    dictionary, the receiver after the call, and the value returned or
    the exception. *)
Record outcome : Type := Outcome {
  arg_after : pdict;
  self_after : scatterer val;
  returned : result (scatterer val)
}.

(** The list comprehension of [from_parameters] over
    [zip(self.scatterers, collected)], for a given way [rebuild] of
    calling [from_parameters] on a child: the children after the calls
    and the new children, or the first exception. *)
Section Children.
Variable rebuild : scatterer val -> pdict -> outcome.

Fixpoint rebuild_children (l : list (scatterer val)) (cs : list pdict)
  : list (scatterer val) * result (list (scatterer val)) :=
  match l, cs with
  | scat :: l', pars :: cs' =>
      let o := rebuild scat pars in
      match returned o with
      | Raise e => (self_after o :: l', Raise e)
      | OK scat' =>
          let '(l'', r) := rebuild_children l' cs' in
          (self_after o :: l'',
           match r with
           | OK news => OK (scat' :: news)
           | Raise e => Raise e
           end)
      end
  | _, _ => (l, OK [])
  end.
End Children.

(** Modelled from the spec: [_iteritems] of [HoloPyObject], from
    which [from_parameters] takes the arguments of the constructor in
    order to "rebuild a structurally identical composite with the new
    child list and unchanged tie table": it yields the attributes
    [scatterers] and [ties] of the object, the objects themselves and
    not copies. *)
Definition _iteritems (scatterers : list (scatterer val)) (ties : tie_table)
  : list (scatterer val) * tie_table :=
  (scatterers, ties).

(** [from_parameters].  The new object is made by the constructor from
    the new children and the tie table of the receiver; the table is
    one object for both, so what the constructor adds to it shows in
    the receiver, at every level of the tree. *)
Fixpoint from_parameters (self : scatterer val) (new_parameters : pdict)
         (overwrite : bool) : outcome :=
  match self with
  | Prim pars =>
      Outcome new_parameters self
              (OK (Prim (prim_from_parameters pars new_parameters overwrite)))
  | Scatterers scatterers ties =>
      let n_scatterers := length scatterers in
      let new_parameters := expand_ties ties new_parameters in
      match collect (repeat [] n_scatterers) new_parameters with
      | Raise e => Outcome new_parameters self (Raise e)
      | OK collected =>
          match rebuild_children
                  (fun scat pars => from_parameters scat pars overwrite)
                  scatterers collected with
          | (scatterers_after, Raise e) =>
              Outcome new_parameters (Scatterers scatterers_after ties) (Raise e)
          | (scatterers_after, OK news) =>
              let self_dict := _iteritems scatterers ties in
              match init news (snd self_dict) with
              | (ties', OK _) =>
                  Outcome new_parameters (Scatterers scatterers_after ties')
                          (OK (Scatterers news ties'))
              | (ties', Raise e) =>
                  Outcome new_parameters (Scatterers scatterers_after ties')
                          (Raise e)
              end
          end
      end
  end.

(** [c.from_parameters(c.parameters).parameters] *)
Definition round_trip (c : scatterer val) : result pdict :=
  flat <- parameters c ;;
  c' <- returned (from_parameters c flat false) ;;
  parameters c'.
End Engine.

(** *** Point classification *)

Section Domain.
Context {val : Type}.
(** The query points and the [contains] method of the children, which
    [composite.py] inherits. *)
Variable point : Type.
Variable contains : scatterer val -> point -> bool.

(** [in_domain(points)]: one number per point. *)
Definition in_domain (scatterers : list (scatterer val)) (points : list point)
  : result (list nat) :=
  match scatterers with
  | [] => Raise IndexError
  | first :: others =>
      let ind := map (fun p => if contains first p then 1 else 0) points in
      OK (fold_left
            (fun ind is_ =>
               map (fun po => if contains (snd is_) (fst po)
                              then fst is_ + 1 else snd po)
                   (combine points ind))
            (enumerate_from 0 others) ind)
  end.

(** The loop of [in_domain] seen from one point: [k] is the position
    of the next child in [scatterers[1:]] and [i] the number stored
    for the point so far. *)
Fixpoint scan (p : point) (k : nat) (others : list (scatterer val)) (i : nat)
  : nat :=
  match others with
  | [] => i
  | s :: rest => scan p (S k) rest (if contains s p then k + 1 else i)
  end.
End Domain.

(** *** Arguments of [translated] and [rotated] *)

(** A coordinate argument: a scalar or an array-like of coordinates. *)
#[warnings="-register-all"]
Inductive coord : Type :=
| Scalar (x : Q)
| Array (items : list coord).

(** Modelled from the spec: [ensure_array] of [holopy.core.utils], which
    makes an array of its argument; a scalar becomes an array of one
    element.  The result is given by its items. *)
Definition ensure_array (c : coord) : list coord :=
  match c with
  | Scalar x => [Scalar x]
  | Array items => items
  end.

(** [len(ensure_array(c) == 3)]: comparing an array with [3] gives an
    array of the same length, and [len] of it is what the code tests. *)
Definition len_eq3 (c : coord) : nat := length (ensure_array c).

Definition is_None {A : Type} (o : option A) : bool :=
  match o with None => true | Some _ => false end.

(** The three branches at the head of [translated].  No statement of
    [composite.py] binds the name [InvalidScatterer], so the [raise] of
    the last branch stops at the evaluation of that name. *)
Definition translation_coords (coord1 : coord) (coord2 coord3 : option coord)
  : result coord :=
  if is_None coord2 && negb (len_eq3 coord1 =? 0) then
    OK (Array (ensure_array coord1))
  else
    match coord2, coord3 with
    | Some c2, Some c3 => OK (Array [coord1; c2; c3])
    | _, _ => Raise (NameError "InvalidScatterer")
    end.

(** [alpha, beta, gamma = ang1] *)
Definition unpack3 (c : coord) : result (coord * coord * coord) :=
  match c with
  | Scalar _ => Raise TypeError
  | Array [a; b; g] => OK (a, b, g)
  | Array _ => Raise ValueError
  end.

(** The three branches at the head of [rotated]. *)
Definition rotation_angles (ang1 : coord) (ang2 ang3 : option coord)
  : result (coord * coord * coord) :=
  if is_None ang2 && negb (len_eq3 ang1 =? 0) then unpack3 ang1
  else
    match ang2, ang3 with
    | Some a2, Some a3 => OK (ang1, a2, a3)
    | _, _ => Raise (NameError "InvalidScatterer")
    end.

Section Translated.
Context {val : Type}.
(** The [translated] method of a primitive, defined outside
    [composite.py]. *)
Variable prim_translated : dict string val -> coord -> result (dict string val).

(** [s.translated(trans_coords)] for a child [s], primitive or
    composite: a child is called with the array of the translation
    alone. *)
Fixpoint child_translated (s : scatterer val) (trans_coords : coord)
  : result (scatterer val) :=
  match s with
  | Prim pars =>
      pars' <- prim_translated pars trans_coords ;;
      OK (Prim pars')
  | Scatterers scatterers ties =>
      coords <- translation_coords trans_coords None None ;;
      trans <- mapM (fun c => child_translated c coords) scatterers ;;
      OK (Scatterers trans ties)
  end.

(** [translated(coord1, coord2, coord3)] of a composite; the copy keeps
    the tie table. *)
Definition translated (scatterers : list (scatterer val)) (ties : tie_table)
           (coord1 : coord) (coord2 coord3 : option coord)
  : result (scatterer val) :=
  trans_coords <- translation_coords coord1 coord2 coord3 ;;
  trans <- mapM (fun s => child_translated s trans_coords) scatterers ;;
  OK (Scatterers trans ties).
End Translated.

End Composite.

(** * Fit models ([model.py]) *)

Module Fitting.

(** Python numbers, with exact rationals in place of floats. *)
Inductive number : Type :=
| Float (x : Q)
| Complex (re im : Q).

(** [a + 1.j * b] *)
Definition add_j_times (a b : number) : number :=
  match a, b with
  | Float x, Float y => Complex x y
  | Float x, Complex yr yi => Complex (x - yi) yr
  | Complex xr xi, Float y => Complex xr (xi + y)
  | Complex xr xi, Complex yr yi => Complex (xr - yi) (xi + yr)
  end.

(** An object of class [Parameter], with the attributes that the code
    reads.  The class is defined outside [model.py]. *)
Record Param : Type := {
  name : option string;
  fixed : bool;
  guess : number;
  limit : number
}.

(** [Parameter] objects are shared and renamed in place: a handle names
    an object and the heap gives its current state. *)
Definition handle : Type := nat.
Definition heap : Type := handle -> Param.

(** [p.name = n] *)
Definition rename (h : heap) (p : handle) (n : option string) : heap :=
  fun q => if q =? p
           then {| name := n; fixed := fixed (h p); guess := guess (h p);
                   limit := limit (h p) |}
           else h q.

(** An element of the list given to [Parametrization]. *)
Inductive quantity : Type :=
| AParameter (p : handle)
| AComplexParameter (cname : option string) (real imag : handle)
| Other.

(** The two attributes that [__init__] fills. *)
Record tables : Type := {
  parameters : list handle;
  _fixed_params : dict (option string) number
}.

(** The local function [add_par] of [Parametrization.__init__]. *)
Definition add_par (st : heap * tables) (p : handle) (n : option string)
  : heap * tables :=
  let h := match n with
           | Some _ => rename (fst st) p n
           | None => fst st
           end in
  if negb (fixed (h p)) then
    (h, {| parameters := parameters (snd st) ++ [p];
           _fixed_params := _fixed_params (snd st) |})
  else
    (h, {| parameters := parameters (snd st);
           _fixed_params :=
             dict_set (_fixed_params (snd st)) (name (h p)) (guess (h p)) |}).

(** [par.name + suffix] *)
Definition plus_suffix (n : option string) (suffix : string) : result string :=
  match n with
  | Some s => OK (s ++ suffix)%string
  | None => Raise TypeError
  end.

(** The loop of [Parametrization.__init__]. *)
Fixpoint init_loop (st : heap * tables) (pars : list quantity)
  : heap * tables * result unit :=
  match pars with
  | [] => (st, OK tt)
  | AComplexParameter cname real imag :: rest =>
      match plus_suffix cname ".real" with
      | Raise e => (st, Raise e)
      | OK nr =>
          let st1 := add_par st real (Some nr) in
          match plus_suffix cname ".imag" with
          | Raise e => (st1, Raise e)
          | OK ni => init_loop (add_par st1 imag (Some ni)) rest
          end
      end
  | AParameter p :: rest => init_loop (add_par st p None) rest
  | Other :: rest => init_loop st rest
  end.

Definition Parametrization_init (h : heap) (pars : list quantity)
  : heap * tables * result unit :=
  init_loop (h, {| parameters := []; _fixed_params := [] |}) pars.

Section MakeFrom.
(** The object built by [make_scatterer], the names of its arguments
    ([inspect.getargspec(...).args]) and the call with keywords, which
    returns the object or raises. *)
Variable built : Type.
Variable args : list string.
Variable make_scatterer : dict string number -> result built.

(** One round of the loop of [make_from]: the value stored under
    [for_schema[arg]]. *)
Definition resolve (fixed_params : dict (option string) number)
           (pars : dict string number) (arg : string) : result number :=
  let re := (arg ++ ".real")%string in
  let im := (arg ++ ".imag")%string in
  if dict_mem pars re && dict_mem pars im then
    a <- dict_item pars re ;; b <- dict_item pars im ;;
    OK (add_j_times a b)
  else if dict_mem fixed_params (Some re) && dict_mem pars im then
    a <- dict_item fixed_params (Some re) ;; b <- dict_item pars im ;;
    OK (add_j_times a b)
  else if dict_mem pars re && dict_mem fixed_params (Some im) then
    a <- dict_item pars re ;; b <- dict_item fixed_params (Some im) ;;
    OK (add_j_times a b)
  else dict_item pars arg.

Fixpoint fill_schema (fixed_params : dict (option string) number)
         (pars : dict string number) (for_schema : dict string number)
         (l : list string) : result (dict string number) :=
  match l with
  | [] => OK for_schema
  | arg :: rest =>
      v <- resolve fixed_params pars arg ;;
      fill_schema fixed_params pars (dict_set for_schema arg v) rest
  end.

(** [make_from]; what the call of [make_scatterer] returns or raises is
    what [make_from] returns or raises. *)
Definition make_from (self : tables) (pars : dict string number)
  : result built :=
  for_schema <- fill_schema (_fixed_params self) pars [] args ;;
  make_scatterer for_schema.
End MakeFrom.

(** The [alpha] argument of [Model]: [None], a number or a [Parameter]. *)
Inductive amplitude : Type :=
| NoAlpha
| Constant (x : number)
| AlphaParameter (p : handle).

(** A [Model]: [self.parameters] is the list object of
    [self.scatterer.parameters], so it is read there. *)
Record Model : Type := {
  scatterer : tables;
  alpha : amplitude
}.

Definition model_parameters (m : Model) : list handle :=
  parameters (scatterer m).

(** [Model.__init__], for a [scatterer] that is a [Parametrization].  Any
    other object is first wrapped in a [ParameterizedObject], whose
    constructor names the parameters of the object; that branch is not
    part of the model. *)
Definition Model_init (h : heap) (sc : tables) (a : amplitude) : heap * Model :=
  let h' := match a with
            | AlphaParameter p =>
                match name (h p) with
                | None => rename h p (Some "alpha")
                | Some _ => h
                end
            | _ => h
            end in
  let appended := match a with
                  | AlphaParameter p => parameters sc ++ [p]
                  | _ => parameters sc
                  end in
  (h', {| scatterer := {| parameters := appended;
                          _fixed_params := _fixed_params sc |};
          alpha := a |}).

(** What [get_alpha] can return: a number or a [Parameter] object. *)
Inductive value : Type :=
| ANumber (x : number)
| AnObject (p : handle).

(** [get_alpha(pars)]; [pars] is [None] or a dictionary. *)
Definition get_alpha (self : Model) (pars : option (dict string number)) : value :=
  let otherwise :=
    match alpha self with
    | NoAlpha => ANumber (Float 1)
    | Constant x => ANumber x
    | AlphaParameter p => AnObject p
    end in
  match pars with
  | None => otherwise
  | Some d =>
      match dict_get d "alpha" with
      | Some x => ANumber x
      | None => otherwise
      end
  end.

End Fitting.


(** * More of [composite.py] *)

Module CompositeMore.
Import Composite.

Section Components.
Context {val : Type}.

(** What the loop of [get_component_list] adds for a child: the
    child itself, or the components of a child that is a
    [Scatterers]. *)
Fixpoint components (s : scatterer val) : list (scatterer val) :=
  match s with
  | Prim _ => [s]
  | Scatterers scatterers _ => flat_map components scatterers
  end.

(** [get_component_list()] *)
Definition get_component_list (scatterers : list (scatterer val))
  : list (scatterer val) :=
  flat_map components scatterers.
End Components.

Section IndexAt.
Context {val : Type}.
(** The query points, the values that [index_at] returns, and the
    methods [contains] and [index_at] of the primitives, which are
    defined outside [composite.py]. *)
Variables point index : Type.
Variable contains : scatterer val -> point -> bool.
Variable prim_index_at : dict string val -> point -> result (option index).

(** [try: ... except TypeError: return None] *)
Definition except_TypeError (r : result (option index)) : result (option index) :=
  match r with
  | Raise TypeError => OK None
  | _ => r
  end.

(** [l[0]] *)
Definition first_item {A : Type} (l : list A) : result A :=
  match l with
  | [] => Raise IndexError
  | x :: _ => OK x
  end.

(** [index_at(point)], of a primitive and of a composite. *)
Fixpoint index_at (s : scatterer val) (p : point) : result (option index) :=
  match s with
  | Prim pars => prim_index_at pars p
  | Scatterers scatterers _ =>
      except_TypeError
        (ind <- in_domain contains scatterers [p] ;;
         k <- first_item ind ;;
         match nth_error (map (fun c => index_at c p) scatterers) k with
         | Some r => r
         | None => Raise IndexError
         end)
  end.
End IndexAt.

End CompositeMore.

(** * More of [model.py] *)

Module FittingMore.
Import Fitting.

(** [s[::-1]] *)
Definition reversed (s : string) : string :=
  string_of_list_ascii (rev (list_ascii_of_string s)).

(** [os.path.commonprefix([a, b])]: the longest text with which both
    begin. *)
Fixpoint commonprefix (a b : string) : string :=
  match a, b with
  | String c a', String d b' =>
      if Ascii.eqb c d then String c (commonprefix a' b') else EmptyString
  | _, _ => EmptyString
  end.

(** [s.strip(chars)] *)
Fixpoint lstrip_chars (chars : list ascii) (s : string) : string :=
  match s with
  | EmptyString => EmptyString
  | String c s' =>
      if existsb (Ascii.eqb c) chars then lstrip_chars chars s' else s
  end.

Fixpoint rstrip_chars (chars : list ascii) (s : string) : string :=
  match s with
  | EmptyString => EmptyString
  | String c s' =>
      match rstrip_chars chars s' with
      | EmptyString =>
          if existsb (Ascii.eqb c) chars then EmptyString
          else String c EmptyString
      | r => String c r
      end
  end.

Definition strip (chars : list ascii) (s : string) : string :=
  rstrip_chars chars (lstrip_chars chars s).

(** The characters of [':_'] *)
Definition separators : list ascii := [":"%char; "_"%char].

(** [tied_name(name1, name2)] *)
Definition tied_name (name1 name2 : string) : string :=
  let common_suffix :=
    reversed (commonprefix (reversed name1) (reversed name2)) in
  strip separators common_suffix.

(** The dictionary [guess_pars] of the property [guess]: the guess of
    every free parameter under its name. *)
Definition guess_pars (h : heap) (self : tables) : dict (option string) number :=
  fold_left (fun d par => dict_set d (name (h par)) (guess (h par)))
            (parameters self) [].

(** The entries of a dictionary whose keys are strings.  [make_from]
    looks its argument up under strings alone, so an entry under the
    key [None] is never read. *)
Fixpoint string_entries {V : Type} (d : dict (option string) V) : dict string V :=
  match d with
  | [] => []
  | (Some k, v) :: d' => (k, v) :: string_entries d'
  | (None, _) :: d' => string_entries d'
  end.

Section Guess.
Variable built : Type.
Variable args : list string.
Variable make_scatterer : dict string number -> result built.

(** The property [guess] of a [Parametrization]. *)
Definition Parametrization_guess (h : heap) (self : tables) : result built :=
  make_from args make_scatterer self (string_entries (guess_pars h self)).
End Guess.

Section Schema.
(** The values of the attributes of a schema. *)
Variable attr : Type.

(** [get_schema(data)]: the attributes of the copy of [data], given
    the attribute [_dict] of the overlay when there is an overlay. *)
Definition get_schema (schema_overlay : option (dict string (option attr)))
           (data : dict string attr) : dict string attr :=
  match schema_overlay with
  | None => data
  | Some overlay =>
      fold_left
        (fun schema kv =>
           match snd kv with
           | Some v => dict_set schema (fst kv) v
           | None => schema
           end)
        overlay data
  end.
End Schema.

End FittingMore.


(** * Sample values and scatterers *)

Module Sample.
Import Composite.

(** A number, or a uniform prior between two bounds. *)
Inductive content : Type :=
| Num (q : Q)
| Uniform (lower upper : Q).

(** A Python object: its identity and what it holds. *)
Record object : Type := Obj { oid : nat; holds : content }.

Definition content_eqb (a b : content) : bool :=
  match a, b with
  | Num x, Num y => Qeq_bool x y
  | Uniform l u, Uniform l' u' => Qeq_bool l l' && Qeq_bool u u'
  | _, _ => false
  end.

(** Two objects are the same object when their identities agree and are
    equal when they hold equal contents; the guess of a uniform prior is
    the middle of its bounds. *)
#[global] Instance object_PyValue : PyValue object := {
  py_eq a b := content_eqb (holds a) (holds b);
  py_is a b := oid a =? oid b;
  is_Number a := match holds a with Num _ => true | Uniform _ _ => false end;
  guess a := match holds a with
             | Uniform l u => Obj 0 (Num ((l + u) / 2))
             | Num _ => a
             end
}.

Definition num (i : nat) (q : Q) : object := Obj i (Num q).

(** A sphere, by the entries of its [parameters]. *)
Definition sphere (n r c0 c1 c2 : object) : scatterer object :=
  Prim [("n", n); ("r", r); ("center.0", c0); ("center.1", c1);
        ("center.2", c2)].

(** A primitive with a radius only. *)
Definition ball (r : object) : scatterer object := Prim [("r", r)].

(** The composite that the constructor makes of the children, or an
    empty primitive when the constructor raises. *)
Definition composite_of (children : list (scatterer object)) : scatterer object :=
  match construct children [] with
  | OK c => c
  | Raise _ => Prim []
  end.

(** [a == b] for two primitives of one class, by their entries. *)
Fixpoint same_values (a b : dict string object) : bool :=
  match a, b with
  | [], [] => true
  | (k, v) :: a', (k', v') :: b' =>
      eqb_of k k' && py_eq v v' && same_values a' b'
  | _, _ => false
  end.

(** The spheres of [test_from_parameters]. *)
Definition s_prior : dict string object :=
  [("n", num 41 1.6); ("r", Obj 42 (Uniform 0.5 0.7)); ("center.0", num 43 10);
   ("center.1", num 44 10); ("center.2", num 45 10)].
Definition sphere_with (n r : Q) : dict string object :=
  [("n", num 51 n); ("r", num 52 r); ("center.0", num 53 10);
   ("center.1", num 54 10); ("center.2", num 55 10)].
Definition pars_n_r : dict string object :=
  [("n", num 61 1.7); ("r", num 62 0.7)].

(** Two spheres that share the prior of their index, as in
    [test_Composite_tying]. *)
Definition n1 : object := Obj 1 (Uniform 1.59 1.6).
Definition tied_spheres : list (scatterer object) :=
  [sphere n1 (Obj 2 (Uniform 0.5 0.7)) (num 3 10) (num 4 10) (num 5 20);
   sphere n1 (Obj 6 (Uniform 0.5 0.7)) (num 7 9) (num 8 11) (num 9 21)].

(** The tie table that the constructor makes for them. *)
Definition tied_table : tie_table := [("n", ["0:n"; "1:n"])].

(** Two priors made separately with the same bounds, hence equal but
    not the same object. *)
Definition prior_R : object := Obj 21 (Uniform 0.5 0.7).
Definition prior_X : object := Obj 22 (Uniform 0.5 0.7).
Definition prior_P : object := Obj 23 (Uniform 0.1 0.2).

(** A composite of three balls, the last one with radius [r]. *)
Definition triple (r : object) : scatterer object :=
  composite_of [ball (num 10 1); ball (num 11 1); ball r].

(** Two such composites whose last balls share one prior. *)
Definition nested_pair : scatterer object :=
  composite_of [triple prior_R; triple prior_R].

(** Three balls that share the prior [prior_X], with two one-ball
    composites in between that share the prior [prior_R]. *)
Definition mixed_children : list (scatterer object) :=
  [ball prior_X; ball prior_X;
   composite_of [ball prior_R]; composite_of [ball prior_R];
   ball prior_X].

(** Two balls with equal radii, plain numbers, and the table by which
    the caller ties them. *)
Definition equal_balls : list (scatterer object) :=
  [ball (num 31 0.5); ball (num 32 0.5)].

(** One ball in a composite whose two tie groups both hold its
    radius. *)
Definition overlapping : scatterer object :=
  Scatterers [ball (num 10 1)] [("a", ["0:r"]); ("b", ["0:r"])].

(** Two balls with priors of their own, and no tie. *)
Definition untied_pair : scatterer object :=
  composite_of [ball prior_R; ball prior_P].

(** Points of space and the containment test of spheres and of
    composites of spheres. *)
Definition point3 : Type := (Q * Q * Q)%type.

Definition number_at (pars : dict string object) (key : string) : Q :=
  match dict_get pars key with
  | Some (Obj _ (Num q)) => q
  | _ => 0%Q
  end.

Fixpoint inside (s : scatterer object) (p : point3) : bool :=
  match s with
  | Prim pars =>
      let '(x, y, z) := p in
      let dx := (x - number_at pars "center.0")%Q in
      let dy := (y - number_at pars "center.1")%Q in
      let dz := (z - number_at pars "center.2")%Q in
      let r := number_at pars "r" in
      Qle_bool (dx * dx + dy * dy + dz * dz) (r * r)
  | Scatterers scatterers _ => existsb (fun c => inside c p) scatterers
  end.

(** The composite of [test_Composite_construction], in units of 1e-6. *)
Definition test_composite : list (scatterer object) :=
  [sphere (num 71 1.59) (num 72 0.5) (num 73 1) (num 74 (-1)) (num 75 10);
   sphere (num 76 1.59) (num 77 1) (num 78 0) (num 79 0) (num 80 0);
   sphere (num 81 1.59) (num 82 0.5) (num 83 5) (num 84 0) (num 85 0);
   sphere (num 86 1.33) (num 87 1) (num 88 (-5)) (num 89 0) (num 90 0)].

Definition origin : point3 := (0, 0, 0)%Q.
Definition far_point : point3 := (5, 0, 0)%Q.

(** A sphere of radius [r] around the point (x, 0, 0). *)
Definition sphere_at (i : nat) (r x : Q) : scatterer object :=
  sphere (num i 1.59) (num (i + 1) r) (num (i + 2) x) (num (i + 3) 0)
         (num (i + 4) 0).

End Sample.


(** * Sample parameters and models *)

Module SampleFit.
Import Fitting.

(** A heap in which object 0 is a free radius, object 1 a fixed index,
    object 2 a fixed amplitude without a name and every other object a
    free amplitude called [alpha]. *)
Definition sample_heap : heap :=
  fun p =>
    match p with
    | 0 => {| name := Some "r"; fixed := false; guess := Float 0.5;
              limit := Float 0.5 |}
    | 1 => {| name := Some "n"; fixed := true; guess := Float 1.59;
              limit := Float 1.59 |}
    | 2 => {| name := None; fixed := true; guess := Float 0.7;
              limit := Float 0.7 |}
    | _ => {| name := Some "alpha"; fixed := false; guess := Float 0.6;
              limit := Float 0.6 |}
    end.

Definition no_tables : tables := {| parameters := []; _fixed_params := [] |}.

(** The tables of [Parametrization(make_scatterer, pars)], as
    [__init__] leaves them. *)
Definition tables_of (h : heap) (pars : list quantity) : tables :=
  snd (fst (Parametrization_init h pars)).

(** A construction function of two arguments that returns its keyword
    arguments. *)
Definition sphere_args : list string := ["n"; "r"].
Definition keep (for_schema : dict string number)
  : result (dict string number) :=
  OK for_schema.

End SampleFit.


(** * Notions used in the statements about [model.py] *)

Module FitTerms.
Import Fitting.

(** The [Parameter] objects that [Parametrization.__init__] hands to
    [add_par], in that order. *)
Definition leaves_of (q : quantity) : list handle :=
  match q with
  | AParameter p => [p]
  | AComplexParameter _ real imag => [real; imag]
  | Other => []
  end.

Definition leaves (pars : list quantity) : list handle :=
  flat_map leaves_of pars.

(** The calls of [add_par] that the loop of [__init__] makes for a
    quantity, as pairs of the object and the name given to it. *)
Definition calls_of (q : quantity) : list (handle * option string) :=
  match q with
  | AParameter p => [(p, None)]
  | AComplexParameter (Some n) real imag =>
      [(real, Some (n ++ ".real")%string); (imag, Some (n ++ ".imag")%string)]
  | AComplexParameter None _ _ => []
  | Other => []
  end.

Definition run_calls (st : heap * tables) (cs : list (handle * option string))
  : heap * tables :=
  fold_left (fun st c => add_par st (fst c) (snd c)) cs st.

(** Every complex quantity of the list has a name. *)
Definition named (pars : list quantity) : bool :=
  forallb (fun q => match q with
                    | AComplexParameter None _ _ => false
                    | _ => true
                    end) pars.

(** The sources from which [make_from] takes the value of [arg]: both
    halves in the flat map, one half in the fixed table and the other in
    the flat map, or the name itself in the flat map. *)
Definition supplied (fixed_params : dict (option string) number)
           (pars : dict string number) (arg : string) : bool :=
  let re := (arg ++ ".real")%string in
  let im := (arg ++ ".imag")%string in
  (dict_mem pars re && dict_mem pars im)
  || (dict_mem fixed_params (Some re) && dict_mem pars im)
  || (dict_mem pars re && dict_mem fixed_params (Some im))
  || dict_mem pars arg.

(** The sources as the specification counts them: the flat map,
    "directly or as a .real/.imag pair", or the fixed table, under the
    name or under either half. *)
Definition supplied_by_spec (fixed_params : dict (option string) number)
           (pars : dict string number) (arg : string) : bool :=
  let re := (arg ++ ".real")%string in
  let im := (arg ++ ".imag")%string in
  dict_mem pars arg
  || (dict_mem pars re && dict_mem pars im)
  || dict_mem fixed_params (Some arg)
  || dict_mem fixed_params (Some re)
  || dict_mem fixed_params (Some im).

(** *** The statements of the specification *)

(** "The model's free vector is the scatterer's free list plus the
    amplitude (only if amplitude is a free Parameter)." *)
Definition free_vector_by_spec (h : heap) (sc : tables) (a : amplitude)
  : list handle :=
  parameters sc ++ match a with
                   | AlphaParameter p => if fixed (h p) then [] else [p]
                   | NoAlpha | Constant _ => []
                   end.

Definition amplitude_appended_only_if_free : Prop :=
  forall h sc a,
    model_parameters (snd (Model_init h sc a)) = free_vector_by_spec h sc a.

(** "returns flat["alpha"] if present; else the amplitude's own guess
    if it is free; else its fixed value; else 1.0 if no amplitude was
    configured." *)
Definition get_alpha_by_spec (h : heap) (m : Model)
           (pars : option (dict string number)) : value :=
  match match pars with Some d => dict_get d "alpha" | None => None end with
  | Some x => ANumber x
  | None =>
      match alpha m with
      | AlphaParameter p =>
          if fixed (h p) then ANumber (limit (h p)) else ANumber (guess (h p))
      | Constant x => ANumber x
      | NoAlpha => ANumber (Float 1)
      end
  end.

Definition get_alpha_returns_numbers : Prop :=
  forall h m pars, get_alpha m pars = get_alpha_by_spec h m pars.

(** "a fixed scalar argument absent from the flat map is supplied from
    the fixed table rather than failing": when every argument has a
    source in the sense of the specification and the construction
    function returns, [make_from] does not raise. *)
Definition make_from_raises_only_when_unsupplied : Prop :=
  forall (built : Type) (args : list string)
         (make_scatterer : dict string number -> built)
         (self : tables) (pars : dict string number),
    (forall arg, In arg args ->
                 supplied_by_spec (_fixed_params self) pars arg = true) ->
    exists s,
      make_from args (fun for_schema => OK (make_scatterer for_schema)) self pars
      = OK s.


End FitTerms.


(** * Notions used in the statements about [composite.py] *)

Module TieTerms.
Import Composite.

Section Terms.
Context {val : Type} {PV : PyValue val}.

(** Some member of some tie group is not a key of the raw parameters. *)
Definition absent_member (raw : dict string val) (ties : tie_table) : Prop :=
  exists tied_name raw_names m,
    In (tied_name, raw_names) ties /\ In m raw_names /\ dict_get raw m = None.

(** Some member of some tie group has a value that is not equal to the
    value of the first member of its group. *)
Definition unequal_member (raw : dict string val) (ties : tie_table) : Prop :=
  exists tied_name raw_names m first v w,
    In (tied_name, raw_names) ties /\ In m raw_names /\
    hd_error raw_names = Some first /\
    dict_get raw m = Some v /\ dict_get raw first = Some w /\
    py_eq v w = false.

(** Some tie group has no member. *)
Definition empty_group (ties : tie_table) : Prop :=
  exists tied_name, In (tied_name, []) ties.

(** What the check of one group requires ... *)
Definition group_good (raw : dict string val) (raw_names : list string) : Prop :=
  (forall m, In m raw_names -> dict_get raw m <> None)
  /\ (forall m first v w,
         In m raw_names -> hd_error raw_names = Some first ->
         dict_get raw m = Some v -> dict_get raw first = Some w ->
         py_eq v w = true).

(** ... and what makes it fail. *)
Definition group_bad (raw : dict string val) (raw_names : list string) : Prop :=
  (exists m, In m raw_names /\ dict_get raw m = None)
  \/ (exists m first v w,
         In m raw_names /\ hd_error raw_names = Some first /\
         dict_get raw m = Some v /\ dict_get raw first = Some w /\
         py_eq v w = false).

(** Two raw names are members of one tie group. *)
Definition tied_together (ties : tie_table) (a b : string) : Prop :=
  exists tied_name raw_names,
    In (tied_name, raw_names) ties /\ In a raw_names /\ In b raw_names.

(** Two entries hold one object, which is not a number. *)
Definition aliased (raw : dict string val) (a b : string) : Prop :=
  exists v w, dict_get raw a = Some v /\ dict_get raw b = Some w /\
              py_is v w = true /\ is_Number v = false.




(** Every group of the first table is part of a group of the second
    table with the same display name. *)
Definition grows (ties ties' : tie_table) : Prop :=
  forall t g, In (t, g) ties -> exists g', In (t, g') ties' /\ incl g g'.




(** Two tie groups have no member in common, and the display name of
    neither is a member of the other. *)
Definition apart (tg tg' : string * list string) : Prop :=
  (forall m, In m (snd tg) -> ~ In m (snd tg'))
  /\ ~ In (fst tg') (snd tg) /\ ~ In (fst tg) (snd tg').

Fixpoint separate (ties : tie_table) : Prop :=
  match ties with
  | [] => True
  | tg :: rest => (forall tg', In tg' rest -> apart tg tg') /\ separate rest
  end.

(** The key is an ASCII text, and its part before the first colon is
    not the index of one of [n] children: it is not an integer, or an
    integer outside the list. *)
Definition no_child_index (n : nat) (key : string) : Prop :=
  ascii_text key = true
  /\ exists index rest,
      split1 key = [index; rest]
      /\ forall z, py_int index = OK z ->
                   py_index (repeat (@nil (string * val)) n) z = Raise IndexError.

(** A scatterer without its tie tables: the tree of its primitives. *)
Fixpoint skeleton (s : scatterer val) : scatterer val :=
  match s with
  | Prim pars => Prim pars
  | Scatterers scatterers _ => Scatterers (map skeleton scatterers) []
  end.
End Terms.

(** *** The statements of the specification *)

(** The check raises exactly when some member of some group is absent
    from the raw parameters or unequal to the first member of its
    group. *)
Definition check_raises_for_members_only : Prop :=
  forall (val : Type) (PV : PyValue val) (scatterers : list (scatterer val))
         (ties : tie_table) (raw : dict string val),
    raw_parameters scatterers = OK raw ->
    (raises (_check_ties scatterers ties)
     <-> absent_member raw ties \/ unequal_member raw ties).


(** [from_parameters] writes every member of every group whose display
    name is a key of the argument into the argument, with the value of
    the tie, and leaves the receiver as it is. *)
Definition from_parameters_writes_ties_only : Prop :=
  forall (val : Type) (PV : PyValue val) (scatterers : list (scatterer val))
         (ties : tie_table) (np : dict string val) (overwrite : bool),
    let o := from_parameters (Scatterers scatterers ties) np overwrite in
    (forall t g v m,
        In (t, g) ties -> dict_get np t = Some v -> In m g ->
        dict_get (arg_after o) m = Some v)
    /\ self_after o = Scatterers scatterers ties.

End TieTerms.


(** * Notions used in the further statements *)

Module MoreTerms.
Import Composite.

Section Terms.
Context {val : Type}.

(** The entries of a child under the index [i]. *)
Definition under (i : nat) (p : dict string val) : dict string val :=
  map (fun kv => (prefixed i (fst kv), snd kv)) p.

(** The entries of the children [ps], the first of which has the
    index [i], one child after the other. *)
Fixpoint namespaced_from (i : nat) (ps : list (dict string val))
  : dict string val :=
  match ps with
  | [] => []
  | p :: rest => under i p ++ namespaced_from (S i) rest
  end.

(** One round of the loop of [raw_parameters]. *)
Definition raw_step (acc : result (dict string val))
           (ic : nat * result (dict string val)) : result (dict string val) :=
  parameters <- acc ;;
  child <- snd ic ;;
  OK (dict_update parameters
        (dict_of_list
           (map (fun kv => (prefixed (fst ic) (fst kv), snd kv)) child))).

(** A scatterer whose primitives are changed by [f], with the same
    tree and the same tie tables. *)
Fixpoint map_prims (f : dict string val -> dict string val)
         (s : scatterer val) : scatterer val :=
  match s with
  | Prim pars => Prim (f pars)
  | Scatterers scatterers ties => Scatterers (map (map_prims f) scatterers) ties
  end.

Definition is_Prim (s : scatterer val) : bool :=
  match s with Prim _ => true | Scatterers _ _ => false end.

(** The number of primitives of a scatterer. *)
Fixpoint count_prims (s : scatterer val) : nat :=
  match s with
  | Prim _ => 1
  | Scatterers scatterers _ => list_sum (map count_prims scatterers)
  end.
End Terms.

(** The names of a list are pairwise distinct. *)
Fixpoint distinct (l : list string) : bool :=
  match l with
  | [] => true
  | x :: rest => negb (mem x rest) && distinct rest
  end.

(** The entries of a primitive. *)
Definition entries {val : Type} (s : scatterer val) : dict string val :=
  match s with
  | Prim pars => pars
  | Scatterers _ _ => []
  end.

(** The entries of the two spheres of [test_Composite_tying]. *)
Definition sphere_entries : list (dict string Sample.object) :=
  map entries Sample.tied_spheres.

(** Two balls with radii of their own. *)
Definition two_balls : list (dict string Sample.object) :=
  [[("r", Sample.prior_R)]; [("r", Sample.prior_P)]].

(** The refractive index of a sphere, for [index_at]. *)
Definition index_of (pars : dict string Sample.object) (p : Sample.point3)
  : result (option Sample.object) :=
  OK (dict_get pars "n").

(** A sphere moved by a vector: the vector is added to its centre. *)
Definition component (c : coord) (i : nat) : Q :=
  match c with
  | Array items =>
      match nth_error items i with
      | Some (Scalar x) => x
      | _ => 0%Q
      end
  | Scalar _ => 0%Q
  end.

Definition plus (q : Q) (o : Sample.object) : Sample.object :=
  match Sample.holds o with
  | Sample.Num x => Sample.Obj (Sample.oid o) (Sample.Num (x + q))
  | Sample.Uniform _ _ => o
  end.

Definition moved_sphere (c : coord) (pars : dict string Sample.object)
  : dict string Sample.object :=
  map (fun kv =>
         (fst kv,
          if eqb_of (fst kv) "center.0" then plus (component c 0) (snd kv)
          else if eqb_of (fst kv) "center.1" then plus (component c 1) (snd kv)
          else if eqb_of (fst kv) "center.2" then plus (component c 2) (snd kv)
          else snd kv)) pars.

End MoreTerms.


(** * Properties *)

Unset Implicit Arguments.

(** ** Strings *)

Example split1_raw : split1 "1:0:r" = ["1"; "0:r"].
Proof. reflexivity. Qed.

Example split1_plain : split1 "center.0" = ["center.0"].
Proof. reflexivity. Qed.

Example prefixed_12 : prefixed 12 "r" = "12:r".
Proof. reflexivity. Qed.

Example py_int_digits : py_int "12" = OK 12%Z.
Proof. reflexivity. Qed.

Example py_int_letters : py_int "c" = Raise ValueError.
Proof. reflexivity. Qed.

(** White space around the digits is dropped; the separators of files,
    groups, records and units (28 to 31) are not white space for [int]. *)
Example py_int_spaces : py_int " 12 " = OK 12%Z.
Proof. reflexivity. Qed.

Example py_int_separator :
  py_int (String (ascii_of_nat 28) "1") = Raise ValueError.
Proof. reflexivity. Qed.


(** ** Dictionaries *)

Section DictFacts.
Context {K : Type} `{EqDec K} {V : Type}.
Implicit Types (d e : dict K V) (k : K) (v : V).

Lemma dict_get_set_same d k v : dict_get (dict_set d k v) k = Some v.
Proof.
  induction d as [|[k' v'] d IH]; simpl.
  - destruct (eq_dec k k); [reflexivity | congruence].
  - destruct (eq_dec k k') as [->|Hne]; simpl.
    + destruct (eq_dec k' k'); [reflexivity | congruence].
    + destruct (eq_dec k k'); [congruence | exact IH].
Qed.

Lemma dict_get_set_other d k v k' :
  k' <> k -> dict_get (dict_set d k v) k' = dict_get d k'.
Proof.
  intros Hne. induction d as [|[k0 v0] d IH]; simpl.
  - destruct (eq_dec k' k); [congruence | reflexivity].
  - destruct (eq_dec k k0) as [->|Hk]; simpl.
    + destruct (eq_dec k' k0); [congruence | reflexivity].
    + destruct (eq_dec k' k0); [reflexivity | exact IH].
Qed.

Lemma dict_get_set d k v k' :
  dict_get (dict_set d k v) k'
  = if eq_dec k' k then Some v else dict_get d k'.
Proof.
  destruct (eq_dec k' k) as [->|Hne].
  - apply dict_get_set_same.
  - apply dict_get_set_other. exact Hne.
Qed.

Lemma dict_mem_set d k v k' :
  dict_mem d k' = true -> dict_mem (dict_set d k v) k' = true.
Proof.
  unfold dict_mem. rewrite dict_get_set.
  destruct (eq_dec k' k); [reflexivity | trivial].
Qed.

Lemma dict_mem_set_same d k v : dict_mem (dict_set d k v) k = true.
Proof. unfold dict_mem. rewrite dict_get_set_same. reflexivity. Qed.

Lemma dict_get_app d e k :
  dict_get (d ++ e) k
  = match dict_get d k with Some v => Some v | None => dict_get e k end.
Proof.
  induction d as [|[k' v'] d IH]; simpl; [reflexivity |].
  destruct (eq_dec k k'); [reflexivity | exact IH].
Qed.

(** After [d.update(e)] a key has the last value that [e] gives it,
    or else the value it had in [d]. *)
Lemma dict_get_update e : forall d k,
  dict_get (dict_update d e) k
  = match dict_get (rev e) k with
    | Some v => Some v
    | None => dict_get d k
    end.
Proof.
  induction e as [|[k0 v0] e IH]; intros d k; simpl; [reflexivity |].
  unfold dict_update in *. simpl. rewrite IH. rewrite dict_get_app.
  destruct (dict_get (rev e) k); [reflexivity |].
  simpl. rewrite dict_get_set. destruct (eq_dec k k0); reflexivity.
Qed.

Lemma dict_get_In d k v : dict_get d k = Some v -> In (k, v) d.
Proof.
  induction d as [|[k' v'] d IH]; simpl; [discriminate |].
  destruct (eq_dec k k') as [->|Hne].
  - intros Heq. inversion Heq. left. reflexivity.
  - intros Hg. right. exact (IH Hg).
Qed.

Lemma dict_get_None d k : dict_get d k = None <-> ~ In k (dict_keys d).
Proof.
  induction d as [|[k' v'] d IH]; simpl.
  - split; [intros _ [] | reflexivity].
  - destruct (eq_dec k k') as [->|Hne].
    + split; [discriminate | intros Hn; exfalso; apply Hn; left; reflexivity].
    + rewrite IH. split.
      * intros Hn [Heq | Hin]; [congruence | exact (Hn Hin)].
      * intros Hn Hin. apply Hn. right. exact Hin.
Qed.

Lemma mem_In (x : K) (l : list K) : mem x l = true <-> In x l.
Proof.
  unfold mem. destruct (in_dec eq_dec x l); split; try tauto; discriminate.
Qed.

Lemma mem_not_In (x : K) (l : list K) : mem x l = false <-> ~ In x l.
Proof.
  unfold mem. destruct (in_dec eq_dec x l); split; try tauto; discriminate.
Qed.
Lemma dict_set_In d k v k' v' :
  In (k', v') (dict_set d k v) -> In (k', v') d \/ (k' = k /\ v' = v).
Proof.
  induction d as [|[k0 v0] d IH]; simpl.
  - intros [Heq | []]. inversion Heq. right. split; reflexivity.
  - destruct (eq_dec k k0) as [->|Hne]; simpl.
    + intros [Heq | Hin].
      * inversion Heq. right. split; reflexivity.
      * left. right. exact Hin.
    + intros [Heq | Hin].
      * left. left. exact Heq.
      * destruct (IH Hin) as [Hd | Hnew]; [left; right; exact Hd | right; exact Hnew].
Qed.

Lemma dict_update_In e : forall d k v,
  In (k, v) (dict_update d e) -> In (k, v) d \/ In (k, v) e.
Proof.
  induction e as [|[k0 v0] e IH]; intros d k v; unfold dict_update in *; simpl.
  - intros Hin. left. exact Hin.
  - intros Hin. destruct (IH _ _ _ Hin) as [Hset | He].
    + destruct (dict_set_In _ _ _ _ _ Hset) as [Hd | [-> ->]].
      * left. exact Hd.
      * right. left. reflexivity.
    + right. right. exact He.
Qed.

Lemma dict_get_key d k : In k (dict_keys d) -> dict_get d k <> None.
Proof. intros Hin Hn. apply dict_get_None in Hn. exact (Hn Hin). Qed.

Lemma dict_keys_rev d : dict_keys (rev d) = rev (dict_keys d).
Proof. unfold dict_keys. apply map_rev. Qed.

(** [d.update({name: v for name in names})] *)
Lemma dict_get_update_const (names : list K) v d k :
  dict_get (dict_update d (dict_of_list (map (fun n => (n, v)) names))) k
  = if mem k names then Some v else dict_get d k.
Proof.
  rewrite dict_get_update.
  set (D := dict_of_list (map (fun n => (n, v)) names)).
  destruct (dict_get (rev D) k) as [x|] eqn:Hx.
  - apply dict_get_In in Hx. apply in_rev in Hx.
    destruct (dict_update_In _ _ _ _ Hx) as [[] | HL].
    apply in_map_iff in HL. destruct HL as [n [Heq Hn]]. inversion Heq. subst.
    rewrite (proj2 (mem_In k names) Hn). reflexivity.
  - destruct (mem k names) eqn:Hm; [| reflexivity].
    exfalso. apply mem_In in Hm.
    apply dict_get_None in Hx. apply Hx. rewrite dict_keys_rev. apply in_rev.
    rewrite rev_involutive.
    assert (HD : dict_get D k <> None).
    { unfold D, dict_of_list. rewrite dict_get_update.
      destruct (dict_get (rev (map (fun n => (n, v)) names)) k) eqn:Hr;
        [discriminate |].
      exfalso. apply dict_get_None in Hr. apply Hr.
      rewrite dict_keys_rev. apply in_rev. rewrite rev_involutive.
      unfold dict_keys. rewrite map_map. simpl. rewrite map_id. exact Hm. }
    destruct (in_dec eq_dec k (dict_keys D)) as [Hin | Hnin]; [exact Hin |].
    exfalso. apply HD. apply dict_get_None. exact Hnin.
Qed.

Lemma dict_get_filter (f : K -> bool) d k :
  dict_get (filter (fun kv => f (fst kv)) d) k
  = if f k then dict_get d k else None.
Proof.
  induction d as [|[k' v'] d IH]; simpl.
  - destruct (f k); reflexivity.
  - destruct (f k') eqn:Hf'; simpl.
    + destruct (eq_dec k k') as [->|Hne]; [rewrite Hf'; reflexivity | exact IH].
    + destruct (eq_dec k k') as [->|Hne]; [rewrite Hf' in *|]; exact IH.
Qed.

Lemma dict_keys_set d k v :
  forall k', In k' (dict_keys (dict_set d k v)) <-> k' = k \/ In k' (dict_keys d).
Proof.
  intros k'. induction d as [|[k0 v0] d IH]; simpl.
  - split; [intros [<- | []]; left; reflexivity | intros [-> | []]; left; reflexivity].
  - destruct (eq_dec k k0) as [->|Hne]; simpl.
    + split; [intros [<- | Hin]; tauto | intros [-> | [<- | Hin]]; tauto].
    + rewrite IH. split; [intros [<- | [-> | Hin]]; tauto |
                           intros [-> | [<- | Hin]]; tauto].
Qed.

Lemma dict_set_NoDup d k v :
  NoDup (dict_keys d) -> NoDup (dict_keys (dict_set d k v)).
Proof.
  induction d as [|[k0 v0] d IH]; simpl; intros Hnd.
  - constructor; [intros [] | constructor].
  - destruct (eq_dec k k0) as [->|Hne]; simpl; [exact Hnd |].
    inversion Hnd as [|x l Hnotin Hnd']. subst. constructor.
    + intros Hin. apply dict_keys_set in Hin. destruct Hin as [-> | Hin];
        [congruence | exact (Hnotin Hin)].
    + apply IH. exact Hnd'.
Qed.

Lemma dict_update_NoDup e : forall d,
  NoDup (dict_keys d) -> NoDup (dict_keys (dict_update d e)).
Proof.
  induction e as [|[k v] e IH]; intros d Hnd; [exact Hnd |].
  unfold dict_update in *. simpl. apply IH. apply dict_set_NoDup. exact Hnd.
Qed.

(** In a dictionary the first binding of a key is its only one. *)
Lemma dict_get_NoDup d k v :
  NoDup (dict_keys d) -> In (k, v) d -> dict_get d k = Some v.
Proof.
  induction d as [|[k0 v0] d IH]; simpl; intros Hnd Hin; [contradiction |].
  inversion Hnd as [|x l Hnotin Hnd']. subst.
  destruct Hin as [Heq | Hin].
  - inversion Heq. subst. destruct (eq_dec k k); [reflexivity | congruence].
  - destruct (eq_dec k k0) as [->|Hne]; [| exact (IH Hnd' Hin)].
    exfalso. apply Hnotin. unfold dict_keys. apply in_map_iff.
    exists (k0, v). split; [reflexivity | exact Hin].
Qed.

Lemma dict_get_rev d k :
  NoDup (dict_keys d) -> dict_get (rev d) k = dict_get d k.
Proof.
  intros Hnd. destruct (dict_get d k) as [v|] eqn:Hg.
  - apply dict_get_NoDup.
    + rewrite dict_keys_rev. apply NoDup_rev. exact Hnd.
    + apply in_rev. rewrite rev_involutive. apply dict_get_In. exact Hg.
  - apply dict_get_None. apply dict_get_None in Hg. rewrite dict_keys_rev.
    intros Hin. apply Hg. apply in_rev. exact Hin.
Qed.

(** [d.update(e)] for a dictionary [e]. *)
Lemma dict_get_update_dict d e k :
  NoDup (dict_keys e) ->
  dict_get (dict_update d e) k
  = match dict_get e k with Some v => Some v | None => dict_get d k end.
Proof.
  intros Hnd. rewrite dict_get_update, dict_get_rev by exact Hnd. reflexivity.
Qed.

Lemma dict_of_list_NoDup (l : list (K * V)) : NoDup (dict_keys (dict_of_list l)).
Proof. unfold dict_of_list. apply dict_update_NoDup. constructor. Qed.

Lemma dict_get_of_list (l : list (K * V)) k :
  NoDup (map fst l) -> dict_get (dict_of_list l) k = dict_get l k.
Proof.
  intros Hnd. unfold dict_of_list. rewrite dict_get_update. simpl.
  rewrite (dict_get_rev l k Hnd). destruct (dict_get l k); reflexivity.
Qed.

Lemma dict_mem_item d k :
  dict_mem d k = true -> exists v, dict_item d k = OK v.
Proof.
  unfold dict_mem, dict_item. destruct (dict_get d k) as [v|];
    [exists v; reflexivity | discriminate].
Qed.

Lemma dict_item_absent d k :
  dict_mem d k = false -> dict_item d k = Raise KeyError.
Proof.
  unfold dict_mem, dict_item. destruct (dict_get d k);
    [discriminate | reflexivity].
Qed.

End DictFacts.


(** ** Point classification *)

Module DomainFacts.
Import Composite.

Section Loop.
Context {val : Type}.
Variable point : Type.
Variable contains : scatterer val -> point -> bool.

Lemma in_domain_loop_one (p : point) (others : list (scatterer val)) :
  forall k i,
    fold_left
      (fun ind is_ =>
         map (fun po => if contains (snd is_) (fst po)
                        then fst is_ + 1 else snd po)
             (combine [p] ind))
      (enumerate_from k others) [i]
    = [scan contains p k others i].
Proof.
  induction others as [|s rest IH]; intros k i; simpl.
  - reflexivity.
  - rewrite IH. reflexivity.
Qed.

Lemma in_domain_one (first : scatterer val) (others : list (scatterer val))
      (p : point) :
  in_domain contains (first :: others) [p]
  = OK [scan contains p 0 others (if contains first p then 1 else 0)].
Proof.
  unfold in_domain. f_equal. exact (in_domain_loop_one p others 0 _).
Qed.

(** No later child contains the point: the number stored at the
    start survives. *)
Lemma scan_none (p : point) (others : list (scatterer val)) :
  (forall s, In s others -> contains s p = false) ->
  forall k i, scan contains p k others i = i.
Proof.
  induction others as [|s rest IH]; intros Hn k i; simpl.
  - reflexivity.
  - rewrite (Hn s (or_introl eq_refl)). apply IH.
    intros s' Hs'. apply Hn. right. exact Hs'.
Qed.

(** The last child that contains the point decides. *)
Lemma scan_last (p : point) (before after : list (scatterer val))
      (s : scatterer val) :
  contains s p = true ->
  (forall s', In s' after -> contains s' p = false) ->
  forall k i, scan contains p k (before ++ s :: after) i = k + length before + 1.
Proof.
  intros Hs Hafter. induction before as [|b before IH]; intros k i; simpl.
  - rewrite Hs. rewrite scan_none by exact Hafter. lia.
  - rewrite IH. lia.
Qed.

(** What [in_domain] returns for a point that only child 0 contains
    (or that no child contains): [1] (or [0]). *)
Lemma in_domain_no_later_child (first : scatterer val)
      (others : list (scatterer val)) (p : point) :
  (forall s, In s others -> contains s p = false) ->
  in_domain contains (first :: others) [p]
  = OK [if contains first p then 1 else 0].
Proof.
  intros Hn. rewrite in_domain_one. rewrite scan_none by exact Hn.
  reflexivity.
Qed.

(** What [in_domain] returns for a point that some child after child 0
    contains: the index of the last such child. *)
Lemma in_domain_last_wins (first : scatterer val)
      (before after : list (scatterer val)) (s : scatterer val) (p : point) :
  contains s p = true ->
  (forall s', In s' after -> contains s' p = false) ->
  in_domain contains (first :: before ++ s :: after) [p]
  = OK [length before + 1].
Proof.
  intros Hs Hafter. rewrite in_domain_one.
  rewrite scan_last by assumption. reflexivity.
Qed.
End Loop.

(** The point of [test_Composite_construction] lies in the last of the
    four children alone, and [in_domain] gives 3. *)
Example in_domain_test_composite :
  in_domain Sample.inside Sample.test_composite [((-5), 0, 0)%Q] = OK [3].
Proof. vm_compute. reflexivity. Qed.

(** C4.  The claim is that [in_domain] gives the index of the first
    child that contains the point, and child 0 when no later child
    contains it.  The code does otherwise.  For the unit sphere at the
    Sample.origin followed by a unit sphere around (5, 0, 0), the origin lies in
    child 0 alone and [in_domain] answers 1, the index of the other
    sphere.  With a third sphere of radius 2 around (5, 0, 0), the point
    (5, 0, 0) lies in children 1 and 2 and [in_domain] answers 2, the
    last of them and not the first. *)
Theorem in_domain_is_not_first_containing :
  let a := Sample.sphere_at 10 1 0 in
  let b := Sample.sphere_at 20 1 5 in
  let c := Sample.sphere_at 30 2 5 in
  (Sample.inside a Sample.origin = true /\ Sample.inside b Sample.origin = false /\
   in_domain Sample.inside [a; b] [Sample.origin] = OK [1]) /\
  (Sample.inside a Sample.far_point = false /\ Sample.inside b Sample.far_point = true /\
   Sample.inside c Sample.far_point = true /\
   in_domain Sample.inside [a; b; c] [Sample.far_point] = OK [2]).
Proof. vm_compute. repeat split; reflexivity. Qed.

End DomainFacts.


(** ** Arguments of the spatial transforms *)

Module TransformFacts.
Import Composite.

(** A vector of three coordinates is taken as it is. *)
Lemma translation_of_vector (x y z : coord) :
  translation_coords (Array [x; y; z]) None None = OK (Array [x; y; z]).
Proof. reflexivity. Qed.

(** Three separate coordinates are put together. *)
Lemma translation_of_three (x y z : coord) :
  translation_coords x (Some y) (Some z) = OK (Array [x; y; z]).
Proof. reflexivity. Qed.

Lemma rotation_of_vector (a b g : coord) :
  rotation_angles (Array [a; b; g]) None None = OK (a, b, g).
Proof. reflexivity. Qed.

Lemma rotation_of_three (a b g : coord) :
  rotation_angles a (Some b) (Some g) = OK (a, b, g).
Proof. reflexivity. Qed.

(** A first argument alone is accepted by [translated] whatever its
    length, provided it is not empty: the test is on the length of the
    comparison [ensure_array(coord1) == 3] and not on a length of 3. *)
Lemma translation_of_any_array (c : coord) :
  ensure_array c <> [] ->
  translation_coords c None None = OK (Array (ensure_array c)).
Proof.
  intros Hne. unfold translation_coords, len_eq3. simpl.
  destruct (ensure_array c); [contradiction | reflexivity].
Qed.

(** Whenever the last branch is reached the exception is the one of the
    unbound name. *)
Lemma translation_raises_only_NameError (c1 : coord) (c2 c3 : option coord) (e : exn) :
  translation_coords c1 c2 c3 = Raise e -> e = NameError "InvalidScatterer".
Proof.
  unfold translation_coords.
  destruct (is_None c2 && negb (len_eq3 c1 =? 0)); [discriminate |].
  destruct c2, c3; intros Heq; inversion Heq; reflexivity.
Qed.

(** No argument makes the head of [translated] or of [rotated] raise
    [InvalidScatterer]. *)
Lemma never_InvalidScatterer (c1 : coord) (c2 c3 : option coord) :
  translation_coords c1 c2 c3 <> Raise InvalidScatterer
  /\ rotation_angles c1 c2 c3 <> Raise InvalidScatterer.
Proof.
  split.
  - intros Heq. apply translation_raises_only_NameError in Heq. discriminate.
  - unfold rotation_angles.
    destruct (is_None c2 && negb (len_eq3 c1 =? 0)).
    + destruct c1 as [x | [|a [|b [|g [|d l]]]]]; simpl; discriminate.
    + destruct c2, c3; discriminate.
Qed.

(** C5.  The claim is that [translated] and [rotated] raise the error for
    unrecognized coordinates when given neither a vector of three nor
    three scalars.  The code does otherwise.  A single scalar passes the
    first test of [translated], so that a composite without children is
    translated without any exception; with two scalars the last branch
    is reached, where the name [InvalidScatterer] is not bound in the
    module and its evaluation raises [NameError]; [rotated] with a single
    scalar fails while unpacking it, with [TypeError], and with a vector
    of two with [ValueError]. *)
Theorem malformed_coordinates_not_rejected :
  translation_coords (Scalar 5) None None = OK (Array [Scalar 5]) /\
  (forall (val : Type) (pt : dict string val -> coord -> result (dict string val)),
      translated pt [] [] (Scalar 5) None None = OK (Scatterers [] [])) /\
  translation_coords (Scalar 1) (Some (Scalar 2)) None
  = Raise (NameError "InvalidScatterer") /\
  rotation_angles (Scalar 1) (Some (Scalar 2)) None
  = Raise (NameError "InvalidScatterer") /\
  rotation_angles (Scalar 1) None None = Raise TypeError /\
  rotation_angles (Array [Scalar 1; Scalar 2]) None None = Raise ValueError.
Proof. repeat split; reflexivity. Qed.

End TransformFacts.


(** ** The model and its amplitude *)

Module ModelFacts.
Import Fitting.

(** C6, as the code has it.  The list of the model is the list of the
    scatterer with the amplitude appended whenever the amplitude is a
    [Parameter] object, fixed or not; a number or [None] is not
    appended. *)
Theorem Model_init_parameters (h : heap) (sc : tables) (a : amplitude) :
  model_parameters (snd (Model_init h sc a))
  = parameters sc ++ match a with
                     | AlphaParameter p => [p]
                     | NoAlpha | Constant _ => []
                     end.
Proof.
  destruct a; unfold model_parameters; simpl; try rewrite app_nil_r; reflexivity.
Qed.

(** Object 2 of the sample heap is fixed and, as the amplitude of a
    model, it is in the list of the model. *)
Lemma fixed_amplitude_in_list :
  let m := snd (Model_init SampleFit.sample_heap SampleFit.no_tables
                           (AlphaParameter 2)) in
  fixed (SampleFit.sample_heap 2) = true /\ model_parameters m = [2].
Proof. split; reflexivity. Qed.

(** C6 fails as stated: a fixed amplitude is appended to the list of
    free parameters. *)
Lemma fixed_amplitude_is_appended : ~ FitTerms.amplitude_appended_only_if_free.
Proof.
  intros Hspec.
  specialize (Hspec SampleFit.sample_heap SampleFit.no_tables (AlphaParameter 2)).
  rewrite (proj2 fixed_amplitude_in_list) in Hspec. discriminate.
Qed.

(** The amplitude without a name is called [alpha] by the constructor. *)
Lemma Model_init_names_alpha :
  name (fst (Model_init SampleFit.sample_heap SampleFit.no_tables
                        (AlphaParameter 2)) 2) = Some "alpha".
Proof. reflexivity. Qed.

(** C7, as the code has it.  [get_alpha] returns the entry [alpha] of the
    map when there is one; otherwise it returns the amplitude of the
    model as it was given, a number as that number and a [Parameter] as
    the object itself, and 1.0 when there is no amplitude. *)
Theorem get_alpha_cases (m : Model) (pars : option (dict string number)) :
  (forall d x, pars = Some d -> dict_get d "alpha" = Some x ->
               get_alpha m pars = ANumber x) /\
  ((pars = None \/ exists d, pars = Some d /\ dict_get d "alpha" = None) ->
   get_alpha m pars = match alpha m with
                      | NoAlpha => ANumber (Float 1)
                      | Constant x => ANumber x
                      | AlphaParameter p => AnObject p
                      end).
Proof.
  split.
  - intros d x -> Hx. unfold get_alpha. rewrite Hx. reflexivity.
  - intros [-> | [d [-> Hd]]]; unfold get_alpha; [| rewrite Hd]; reflexivity.
Qed.

Lemma get_alpha_cases_witness :
  let m := {| scatterer := SampleFit.no_tables; alpha := NoAlpha |} in
  get_alpha m (Some [("alpha", Float 2)]) = ANumber (Float 2) /\
  get_alpha m (Some []) = ANumber (Float 1).
Proof.
  intros m. split.
  - apply (proj1 (get_alpha_cases m (Some [("alpha", Float 2)]))
                 [("alpha", Float 2)] (Float 2)); reflexivity.
  - apply (proj2 (get_alpha_cases m (Some []))).
    right. exists []. split; reflexivity.
Defined.

(** For a free amplitude and a map without [alpha], [get_alpha] returns
    the object and not its guess, 0.6 here. *)
Lemma get_alpha_of_free_amplitude :
  let m := snd (Model_init SampleFit.sample_heap SampleFit.no_tables
                           (AlphaParameter 3)) in
  fixed (SampleFit.sample_heap 3) = false
  /\ get_alpha m (Some []) = AnObject 3
  /\ FitTerms.get_alpha_by_spec SampleFit.sample_heap m (Some [])
     = ANumber (Float 0.6).
Proof. repeat split. Qed.

(** C7 fails as stated: the amplitude itself is returned, a [Parameter]
    object where the statement has its guess. *)
Lemma get_alpha_returns_the_object : ~ FitTerms.get_alpha_returns_numbers.
Proof.
  intros Hspec.
  specialize (Hspec SampleFit.sample_heap
                    (snd (Model_init SampleFit.sample_heap SampleFit.no_tables
                                     (AlphaParameter 3)))
                    (Some [])).
  discriminate.
Qed.

End ModelFacts.


(** ** Parametrizations *)

Module ParametrizationFacts.
Import Fitting FitTerms.

(** *** The constructor *)

Lemma rename_fixed (h : heap) (p : handle) (n : option string) (q : handle) :
  fixed (rename h p n q) = fixed (h q).
Proof.
  unfold rename. destruct (q =? p) eqn:E; [| reflexivity].
  apply Nat.eqb_eq in E. subst q. reflexivity.
Qed.

Lemma rename_guess (h : heap) (p : handle) (n : option string) (q : handle) :
  guess (rename h p n q) = guess (h q).
Proof.
  unfold rename. destruct (q =? p) eqn:E; [| reflexivity].
  apply Nat.eqb_eq in E. subst q. reflexivity.
Qed.

Lemma rename_name_other (h : heap) (p : handle) (n : option string) (q : handle) :
  q <> p -> name (rename h p n q) = name (h q).
Proof.
  intros Hne. unfold rename. apply Nat.eqb_neq in Hne. rewrite Hne. reflexivity.
Qed.

Section AddPar.
Variables (st : heap * tables) (p : handle) (n : option string).

Lemma add_par_fixed (q : handle) :
  fixed (fst (add_par st p n) q) = fixed (fst st q).
Proof.
  unfold add_par.
  destruct n; destruct (negb (fixed _)); simpl; try apply rename_fixed;
    reflexivity.
Qed.

Lemma add_par_guess (q : handle) :
  guess (fst (add_par st p n) q) = guess (fst st q).
Proof.
  unfold add_par.
  destruct n; destruct (negb (fixed _)); simpl; try apply rename_guess;
    reflexivity.
Qed.

Lemma add_par_name_other (q : handle) :
  q <> p -> name (fst (add_par st p n) q) = name (fst st q).
Proof.
  intros Hne. unfold add_par.
  destruct n; destruct (negb (fixed _)); simpl;
    try (apply rename_name_other; exact Hne); reflexivity.
Qed.

(** A free object goes to the end of the list, a fixed one does not
    go to the list. *)
Lemma add_par_parameters :
  parameters (snd (add_par st p n))
  = parameters (snd st) ++ (if fixed (fst st p) then [] else [p]).
Proof.
  unfold add_par.
  destruct n; simpl; rewrite ?rename_fixed;
    destruct (fixed (fst st p)); simpl; rewrite ?app_nil_r; reflexivity.
Qed.

(** A fixed object is recorded under the name it has after the call,
    with its guess. *)
Lemma add_par_recorded :
  fixed (fst st p) = true ->
  dict_get (_fixed_params (snd (add_par st p n)))
           (name (fst (add_par st p n) p))
  = Some (guess (fst st p)).
Proof.
  intros Hf. unfold add_par.
  destruct n; simpl; rewrite ?rename_fixed, Hf; simpl;
    rewrite dict_get_set_same, ?rename_guess; reflexivity.
Qed.

Lemma add_par_keeps (k : option string) :
  dict_mem (_fixed_params (snd st)) k = true ->
  dict_mem (_fixed_params (snd (add_par st p n))) k = true.
Proof.
  intros Hm. unfold add_par.
  destruct n; destruct (negb (fixed _)); simpl;
    try apply dict_mem_set; exact Hm.
Qed.

Lemma add_par_sound (k : option string) (v : number) :
  dict_get (_fixed_params (snd (add_par st p n))) k = Some v ->
  dict_get (_fixed_params (snd st)) k = Some v
  \/ (fixed (fst st p) = true /\ guess (fst st p) = v).
Proof.
  unfold add_par.
  destruct n; simpl; rewrite ?rename_fixed;
    destruct (fixed (fst st p)) eqn:Hf; simpl; try (intros Hg; left; exact Hg);
    rewrite dict_get_set;
    match goal with
    | |- context [eq_dec ?a ?b] => destruct (eq_dec a b)
    end;
    try (intros Hg; left; exact Hg);
    intros Hg; inversion Hg; right; rewrite ?rename_guess; split; reflexivity.
Qed.
End AddPar.

(** With names on all complex quantities the loop runs to its end, and
    it is the sequence of its calls of [add_par]. *)
Lemma init_loop_calls (pars : list quantity) :
  named pars = true ->
  forall st,
    init_loop st pars = (run_calls st (flat_map calls_of pars), OK tt).
Proof.
  induction pars as [|q rest IH]; intros Hn st.
  - reflexivity.
  - simpl in Hn. apply andb_true_iff in Hn. destruct Hn as [Hq Hrest].
    destruct q as [p | [cn|] re im |]; simpl; try discriminate.
    + rewrite (IH Hrest). reflexivity.
    + rewrite (IH Hrest). unfold run_calls. simpl. reflexivity.
    + rewrite (IH Hrest). reflexivity.
Qed.

Lemma calls_leaves (pars : list quantity) :
  named pars = true ->
  map fst (flat_map calls_of pars) = leaves pars.
Proof.
  induction pars as [|q rest IH]; intros Hn; [reflexivity |].
  simpl in Hn. apply andb_true_iff in Hn. destruct Hn as [Hq Hrest].
  unfold leaves in *. simpl. rewrite map_app, (IH Hrest).
  destruct q as [p | [cn|] re im |]; simpl; try discriminate; reflexivity.
Qed.

(** What a sequence of calls of [add_par] does to the two tables. *)
Lemma run_calls_spec (cs : list (handle * option string)) :
  forall st,
    let st' := run_calls st cs in
    parameters (snd st')
    = parameters (snd st)
      ++ filter (fun p => negb (fixed (fst st p))) (map fst cs)
    /\ (forall q, fixed (fst st' q) = fixed (fst st q)
                  /\ guess (fst st' q) = guess (fst st q))
    /\ (forall q, fixed (fst st q) = true ->
                  dict_mem (_fixed_params (snd st)) (name (fst st q)) = true
                  \/ In q (map fst cs) ->
                  dict_mem (_fixed_params (snd st')) (name (fst st' q)) = true)
    /\ (forall k v, dict_get (_fixed_params (snd st')) k = Some v ->
                    dict_get (_fixed_params (snd st)) k = Some v
                    \/ exists p, In p (map fst cs) /\ fixed (fst st p) = true
                                 /\ guess (fst st p) = v).
Proof.
  induction cs as [|[p n] cs IH]; intros st; simpl.
  - repeat split.
    + rewrite app_nil_r. reflexivity.
    + intros q _ [Hm | []]. exact Hm.
    + intros k v Hg. left. exact Hg.
  - destruct (IH (add_par st p n)) as [H1 [H2 [H3 H4]]].
    unfold run_calls in *. simpl. repeat split.
    + assert (Hext : forall q, negb (fixed (fst (add_par st p n) q))
                                = negb (fixed (fst st q))).
      { intros q. rewrite add_par_fixed. reflexivity. }
      rewrite H1, add_par_parameters, <- app_assoc. f_equal.
      rewrite (filter_ext _ _ Hext).
      destruct (fixed (fst st p)); reflexivity.
    + rewrite (proj1 (H2 q)). apply add_par_fixed.
    + rewrite (proj2 (H2 q)). apply add_par_guess.
    + intros q Hf Hq. apply H3.
      * rewrite add_par_fixed. exact Hf.
      * destruct (Nat.eq_dec q p) as [-> | Hne].
        -- left. unfold dict_mem. rewrite add_par_recorded by exact Hf.
           reflexivity.
        -- destruct Hq as [Hm | [Heq | Hin]].
           ++ left. rewrite add_par_name_other by exact Hne.
              apply add_par_keeps. exact Hm.
           ++ congruence.
           ++ right. exact Hin.
    + intros k v Hg. destruct (H4 k v Hg) as [Hold | [q [Hin [Hf Hv]]]].
      * destruct (add_par_sound st p n k v Hold) as [Hst | [Hf Hv]].
        -- left. exact Hst.
        -- right. exists p. split; [left; reflexivity | split; assumption].
      * right. exists q. rewrite add_par_fixed in Hf. rewrite add_par_guess in Hv.
        split; [right; exact Hin | split; assumption].
Qed.






(** *** [make_from] *)

Section MakeFromFacts.
Variable built : Type.
Variable args : list string.
Variable make_scatterer : dict string number -> result built.
Implicit Types (fixed_params : dict (option string) number)
         (pars for_schema : dict string number).

(** A round of the loop succeeds exactly when a source supplies the
    argument, and fails with [KeyError] only. *)
Lemma resolve_supplied fixed_params pars arg :
  supplied fixed_params pars arg = true ->
  exists v, resolve fixed_params pars arg = OK v.
Proof.
  unfold supplied, resolve. intros Hs.
  cbv zeta in *.
  destruct (dict_mem pars (arg ++ ".real")%string) eqn:Hre;
    destruct (dict_mem pars (arg ++ ".imag")%string) eqn:Him;
    destruct (dict_mem fixed_params (Some (arg ++ ".real")%string)) eqn:Hfre;
    destruct (dict_mem fixed_params (Some (arg ++ ".imag")%string)) eqn:Hfim;
    simpl in *;
    repeat match goal with
           | Hm : dict_mem ?d ?k = true |- context [dict_item ?d ?k] =>
               let v := fresh "v" in
               let Hv := fresh "Hv" in
               destruct (dict_mem_item d k Hm) as [v Hv]; rewrite Hv; simpl
           end;
    try (eexists; reflexivity);
    apply dict_mem_item; exact Hs.
Qed.

Lemma resolve_not_supplied fixed_params pars arg :
  supplied fixed_params pars arg = false ->
  resolve fixed_params pars arg = Raise KeyError.
Proof.
  unfold supplied, resolve. intros Hs.
  cbv zeta in *.
  destruct (dict_mem pars (arg ++ ".real")%string) eqn:Hre;
    destruct (dict_mem pars (arg ++ ".imag")%string) eqn:Him;
    destruct (dict_mem fixed_params (Some (arg ++ ".real")%string)) eqn:Hfre;
    destruct (dict_mem fixed_params (Some (arg ++ ".imag")%string)) eqn:Hfim;
    simpl in *; try discriminate;
    apply dict_item_absent; exact Hs.
Qed.

Lemma fill_schema_supplied fixed_params pars (l : list string) :
  forallb (supplied fixed_params pars) l = true ->
  forall for_schema,
  exists s, fill_schema fixed_params pars for_schema l = OK s.
Proof.
  induction l as [|arg rest IH]; simpl; intros Hall for_schema.
  - exists for_schema. reflexivity.
  - apply andb_true_iff in Hall. destruct Hall as [Harg Hrest].
    destruct (resolve_supplied _ _ _ Harg) as [v Hv]. rewrite Hv. simpl.
    apply IH. exact Hrest.
Qed.

Lemma fill_schema_not_supplied fixed_params pars (l : list string) :
  forallb (supplied fixed_params pars) l = false ->
  forall for_schema,
  fill_schema fixed_params pars for_schema l = Raise KeyError.
Proof.
  induction l as [|arg rest IH]; simpl; intros Hall for_schema.
  - discriminate.
  - destruct (supplied fixed_params pars arg) eqn:Harg.
    + destruct (resolve_supplied _ _ _ Harg) as [v Hv]. rewrite Hv. simpl.
      apply IH. exact Hall.
    + rewrite (resolve_not_supplied _ _ _ Harg). reflexivity.
Qed.

(** [make_from] calls the construction function when every argument
    has a source, and raises [KeyError] without calling it
    otherwise. *)
Lemma make_from_cases (self : tables) pars :
  (forallb (supplied (_fixed_params self) pars) args = true
   /\ exists for_schema,
       fill_schema (_fixed_params self) pars [] args = OK for_schema
       /\ make_from args make_scatterer self pars = make_scatterer for_schema)
  \/ (forallb (supplied (_fixed_params self) pars) args = false
      /\ make_from args make_scatterer self pars = Raise KeyError).
Proof.
  unfold make_from.
  destruct (forallb (supplied (_fixed_params self) pars) args) eqn:Hall.
  - left. split; [reflexivity |].
    destruct (fill_schema_supplied _ _ _ Hall []) as [s Hs]. rewrite Hs.
    exists s. split; reflexivity.
  - right. split; [reflexivity |].
    rewrite (fill_schema_not_supplied _ _ _ Hall []). reflexivity.
Qed.

Lemma forallb_false_exists (f : string -> bool) (l : list string) :
  forallb f l = false <-> exists x, In x l /\ f x = false.
Proof.
  induction l as [|a l IH]; simpl.
  - split; [discriminate | intros [x [[] _]]].
  - rewrite andb_false_iff, IH. split.
    + intros [Ha | [x [Hin Hx]]].
      * exists a. split; [left; reflexivity | exact Ha].
      * exists x. split; [right; exact Hin | exact Hx].
    + intros [x [[<- | Hin] Hx]]; [left; exact Hx |].
      right. exists x. split; assumption.
Qed.

Lemma make_from_raises_for (self : tables) pars (arg : string) :
  In arg args ->
  supplied (_fixed_params self) pars arg = false ->
  make_from args make_scatterer self pars = Raise KeyError.
Proof.
  intros Hin Hno.
  destruct (make_from_cases self pars) as [[Hall _] | [_ Hr]]; [| exact Hr].
  rewrite forallb_forall in Hall. rewrite (Hall arg Hin) in Hno. discriminate.
Qed.

(** C8, as the code has it.  [make_from] raises [KeyError], whatever
    the construction function would do, when some argument of the
    construction function has no source among: both halves in the flat
    map, one half in the fixed table with the other half in the flat
    map, the name itself in the flat map.  The fixed table is read for
    halves only: an argument of which the flat map has neither the
    name nor a half makes [make_from] raise, whatever the fixed table
    holds under its name. *)
Theorem make_from_raises_without_source (self : tables) pars :
  (forall arg, In arg args ->
               supplied (_fixed_params self) pars arg = false ->
               make_from args make_scatterer self pars = Raise KeyError)
  /\ (forall arg, In arg args ->
                  dict_mem pars arg = false ->
                  dict_mem pars (arg ++ ".real")%string = false ->
                  dict_mem pars (arg ++ ".imag")%string = false ->
                  make_from args make_scatterer self pars = Raise KeyError).
Proof.
  split.
  - intros arg Hin Hno. exact (make_from_raises_for self pars arg Hin Hno).
  - intros arg Hin Harg Hre Him.
    apply (make_from_raises_for self pars arg Hin).
    unfold supplied. cbv zeta. rewrite Harg, Hre, Him.
    rewrite !andb_false_r. reflexivity.
Qed.

(** The part of C8 that holds as stated: if no source in the sense of
    the specification supplies some argument, [make_from] raises. *)
Lemma make_from_raises_when_nothing_supplies (self : tables) pars (arg : string) :
  In arg args ->
  supplied_by_spec (_fixed_params self) pars arg = false ->
  make_from args make_scatterer self pars = Raise KeyError.
Proof.
  intros Hin Hno. apply (make_from_raises_for self pars arg Hin).
  unfold supplied_by_spec in Hno. unfold supplied.
  repeat (apply orb_false_iff in Hno; destruct Hno as [Hno ?]).
  repeat match goal with
         | Hx : _ = false |- _ => rewrite Hx; clear Hx
         end.
  rewrite ?andb_false_r. reflexivity.
Qed.
End MakeFromFacts.

Lemma make_from_raises_without_source_witness :
  make_from SampleFit.sphere_args SampleFit.keep SampleFit.no_tables
            [("r", Float 0.5)] = Raise KeyError.
Proof.
  apply (proj1 (make_from_raises_without_source (dict string number)
                  SampleFit.sphere_args SampleFit.keep SampleFit.no_tables
                  [("r", Float 0.5)]) "n").
  - left. reflexivity.
  - reflexivity.
Defined.

(** The fixed index of the sample heap is recorded in the fixed table
    under its name [n], and for a flat map that lacks [n] [make_from]
    raises, although the construction function returns whatever it is
    given. *)
Lemma fixed_scalar_raises :
  let self := SampleFit.tables_of SampleFit.sample_heap
                [AParameter 0; AParameter 1] in
  dict_get (_fixed_params self) (Some "n") = Some (Float 1.59)
  /\ make_from SampleFit.sphere_args
               (fun for_schema : dict string number => OK for_schema)
               self [("r", Float 0.5)]
     = Raise KeyError
  /\ forallb (supplied_by_spec (_fixed_params self) [("r", Float 0.5)])
             SampleFit.sphere_args = true.
Proof. repeat split. Qed.

(** C8 fails as stated: [make_from] raises for a fixed scalar argument
    that the fixed table holds. *)
Lemma fixed_scalar_is_not_supplied : ~ make_from_raises_only_when_unsupplied.
Proof.
  intros Hspec.
  destruct fixed_scalar_raises as [_ [Hraise Hall]].
  destruct (Hspec (dict string number) SampleFit.sphere_args
                  (fun for_schema => for_schema)
                  (SampleFit.tables_of SampleFit.sample_heap
                     [AParameter 0; AParameter 1])
                  [("r", Float 0.5)]) as [s Hs].
  - intros arg Harg. rewrite forallb_forall in Hall. exact (Hall arg Harg).
  - rewrite Hraise in Hs. discriminate.
Qed.

End ParametrizationFacts.


(** ** The consistency check of the ties *)

Module TieFacts.
Import Composite TieTerms.

Section Check.
Context {val : Type} {PV : PyValue val}.
Implicit Types (raw : dict string val) (ties : tie_table)
         (raw_names : list string).

Lemma group_good_not_bad raw raw_names :
  group_good raw raw_names -> ~ group_bad raw raw_names.
Proof.
  intros [Hp He] [[m [Hin Hn]] | [m [f [v [w [Hin [Hf [Hv [Hw Hne]]]]]]]]].
  - exact (Hp m Hin Hn).
  - rewrite (He m f v w Hin Hf Hv Hw) in Hne. discriminate.
Qed.

Lemma check_present_cases raw raw_names :
  (check_present raw raw_names = OK tt
   /\ forall m, In m raw_names -> dict_get raw m <> None)
  \/ (check_present raw raw_names = Raise ValueError
      /\ exists m, In m raw_names /\ dict_get raw m = None).
Proof.
  induction raw_names as [|n rest IH]; simpl.
  - left. split; [reflexivity | intros m []].
  - unfold dict_mem. destruct (dict_get raw n) as [v|] eqn:Hn.
    + destruct IH as [[Hok Hall] | [Hr [m [Hin Hm]]]].
      * left. split; [exact Hok |].
        intros m [<- | Hin]; [congruence | exact (Hall m Hin)].
      * right. split; [exact Hr |]. exists m. split; [right |]; assumption.
    + right. split; [reflexivity |]. exists n. split; [left; reflexivity | exact Hn].
Qed.

Lemma check_equal_cases raw (tied_val : val) raw_names :
  (forall m, In m raw_names -> dict_get raw m <> None) ->
  (check_equal raw tied_val raw_names = OK tt
   /\ forall m v, In m raw_names -> dict_get raw m = Some v ->
                  py_eq v tied_val = true)
  \/ (check_equal raw tied_val raw_names = Raise ValueError
      /\ exists m v, In m raw_names /\ dict_get raw m = Some v
                     /\ py_eq v tied_val = false).
Proof.
  induction raw_names as [|n rest IH]; simpl; intros Hall.
  - left. split; [reflexivity | intros m v []].
  - unfold dict_item. destruct (dict_get raw n) as [v|] eqn:Hn.
    + simpl. destruct (py_eq v tied_val) eqn:Heq.
      * destruct IH as [[Hok Hgood] | [Hr [m [v' [Hin [Hm Hne]]]]]].
        -- intros m Hin. apply Hall. right. exact Hin.
        -- left. split; [exact Hok |].
           intros m v' [<- | Hin] Hm; [congruence | exact (Hgood m v' Hin Hm)].
        -- right. split; [exact Hr |]. exists m, v'.
           split; [right; exact Hin | split; assumption].
      * right. split; [reflexivity |]. exists n, v.
        split; [left; reflexivity | split; assumption].
    + exfalso. apply (Hall n); [left; reflexivity | exact Hn].
Qed.

(** The check of one group with a first member passes when the group
    is good and raises [ValueError] when it is bad. *)
Lemma check_group_cases raw raw_names :
  raw_names <> [] ->
  (check_group raw raw_names = OK tt /\ group_good raw raw_names)
  \/ (check_group raw raw_names = Raise ValueError /\ group_bad raw raw_names).
Proof.
  intros Hne. unfold check_group.
  destruct (check_present_cases raw raw_names) as [[Hok Hall] | [Hr Hex]].
  - rewrite Hok. cbn [bind].
    destruct raw_names as [|first rest]; [contradiction |].
    cbn [first_name bind]. unfold dict_item.
    destruct (dict_get raw first) as [w|] eqn:Hw.
    + cbn [bind].
      destruct (check_equal_cases raw w (first :: rest) Hall)
        as [[Hok' Hgood] | [Hr [m [v [Hin [Hm Hneq]]]]]].
      * left. split; [exact Hok' |]. split; [exact Hall |].
        intros m f v w' Hin Hf Hv Hw'. simpl in Hf. inversion Hf. subst f.
        rewrite Hw in Hw'. inversion Hw'. subst w'. exact (Hgood m v Hin Hv).
      * right. split; [exact Hr |]. right. exists m, first, v, w.
        repeat split; assumption.
    + exfalso. apply (Hall first); [left; reflexivity | exact Hw].
  - rewrite Hr. cbn [bind]. right. split; [reflexivity |]. left. exact Hex.
Qed.

Lemma check_groups_cases raw ties :
  (forall t g, In (t, g) ties -> g <> []) ->
  (check_groups raw ties = OK tt
   /\ forall t g, In (t, g) ties -> group_good raw g)
  \/ (check_groups raw ties = Raise ValueError
      /\ exists t g, In (t, g) ties /\ group_bad raw g).
Proof.
  induction ties as [|[t g] rest IH]; simpl; intros Hne.
  - left. split; [reflexivity | intros t g []].
  - destruct (check_group_cases raw g) as [[Hok Hgood] | [Hr Hbad]].
    + apply (Hne t). left. reflexivity.
    + rewrite Hok. simpl.
      destruct IH as [[Hok' Hall] | [Hr [t' [g' [Hin Hbad]]]]].
      * intros t' g' Hin. apply (Hne t'). right. exact Hin.
      * left. split; [exact Hok' |].
        intros t' g' [Heq | Hin]; [inversion Heq; subst; exact Hgood |
                                   exact (Hall t' g' Hin)].
      * right. split; [exact Hr |]. exists t', g'.
        split; [right; exact Hin | exact Hbad].
    + rewrite Hr. simpl. right. split; [reflexivity |].
      exists t, g. split; [left; reflexivity | exact Hbad].
Qed.

Lemma bad_group_iff raw ties :
  (exists t g, In (t, g) ties /\ group_bad raw g)
  <-> absent_member raw ties \/ unequal_member raw ties.
Proof.
  split.
  - intros [t [g [Hin [[m [Hm Hn]] | [m [f [v [w [Hm [Hf [Hv [Hw Hne]]]]]]]]]]]].
    + left. exists t, g, m. repeat split; assumption.
    + right. exists t, g, m, f, v, w. repeat split; assumption.
  - intros [[t [g [m [Hin [Hm Hn]]]]]
           | [t [g [m [f [v [w [Hin [Hm [Hf [Hv [Hw Hne]]]]]]]]]]]].
    + exists t, g. split; [exact Hin |]. left. exists m. split; assumption.
    + exists t, g. split; [exact Hin |]. right. exists m, f, v, w.
      repeat split; assumption.
Qed.

(** The check of any group: an empty group has no first member, and
    the read of it raises [IndexError]. *)
Lemma check_group_any raw raw_names :
  (raw_names <> [] /\ check_group raw raw_names = OK tt
   /\ group_good raw raw_names)
  \/ (raw_names <> [] /\ check_group raw raw_names = Raise ValueError
      /\ group_bad raw raw_names)
  \/ (raw_names = [] /\ check_group raw raw_names = Raise IndexError).
Proof.
  destruct raw_names as [|first rest].
  - right. right. split; reflexivity.
  - assert (Hne : first :: rest <> []) by discriminate.
    destruct (check_group_cases raw (first :: rest) Hne) as [[Hok Hg] | [Hr Hb]].
    + left. split; [exact Hne | split; [exact Hok | exact Hg]].
    + right. left. split; [exact Hne | split; [exact Hr | exact Hb]].
Qed.

(** The groups are checked in the order of the table, and the first
    one that is empty or bad ends the check. *)
Lemma check_groups_any raw ties :
  (check_groups raw ties = OK tt
   /\ forall t g, In (t, g) ties -> g <> [] /\ group_good raw g)
  \/ exists before t g after,
      ties = before ++ (t, g) :: after
      /\ (forall t' g', In (t', g') before -> g' <> [] /\ group_good raw g')
      /\ ((g = [] /\ check_groups raw ties = Raise IndexError)
          \/ (g <> [] /\ group_bad raw g
              /\ check_groups raw ties = Raise ValueError)).
Proof.
  induction ties as [|[t g] rest IH]; simpl.
  - left. split; [reflexivity | intros t g []].
  - destruct (check_group_any raw g)
      as [[Hne [Hok Hgood]] | [[Hne [Hr Hbad]] | [Hnil Hr]]].
    + rewrite Hok. cbn [bind].
      destruct IH as [[Hok' Hall]
                     | [before [t' [g' [after [Heq [Hbefore Hcase]]]]]]].
      * left. split; [exact Hok' |].
        intros t' g' [Heq | Hin];
          [inversion Heq; subst; split; assumption | exact (Hall t' g' Hin)].
      * right. exists ((t, g) :: before), t', g', after.
        split; [rewrite Heq; reflexivity |]. split.
        -- intros t0 g0 [Heq0 | Hin];
             [inversion Heq0; subst; split; assumption
             | exact (Hbefore t0 g0 Hin)].
        -- exact Hcase.
    + rewrite Hr. cbn [bind]. right. exists [], t, g, rest.
      split; [reflexivity |]. split; [intros t' g' [] |].
      right. split; [exact Hne | split; [exact Hbad | reflexivity]].
    + rewrite Hr. cbn [bind]. right. exists [], t, g, rest.
      split; [reflexivity |]. split; [intros t' g' [] |].
      left. split; [exact Hnil | reflexivity].
Qed.

(** The first group that is empty or bad is one group only. *)
Lemma first_offending_unique raw (before before' : tie_table)
      (t t' : string) (g g' : list string) (after after' : tie_table) :
  before ++ (t, g) :: after = before' ++ (t', g') :: after' ->
  (forall t0 g0, In (t0, g0) before -> g0 <> [] /\ group_good raw g0) ->
  (forall t0 g0, In (t0, g0) before' -> g0 <> [] /\ group_good raw g0) ->
  (g = [] \/ group_bad raw g) ->
  (g' = [] \/ group_bad raw g') ->
  g = g'.
Proof.
  revert before'. induction before as [|[t0 g0] before IH];
    intros [|[t1 g1] before'] Heq Hb Hb' Hg Hg'; simpl in Heq.
  - injection Heq as _ Hgeq _. exact Hgeq.
  - injection Heq as _ Hgeq _. exfalso. rewrite Hgeq in Hg.
    destruct (Hb' t1 g1 (or_introl eq_refl)) as [Hne Hgood].
    destruct Hg as [Hnil | Hbad]; [contradiction |].
    exact (group_good_not_bad raw g1 Hgood Hbad).
  - injection Heq as _ Hgeq _. exfalso. rewrite <- Hgeq in Hg'.
    destruct (Hb t0 g0 (or_introl eq_refl)) as [Hne Hgood].
    destruct Hg' as [Hnil | Hbad]; [contradiction |].
    exact (group_good_not_bad raw g0 Hgood Hbad).
  - injection Heq as _ _ Hrest.
    refine (IH before' Hrest _ _ Hg Hg').
    + intros t2 g2 Hin. apply (Hb t2 g2). right. exact Hin.
    + intros t2 g2 Hin. apply (Hb' t2 g2). right. exact Hin.
Qed.

(** The check is the first thing that a read of [parameters] does ... *)
Lemma parameters_checks_ties (scatterers : list (scatterer val)) ties :
  parameters (Scatterers scatterers ties)
  = (_ <- _check_ties scatterers ties ;;
     raw <- raw_parameters scatterers ;;
     collapse raw ties).
Proof. reflexivity. Qed.

(** ... and the last thing that [add_tie], the constructor and [add]
    do: when they return, the check has passed on the table they
    leave. *)
Lemma add_tie_checks_ties (scatterers : list (scatterer val)) ties
      (old_name new_name : string) :
  snd (add_tie scatterers ties old_name new_name) = OK tt ->
  _check_ties scatterers (fst (add_tie scatterers ties old_name new_name))
  = OK tt.
Proof.
  unfold add_tie.
  match goal with
  | |- context [match ?u with OK _ => _ | Raise _ => _ end] => destruct u
  end; simpl; [trivial | discriminate].
Qed.

Lemma init_checks_ties (scatterers : list (scatterer val)) ties :
  snd (init scatterers ties) = OK tt ->
  _check_ties scatterers (fst (init scatterers ties)) = OK tt.
Proof.
  unfold init. destruct (_find_new_ties scatterers ties) as [ties' [[]|e]];
    simpl; [trivial | discriminate].
Qed.

Lemma add_checks_ties (scatterers : list (scatterer val)) ties
      (s : scatterer val) :
  snd (add scatterers ties s) = OK tt ->
  _check_ties (fst (fst (add scatterers ties s)))
              (snd (fst (add scatterers ties s))) = OK tt.
Proof.
  unfold add. pose proof (init_checks_ties (scatterers ++ [s]) ties) as Hi.
  destruct (init (scatterers ++ [s]) ties) as [ties' r]. simpl in *. exact Hi.
Qed.
(** C2, as the code has it.  When the raw parameters cannot be read,
    [_check_ties] raises what the read raises.  Otherwise it raises
    exactly when some tie group is empty, or some member of some group
    is missing from the raw parameters, or has a value that is not
    equal to the value of the first member of its group; the first
    group of the table that is empty or has such a member decides the
    exception, [IndexError] for an empty group and [ValueError]
    otherwise; and when there is no such group the check returns.
    The check computes no new state: it reads the raw parameters and
    the tie table.  A read of [parameters] raises what the check
    raises; and when [add_tie], the constructor or [add] returns, the
    check has passed on the children and the table that the call
    leaves. *)
Theorem check_ties_raises_iff (scatterers : list (scatterer val)) ties :
  (forall e, raw_parameters scatterers = Raise e ->
             _check_ties scatterers ties = Raise e)
  /\ (forall raw,
         raw_parameters scatterers = OK raw ->
         (raises (_check_ties scatterers ties)
          <-> empty_group ties \/ absent_member raw ties
              \/ unequal_member raw ties)
         /\ (forall before t g after,
                ties = before ++ (t, g) :: after ->
                (forall t' g', In (t', g') before ->
                               g' <> [] /\ group_good raw g') ->
                (g = [] -> _check_ties scatterers ties = Raise IndexError)
                /\ (g <> [] -> group_bad raw g ->
                    _check_ties scatterers ties = Raise ValueError))
         /\ (forall e, _check_ties scatterers ties = Raise e ->
                       e = ValueError \/ e = IndexError)
         /\ (~ (empty_group ties \/ absent_member raw ties
                \/ unequal_member raw ties) ->
             _check_ties scatterers ties = OK tt))
  /\ (forall e, _check_ties scatterers ties = Raise e ->
                parameters (Scatterers scatterers ties) = Raise e)
  /\ (forall old_name new_name,
         snd (add_tie scatterers ties old_name new_name) = OK tt ->
         _check_ties scatterers
                     (fst (add_tie scatterers ties old_name new_name))
         = OK tt)
  /\ (snd (init scatterers ties) = OK tt ->
      _check_ties scatterers (fst (init scatterers ties)) = OK tt)
  /\ (forall s,
         snd (add scatterers ties s) = OK tt ->
         _check_ties (fst (fst (add scatterers ties s)))
                     (snd (fst (add scatterers ties s))) = OK tt).
Proof.
  split; [| split; [| split; [| split; [| split]]]].
  - intros e He. unfold _check_ties. rewrite He. reflexivity.
  - intros raw Hraw. unfold _check_ties. rewrite Hraw. cbn [bind].
    destruct (check_groups_any raw ties)
      as [[Hok Hall] | [before [t [g [after [Heq [Hbefore Hcase]]]]]]].
    + assert (Hnone : ~ (empty_group ties \/ absent_member raw ties
                         \/ unequal_member raw ties)).
      { intros [[t Hin] | Hbad].
        - destruct (Hall t [] Hin) as [Hne _]. apply Hne. reflexivity.
        - apply bad_group_iff in Hbad. destruct Hbad as [t [g [Hin Hb]]].
          exact (group_good_not_bad raw g (proj2 (Hall t g Hin)) Hb). }
      rewrite Hok. split; [split | split; [| split]].
      * intros [e He]. discriminate.
      * intros Hbad. contradiction.
      * intros before t g after Heq Hbefore. split.
        -- intros ->. exfalso.
           destruct (Hall t []) as [Hne _]; [| apply Hne; reflexivity].
           rewrite Heq. apply in_or_app. right. left. reflexivity.
        -- intros _ Hbad. exfalso.
           apply (group_good_not_bad raw g); [| exact Hbad].
           apply (proj2 (Hall t g
                           ltac:(rewrite Heq; apply in_or_app; right; left;
                                 reflexivity))).
      * intros e He. discriminate.
      * intros _. reflexivity.
    + assert (Hin : In (t, g) ties)
        by (rewrite Heq; apply in_or_app; right; left; reflexivity).
      assert (Hsome : empty_group ties \/ absent_member raw ties
                      \/ unequal_member raw ties).
      { destruct Hcase as [[-> _] | [_ [Hbad _]]].
        - left. exists t. exact Hin.
        - right. apply bad_group_iff. exists t, g. split; assumption. }
      assert (Hr : raises (check_groups raw ties)).
      { destruct Hcase as [[_ Hr] | [_ [_ Hr]]]; rewrite Hr; eexists;
          reflexivity. }
      split; [split; [intros _; exact Hsome | intros _; exact Hr] |].
      split; [| split].
      * intros before' t' g' after' Heq' Hbefore'.
        assert (Hsame : (g' = [] \/ group_bad raw g') -> g = g').
        { intros Hg'. apply (first_offending_unique raw before before' t t'
                               g g' after after');
            [rewrite <- Heq; exact Heq' | exact Hbefore | exact Hbefore'
            | | exact Hg'].
          destruct Hcase as [[-> _] | [_ [Hbad _]]];
            [left; reflexivity | right; exact Hbad]. }
        split.
        -- intros Hnil. pose proof (Hsame (or_introl Hnil)) as Hgg.
           destruct Hcase as [[_ Hr'] | [Hne _]];
             [exact Hr' | exfalso; apply Hne; rewrite Hgg; exact Hnil].
        -- intros Hne Hbad. pose proof (Hsame (or_intror Hbad)) as Hgg.
           destruct Hcase as [[Hnil _] | [_ [_ Hr']]];
             [exfalso; apply Hne; rewrite <- Hgg; exact Hnil | exact Hr'].
      * intros e He.
        destruct Hcase as [[_ Hr'] | [_ [_ Hr']]]; rewrite Hr' in He;
          inversion He; [right | left]; reflexivity.
      * intros Hnot. contradiction.
  - intros e He. rewrite parameters_checks_ties, He. reflexivity.
  - intros old_name new_name. apply add_tie_checks_ties.
  - apply init_checks_ties.
  - intros s. apply add_checks_ties.
Qed.
End Check.

(** The check on the two tied spheres with the table that the
    constructor makes for them. *)
Lemma check_ties_raises_iff_witness :
  _check_ties Sample.tied_spheres (fst (init Sample.tied_spheres [])) = OK tt.
Proof.
  apply (proj1 (proj2 (proj2 (proj2 (proj2
           (check_ties_raises_iff Sample.tied_spheres [])))))).
  vm_compute. reflexivity.
Defined.

(** A table with a group without members: the constructor of a
    composite without children raises [IndexError] on it, and no member
    is missing or unequal. *)
Lemma empty_group_raises :
  raw_parameters (val := Sample.object) [] = OK []
  /\ _check_ties (val := Sample.object) [] [("r", [])] = Raise IndexError
  /\ init (val := Sample.object) [] [("r", [])]
     = ([("r", [])], Raise IndexError)
  /\ ~ (absent_member (val := Sample.object) [] [("r", [])]
        \/ unequal_member (val := Sample.object) [] [("r", [])]).
Proof.
  split; [reflexivity |]. split; [reflexivity |]. split; [reflexivity |].
  intros [[t [g [m [Hin [Hm _]]]]] | [t [g [m [f [v [w [Hin [Hm _]]]]]]]]];
    destruct Hin as [Heq | []]; inversion Heq; subst; destruct Hm.
Qed.

(** C2 fails as stated: the check raises for a group without members,
    where no member is absent or unequal. *)
Lemma check_raises_for_empty_group : ~ check_raises_for_members_only.
Proof.
  intros Hspec.
  destruct empty_group_raises as [Hraw [Hcheck [_ Hnot]]].
  apply Hnot.
  apply (proj1 (Hspec Sample.object _ [] [("r", [])] [] Hraw)).
  exists IndexError. exact Hcheck.
Qed.

End TieFacts.


(** ** Reconstruction from a flat map *)

Module ReconstructionFacts.
Import Composite TieTerms.

Section Expand.
Context {val : Type}.
Implicit Types (np : dict string val) (ties : tie_table).

(** One round of the first loop of [from_parameters]. *)
Lemma expand_ties_cons (tg : string * list string) ties np :
  expand_ties (tg :: ties) np
  = expand_ties ties
      (match dict_get np (fst tg) with
       | Some tied_val =>
           dict_update np
             (dict_of_list (map (fun name => (name, tied_val)) (snd tg)))
       | None => np
       end).
Proof. reflexivity. Qed.

(** Names outside all groups keep what they had. *)
Lemma expand_ties_frame ties : forall np k,
  ~ In k (_all_ties ties) ->
  dict_get (expand_ties ties np) k = dict_get np k.
Proof.
  induction ties as [|[t g] rest IH]; intros np k Hk; [reflexivity |].
  rewrite expand_ties_cons. unfold _all_ties in *. simpl in Hk.
  rewrite IH by (intros Hin; apply Hk; apply in_or_app; right; exact Hin).
  simpl. destruct (dict_get np t) as [v|]; [| reflexivity].
  rewrite dict_get_update_const.
  destruct (mem k g) eqn:Hm; [| reflexivity].
  exfalso. apply Hk. apply in_or_app. left. apply mem_In. exact Hm.
Qed.

Lemma separate_not_member ties (k : string) :
  (forall tg', In tg' ties -> ~ In k (snd tg')) ->
  ~ In k (_all_ties ties).
Proof.
  intros Hall Hin. unfold _all_ties in Hin. apply in_concat in Hin.
  destruct Hin as [g [Hg Hk]]. apply in_map_iff in Hg.
  destruct Hg as [tg' [<- Htg']]. exact (Hall tg' Htg' Hk).
Qed.

(** With groups that are apart, every member of a group whose display
    name is a key of the argument ends with the value of that key. *)
Lemma expand_ties_members ties : forall np,
  separate ties ->
  forall t g v m,
    In (t, g) ties -> dict_get np t = Some v -> In m g ->
    dict_get (expand_ties ties np) m = Some v.
Proof.
  induction ties as [|[t0 g0] rest IH]; intros np Hsep t g v m Hin Ht Hm;
    [contradiction |].
  destruct Hsep as [Hapart Hsep]. rewrite expand_ties_cons.
  destruct Hin as [Heq | Hin].
  - inversion Heq. subst t0 g0. simpl. rewrite Ht.
    rewrite expand_ties_frame.
    + rewrite dict_get_update_const.
      rewrite (proj2 (mem_In m g) Hm). reflexivity.
    + apply separate_not_member. intros tg' Htg'.
      exact (proj1 (Hapart tg' Htg') m Hm).
  - apply (IH _ Hsep t g v m Hin); [| exact Hm].
    simpl. destruct (dict_get np t0) as [v0|]; [| exact Ht].
    rewrite dict_get_update_const.
    destruct (mem t g0) eqn:Hmem; [| exact Ht].
    exfalso. apply mem_In in Hmem.
    destruct (Hapart (t, g) Hin) as [_ [Hno _]]. exact (Hno Hmem).
Qed.
End Expand.

Section Frame.
Context {val : Type} {PV : PyValue val}.

(** The caller's dictionary after the call is the dictionary after the
    first loop, however the call ends. *)
Lemma from_parameters_arg_after (scatterers : list (scatterer val))
      (ties : tie_table) (np : dict string val) (overwrite : bool) :
  arg_after (from_parameters (Scatterers scatterers ties) np overwrite)
  = expand_ties ties np.
Proof.
  simpl.
  destruct (collect _ _) as [collected|e]; [| reflexivity].
  destruct (rebuild_children _ _ _) as [after [news|e]]; [| reflexivity].
  unfold _iteritems. simpl.
  destruct (init news ties) as [ties' [u|e]]; reflexivity.
Qed.

(** Induction on the tree of a scatterer. *)
Lemma scatterer_tree_ind (P : scatterer val -> Prop) :
  (forall pars, P (Prim pars)) ->
  (forall scatterers ties, Forall P scatterers -> P (Scatterers scatterers ties)) ->
  forall s, P s.
Proof.
  intros HPrim HComp.
  fix IH 1. intros [pars | scatterers ties].
  - apply HPrim.
  - apply HComp. induction scatterers as [|s rest IHrest].
    + constructor.
    + constructor; [apply IH | exact IHrest].
Qed.

Lemma rebuild_children_skeleton (rebuild : scatterer val -> dict string val -> outcome)
      (l : list (scatterer val)) :
  Forall (fun s => forall pars, skeleton (self_after (rebuild s pars)) = skeleton s) l ->
  forall cs, map skeleton (fst (rebuild_children rebuild l cs)) = map skeleton l.
Proof.
  induction 1 as [|s rest Hs Hrest IH]; intros cs; [destruct cs; reflexivity |].
  destruct cs as [|pars cs]; [reflexivity |]. simpl.
  destruct (returned (rebuild s pars)) as [s'|e].
  - specialize (IH cs). destruct (rebuild_children rebuild rest cs) as [after r].
    simpl in *. rewrite Hs, IH. reflexivity.
  - simpl. rewrite Hs. reflexivity.
Qed.

(** The call changes nothing of the receiver but tie tables. *)
Lemma from_parameters_skeleton (overwrite : bool) (s : scatterer val) :
  forall np, skeleton (self_after (from_parameters s np overwrite)) = skeleton s.
Proof.
  induction s as [pars | scatterers ties IH] using scatterer_tree_ind; intros np.
  - reflexivity.
  - simpl.
    destruct (collect _ _) as [collected|e]; [| reflexivity].
    pose proof (rebuild_children_skeleton
                  (fun scat pars => from_parameters scat pars overwrite)
                  scatterers IH collected) as Hsk.
    destruct (rebuild_children _ _ _) as [after [news|e]]; simpl in Hsk.
    + unfold _iteritems. simpl.
      destruct (init news ties) as [ties' [u|e]]; simpl; rewrite Hsk; reflexivity.
    + simpl. rewrite Hsk. reflexivity.
Qed.

(** C10, as the code has it.  [from_parameters] writes into the
    dictionary it is given: with tie groups that are apart, every
    member of every group whose display name is a key of the argument
    is, after the call, a key with the value that the argument had
    under the display name, and the names outside all groups keep
    what they had.  In the receiver nothing changes but tie tables:
    its tree of primitives is the same after the call. *)
Theorem from_parameters_effects (scatterers : list (scatterer val))
        (ties : tie_table) (np : dict string val) (overwrite : bool) :
  separate ties ->
  let o := from_parameters (Scatterers scatterers ties) np overwrite in
  (forall t g v m,
      In (t, g) ties -> dict_get np t = Some v -> In m g ->
      dict_get (arg_after o) m = Some v)
  /\ (forall k, ~ In k (_all_ties ties) ->
                dict_get (arg_after o) k = dict_get np k)
  /\ skeleton (self_after o) = skeleton (Scatterers scatterers ties).
Proof.
  intros Hsep o. unfold o. rewrite from_parameters_arg_after.
  split; [| split].
  - intros t g v m. apply expand_ties_members. exact Hsep.
  - intros k. apply expand_ties_frame.
  - apply from_parameters_skeleton.
Qed.
End Frame.

Lemma from_parameters_effects_witness :
  dict_get
    (arg_after (from_parameters (Scatterers Sample.tied_spheres Sample.tied_table)
                                [("n", Sample.num 40 1.5)] false))
    "1:n" = Some (Sample.num 40 1.5).
Proof.
  assert (Hsep : separate Sample.tied_table).
  { simpl. split; [intros tg' [] | exact I]. }
  apply (proj1 (from_parameters_effects Sample.tied_spheres Sample.tied_table
                  [("n", Sample.num 40 1.5)] false Hsep)
               "n" ["0:n"; "1:n"]).
  - left. reflexivity.
  - reflexivity.
  - right. left. reflexivity.
Defined.

(** The constructor accepts a table in which two groups hold the
    radius of the one ball; both display names are keys of the argument,
    and after the call the radius has the value of the second group,
    not that of the first. *)
Lemma overlapping_groups_last_wins :
  let np := [("a", Sample.num 1 5); ("b", Sample.num 2 7)] in
  let o := from_parameters Sample.overlapping np false in
  construct [Sample.ball (Sample.num 10 1)] [("a", ["0:r"]); ("b", ["0:r"])]
  = OK Sample.overlapping
  /\ dict_get np "a" = Some (Sample.num 1 5)
  /\ dict_get (arg_after o) "0:r" = Some (Sample.num 2 7).
Proof. vm_compute. repeat split. Qed.

(** C10 fails as stated: with two groups that share a member, the
    member does not end with the value of the first group. *)
Lemma from_parameters_overlapping_groups : ~ from_parameters_writes_ties_only.
Proof.
  intros Hspec.
  destruct (Hspec Sample.object _ [Sample.ball (Sample.num 10 1)]
                  [("a", ["0:r"]); ("b", ["0:r"])]
                  [("a", Sample.num 1 5); ("b", Sample.num 2 7)] false)
    as [Hwrite _].
  specialize (Hwrite "a" ["0:r"] (Sample.num 1 5) "0:r"
                     (or_introl eq_refl) eq_refl (or_introl eq_refl)).
  vm_compute in Hwrite. discriminate.
Qed.

(** The tie table of the receiver is the table of the object that is
    returned, and the discovery of ties in that object writes into it.
    Two balls with priors of their own make a composite with an empty
    tie table; when one prior is supplied for both radii, the table of
    the receiver has the group of the two radii after the call. *)
Lemma from_parameters_changes_tie_table :
  let c := Sample.untied_pair in
  let o := from_parameters c [("0:r", Sample.prior_X); ("1:r", Sample.prior_X)]
                           false in
  c = Scatterers [Sample.ball Sample.prior_R; Sample.ball Sample.prior_P] []
  /\ self_after o
     = Scatterers [Sample.ball Sample.prior_R; Sample.ball Sample.prior_P]
                  [("r", ["0:r"; "1:r"])]
  /\ self_after o <> c.
Proof.
  vm_compute. repeat split. discriminate.
Qed.

(** *** The round trip *)

(** The model of [from_parameters] for a primitive agrees with
    [test_from_parameters]. *)
Example prim_from_parameters_test :
  Sample.same_values (prim_from_parameters Sample.s_prior [] false)
                     (Sample.sphere_with 1.6 0.6) = true
  /\ Sample.same_values
       (prim_from_parameters Sample.s_prior Sample.pars_n_r false)
       (Sample.sphere_with 1.6 0.7) = true
  /\ Sample.same_values
       (prim_from_parameters Sample.s_prior Sample.pars_n_r true)
       (Sample.sphere_with 1.7 0.7) = true.
Proof. vm_compute. repeat split. Qed.

(** The round trip on the two tied spheres gives the flat view back. *)
Lemma round_trip_tied_spheres :
  round_trip (Sample.composite_of Sample.tied_spheres)
  = parameters (Sample.composite_of Sample.tied_spheres).
Proof. vm_compute. reflexivity. Qed.

Section BadKey.
Context {val : Type} {PV : PyValue val}.
Implicit Types (np : dict string val) (ties : tie_table).

Lemma dict_update_keys (e : dict string val) : forall d k,
  In k (dict_keys d) -> In k (dict_keys (dict_update d e)).
Proof.
  induction e as [|[k0 v0] e IH]; intros d k Hin; [exact Hin |].
  unfold dict_update in *. simpl. apply IH. apply dict_keys_set. right. exact Hin.
Qed.

(** The first loop of [from_parameters] removes no key. *)
Lemma expand_ties_keys ties : forall np k,
  In k (dict_keys np) -> In k (dict_keys (expand_ties ties np)).
Proof.
  induction ties as [|[t g] rest IH]; intros np k Hin; [exact Hin |].
  rewrite expand_ties_cons. apply IH. simpl.
  destruct (dict_get np t); [apply dict_update_keys |]; exact Hin.
Qed.

Lemma py_index_length {A : Type} (l l' : list A) (z : Z) :
  length l = length l' -> py_index l z = py_index l' z.
Proof. intros Hlen. unfold py_index. rewrite Hlen. reflexivity. Qed.

Lemma list_alter_length {A : Type} (f : A -> A) (l : list A) :
  forall i, length (list_alter f i l) = length l.
Proof.
  induction l as [|x l IH]; intros [|i]; simpl; try reflexivity.
  rewrite IH. reflexivity.
Qed.

Lemma collect_entry_length (collected collected' : list (dict string val))
      (kv : string * val) :
  collect_entry collected kv = OK collected' ->
  length collected' = length collected.
Proof.
  unfold collect_entry.
  destruct (split1 (fst kv)) as [|index [|par [|x l]]];
    try (intros Heq; inversion Heq; reflexivity).
  destruct (py_int index) as [n|e]; simpl; [| discriminate].
  match goal with
  | |- context [@py_index ?A ?c ?z] => destruct (@py_index A c z) as [i|e]
  end; simpl; [| discriminate].
  intros Heq. inversion Heq. apply list_alter_length.
Qed.

Lemma collect_entry_bad (n : nat) (collected : list (dict string val))
      (kv : string * val) :
  length collected = n ->
  no_child_index (val := val) n (fst kv) ->
  raises (collect_entry collected kv).
Proof.
  intros Hlen [_ [index [rest [Hsplit Hbad]]]]. unfold collect_entry.
  rewrite Hsplit. destruct (py_int index) as [z|e] eqn:Hint; simpl.
  - assert (Hout : @py_index pdict collected z = Raise IndexError).
    { rewrite <- (Hbad z eq_refl). apply py_index_length.
      rewrite repeat_length. exact Hlen. }
    rewrite Hout. simpl. exists IndexError. reflexivity.
  - exists e. reflexivity.
Qed.

(** The second loop raises as soon as one key has no child index. *)
Lemma collect_bad (n : nat) (items : dict string val) :
  forall collected,
    length collected = n ->
    (exists key, In key (dict_keys items) /\ no_child_index (val := val) n key) ->
    raises (collect collected items).
Proof.
  induction items as [|kv rest IH]; intros collected Hlen [key [Hin Hbad]];
    [destruct Hin |].
  simpl. destruct (collect_entry collected kv) as [collected'|e] eqn:Hentry.
  - simpl. apply IH.
    + etransitivity; [apply (collect_entry_length _ _ _ Hentry) | exact Hlen].
    + destruct Hin as [Heq | Hin].
      * exfalso. subst key.
        destruct (collect_entry_bad n collected kv Hlen Hbad) as [e He].
        congruence.
      * exists key. split; assumption.
  - exists e. reflexivity.
Qed.

(** [from_parameters] raises for every argument with a key whose
    leading text is not the index of a child. *)
Lemma from_parameters_raises_on_key (scatterers : list (scatterer val))
      ties np (overwrite : bool) (key : string) :
  In key (dict_keys np) ->
  no_child_index (val := val) (length scatterers) key ->
  raises (returned (from_parameters (Scatterers scatterers ties) np overwrite)).
Proof.
  intros Hin Hbad. simpl.
  destruct (collect_bad (length scatterers) (expand_ties ties np)
              (repeat [] (length scatterers)) (repeat_length _ _)) as [e He].
  - exists key. split; [apply expand_ties_keys; exact Hin | exact Hbad].
  - rewrite He. exists e. reflexivity.
Qed.
End BadKey.

(** C1.  The claim is that reconstruction from the flat view gives the
    flat view back.  The code does otherwise for a composite of two
    composites of three balls whose last balls share a prior: the
    constructor accepts it and names the tie "2:r", after the raw name
    "0:2:r"; [parameters] returns the flat view with the key "2:r"; and
    [from_parameters], given this view, takes "2" for the index of a
    child, of which there are two, and raises [IndexError]. *)
Theorem round_trip_raises_on_nested_tie :
  construct [Sample.triple Sample.prior_R; Sample.triple Sample.prior_R] []
  = OK Sample.nested_pair
  /\ (exists children, Sample.nested_pair
                       = Scatterers children [("2:r", ["0:2:r"; "1:2:r"])]
                       /\ length children = 2)
  /\ parameters Sample.nested_pair
     = OK [("0:0:r", Sample.num 10 1); ("0:1:r", Sample.num 11 1);
           ("1:0:r", Sample.num 10 1); ("1:1:r", Sample.num 11 1);
           ("2:r", Sample.prior_R)]
  /\ round_trip Sample.nested_pair = Raise IndexError.
Proof.
  split; [vm_compute; reflexivity |].
  split; [eexists; split; vm_compute; reflexivity |].
  split; vm_compute; reflexivity.
Qed.

End ReconstructionFacts.


(** ** Discovery of ties *)

Module DiscoveryFacts.
Import Composite TieTerms.

Section Sound.
Context {val : Type} {PV : PyValue val}.
Implicit Types (ties : tie_table) (raw items : dict string val).








(** *** The flat view *)

Lemma tied_entries raw ties : forall tied,
  mapM (fun tg => first <- first_name (snd tg) ;;
                  v <- dict_item raw first ;;
                  OK (fst tg, v)) ties = OK tied ->
  map fst tied = map fst ties
  /\ forall t g, In (t, g) ties ->
                 exists first v, hd_error g = Some first
                                 /\ dict_get raw first = Some v
                                 /\ In (t, v) tied.
Proof.
  induction ties as [|[t0 g0] rest IH]; simpl; intros tied Hm.
  - inversion Hm. split; [reflexivity | intros t g []].
  - destruct g0 as [|first0 g0']; simpl in Hm; [discriminate |].
    unfold dict_item in Hm.
    destruct (dict_get raw first0) as [v0|] eqn:Hv0; simpl in Hm; [| discriminate].
    destruct (mapM _ rest) as [tied'|e]; simpl in Hm; [| discriminate].
    inversion Hm. subst tied. destruct (IH tied' eq_refl) as [Hkeys Hall].
    split; [simpl; rewrite Hkeys; reflexivity |].
    intros t g [Heq | Hin].
    + inversion Heq. subst. exists first0, v0.
      split; [reflexivity | split; [exact Hv0 | left; reflexivity]].
    + destruct (Hall t g Hin) as [f [v [Hf [Hv Ht]]]].
      exists f, v. split; [exact Hf | split; [exact Hv | right; exact Ht]].
Qed.

(** In the flat view every group is one entry, under its display name
    and with the value of its first member; the members of the groups
    are not keys of the view (unless they are display names), and the
    entries outside the groups are those of the raw parameters. *)
Lemma collapse_view raw ties flat :
  NoDup (dict_keys ties) ->
  collapse raw ties = OK flat ->
  (forall t g, In (t, g) ties ->
               exists first v, hd_error g = Some first
                               /\ dict_get raw first = Some v
                               /\ dict_get flat t = Some v)
  /\ (forall m, In m (_all_ties ties) -> ~ In m (dict_keys ties) ->
                dict_get flat m = None)
  /\ (forall k, ~ In k (_all_ties ties) -> ~ In k (dict_keys ties) ->
                dict_get flat k = dict_get raw k).
Proof.
  intros Hnd. unfold collapse.
  destruct (mapM _ ties) as [tied|e] eqn:Hm; simpl; [| discriminate].
  intros Heq. inversion Heq. subst flat. clear Heq.
  destruct (tied_entries raw ties tied Hm) as [Hkeys Hall].
  assert (Hndt : NoDup (map fst tied)) by (rewrite Hkeys; exact Hnd).
  assert (Hget : forall k,
             dict_get (dict_update
                         (filter (fun kv => negb (mem (fst kv) (_all_ties ties))) raw)
                         (dict_of_list tied)) k
             = match dict_get tied k with
               | Some v => Some v
               | None => if negb (mem k (_all_ties ties))
                         then dict_get raw k else None
               end).
  { intros k. rewrite dict_get_update_dict by apply dict_of_list_NoDup.
    rewrite dict_get_of_list by exact Hndt.
    rewrite (dict_get_filter (fun k => negb (mem k (_all_ties ties)))).
    reflexivity. }
  split; [| split].
  - intros t g Hin. destruct (Hall t g Hin) as [f [v [Hf [Hv Ht]]]].
    exists f, v. split; [exact Hf | split; [exact Hv |]].
    rewrite Hget. rewrite (dict_get_NoDup tied t v Hndt Ht). reflexivity.
  - intros m Hin Hnk. rewrite Hget.
    assert (Hnone : dict_get tied m = None).
    { apply dict_get_None. unfold dict_keys. rewrite Hkeys. exact Hnk. }
    rewrite Hnone. rewrite (proj2 (mem_In m (_all_ties ties)) Hin). reflexivity.
  - intros k Hnin Hnk. rewrite Hget.
    assert (Hnone : dict_get tied k = None).
    { apply dict_get_None. unfold dict_keys. rewrite Hkeys. exact Hnk. }
    rewrite Hnone. rewrite (proj2 (mem_not_In k (_all_ties ties)) Hnin).
    reflexivity.
Qed.

Lemma parameters_collapse (scatterers : list (scatterer val)) ties raw flat :
  raw_parameters scatterers = OK raw ->
  parameters (Scatterers scatterers ties) = OK flat ->
  collapse raw ties = OK flat.
Proof.
  intros Hraw. simpl. fold (raw_parameters scatterers). rewrite Hraw. simpl.
  destruct (check_groups raw ties); simpl; [trivial | discriminate].
Qed.

End Sound.

(** The two tied spheres: the shared index is one group, called [n],
    and is one entry of [parameters]; the two radii, equal priors made
    separately, stay two entries. *)
Lemma tied_spheres_one_entry :
  init Sample.tied_spheres [] = ([("n", ["0:n"; "1:n"])], OK tt)
  /\ option_map (@length _)
       (match parameters (Sample.composite_of Sample.tied_spheres) with
        | OK flat => Some flat
        | Raise _ => None
        end) = Some 9
  /\ (exists flat,
         parameters (Sample.composite_of Sample.tied_spheres) = OK flat
         /\ dict_get flat "n" = Some Sample.n1
         /\ dict_get flat "0:n" = None /\ dict_get flat "1:n" = None
         /\ dict_mem flat "0:r" = true /\ dict_mem flat "1:r" = true).
Proof.
  split; [vm_compute; reflexivity |]. split; [vm_compute; reflexivity |].
  eexists. split; [vm_compute; reflexivity |].
  repeat split.
Qed.



(** A slip in [add_tie] shows for three balls that share the prior X
    with, between the second and the third, two one-ball composites that
    share the prior R, where X and R are equal priors made separately.
    The group of R is named "0:r", after the raw name "2:0:r"; when the
    third ball "4:r" is visited its alias is "0:r", which [add_tie] takes
    for the name of that group.  So "4:r" is tied with "2:0:r", which
    holds another object, and not with "0:r", which holds the same
    object. *)
Lemma discovery_ties_different_objects :
  let ties := [("r", ["0:r"; "1:r"]); ("0:r", ["2:0:r"; "3:0:r"; "4:r"])] in
  let raw := [("0:r", Sample.prior_X); ("1:r", Sample.prior_X);
              ("2:0:r", Sample.prior_R); ("3:0:r", Sample.prior_R);
              ("4:r", Sample.prior_X)] in
  raw_parameters Sample.mixed_children = OK raw
  /\ construct Sample.mixed_children []
     = OK (Scatterers Sample.mixed_children ties)
  /\ (tied_together ties "4:r" "2:0:r" /\ ~ aliased raw "4:r" "2:0:r")
  /\ (aliased raw "0:r" "4:r" /\ ~ tied_together ties "0:r" "4:r").
Proof.
  intros ties raw.
  split; [vm_compute; reflexivity |]. split; [vm_compute; reflexivity |].
  split; split.
  - exists "0:r", ["2:0:r"; "3:0:r"; "4:r"]. simpl. tauto.
  - intros [v [w [Hv [Hw [His _]]]]]. vm_compute in Hv, Hw.
    inversion Hv. inversion Hw. subst. vm_compute in His. discriminate.
  - exists Sample.prior_X, Sample.prior_X. repeat split.
  - intros [t [g [Hin [Ha Hb]]]].
    destruct Hin as [Heq | [Heq | []]]; inversion Heq; subst; simpl in Ha, Hb.
    + destruct Hb as [Hb | [Hb | []]]; discriminate.
    + destruct Ha as [Ha | [Ha | [Ha | []]]]; discriminate.
Qed.

End DiscoveryFacts.


(** ** The names of the raw parameters *)

Module NamespaceFacts.
Import Composite.

Lemma split_colon_digits (d : Decimal.uint) (key : string) :
  split_colon (NilEmpty.string_of_uint d ++ String ":" key)%string
  = Some (NilEmpty.string_of_uint d, key).
Proof.
  induction d; cbn [NilEmpty.string_of_uint String.append split_colon];
    try rewrite IHd; reflexivity.
Qed.

Lemma lstrip_digits (d : Decimal.uint) :
  lstrip (NilEmpty.string_of_uint d) = NilEmpty.string_of_uint d.
Proof. destruct d; reflexivity. Qed.

Lemma rstrip_digits (d : Decimal.uint) :
  rstrip (NilEmpty.string_of_uint d) = NilEmpty.string_of_uint d.
Proof.
  induction d; cbn [NilEmpty.string_of_uint rstrip]; try reflexivity;
    rewrite IHd; destruct (NilEmpty.string_of_uint d); reflexivity.
Qed.

Ltac digit_step IHd acc k :=
  cbn [NilEmpty.string_of_uint digits_value];
  match goal with
  | |- context [digit_of ?c] =>
      let v := eval vm_compute in (digit_of c) in
      change (digit_of c) with v
  end;
  cbn iota beta;
  match goal with
  | |- digits_value ?z _ _ = _ =>
      replace z with (Z.of_nat (k + 10 * acc)) by lia
  end;
  rewrite IHd by (right; reflexivity);
  cbn [Nat.of_uint_acc]; rewrite Nat.tail_mul_spec; reflexivity.

Lemma digits_value_digits (d : Decimal.uint) :
  forall (acc : nat) (after_sep : bool),
    d <> Decimal.Nil \/ after_sep = false ->
    digits_value (Z.of_nat acc) after_sep (NilEmpty.string_of_uint d)
    = Some (Z.of_nat (Nat.of_uint_acc d acc)).
Proof.
  induction d; intros acc after_sep Hok.
  - destruct Hok as [Hn | ->]; [contradiction | reflexivity].
  - digit_step IHd acc 0.
  - digit_step IHd acc 1.
  - digit_step IHd acc 2.
  - digit_step IHd acc 3.
  - digit_step IHd acc 4.
  - digit_step IHd acc 5.
  - digit_step IHd acc 6.
  - digit_step IHd acc 7.
  - digit_step IHd acc 8.
  - digit_step IHd acc 9.
Qed.

Lemma to_uint_not_Nil (n : nat) : Nat.to_uint n <> Decimal.Nil.
Proof.
  intros Hnil. pose proof (DecimalNat.Unsigned.to_of (Nat.to_uint n)) as Hto.
  rewrite DecimalNat.Unsigned.of_to in Hto. rewrite Hnil in Hto at 2.
  simpl in Hto. rewrite Hnil in Hto. discriminate.
Qed.

Lemma str_of_nat_digits (n : nat) :
  str_of_nat n = NilEmpty.string_of_uint (Nat.to_uint n).
Proof.
  unfold str_of_nat, NilZero.string_of_uint.
  destruct (Nat.to_uint n) eqn:Hn; try reflexivity.
  exfalso. exact (to_uint_not_Nil n Hn).
Qed.

(** A positive integer text is read back as the number. *)
Lemma py_int_str_of_nat (n : nat) : py_int (str_of_nat n) = OK (Z.of_nat n).
Proof.
  rewrite str_of_nat_digits. unfold py_int.
  rewrite lstrip_digits, rstrip_digits.
  assert (Hd : digits_value 0 true (NilEmpty.string_of_uint (Nat.to_uint n))
               = Some (Z.of_nat n)).
  { change 0%Z with (Z.of_nat 0).
    rewrite digits_value_digits by (left; apply to_uint_not_Nil).
    change (Nat.of_uint_acc (Nat.to_uint n) 0) with (Nat.of_uint (Nat.to_uint n)).
    rewrite DecimalNat.Unsigned.of_to. reflexivity. }
  pose proof (to_uint_not_Nil n) as Hnn.
  destruct (Nat.to_uint n); try contradiction;
    cbn [NilEmpty.string_of_uint] in *; cbv zeta; rewrite Hd; reflexivity.
Qed.

(** X1.  The name of a raw parameter is taken apart as it was put
    together: [split(':', 1)] gives the text of the index and the name
    of the child's parameter, whatever colons that name has, and [int]
    gives the index back. *)
Theorem prefixed_round_trip (i : nat) (key : string) :
  split1 (prefixed i key) = [str_of_nat i; key]
  /\ py_int (str_of_nat i) = OK (Z.of_nat i).
Proof.
  split; [| apply py_int_str_of_nat].
  unfold split1, prefixed. rewrite str_of_nat_digits.
  change (":" ++ key)%string with (String ":" key).
  rewrite split_colon_digits. reflexivity.
Qed.

Lemma split1_prefixed (i : nat) (key : string) :
  split1 (prefixed i key) = [str_of_nat i; key].
Proof.
  unfold split1, prefixed. rewrite str_of_nat_digits.
  change (":" ++ key)%string with (String ":" key).
  rewrite split_colon_digits. reflexivity.
Qed.

(** Distinct children and distinct names give distinct raw names. *)
Lemma prefixed_inj (i j : nat) (k k' : string) :
  prefixed i k = prefixed j k' -> i = j /\ k = k'.
Proof.
  intros Heq. pose proof (split1_prefixed i k) as Hi.
  rewrite Heq, split1_prefixed in Hi. inversion Hi as [[Hs Hk]].
  split; [| reflexivity].
  pose proof (py_int_str_of_nat i) as Hpi. rewrite <- Hs, py_int_str_of_nat in Hpi.
  inversion Hpi. lia.
Qed.

End NamespaceFacts.


(** ** Raw parameters and their partition *)

Module FlatFacts.
Import Composite TieTerms MoreTerms NamespaceFacts ReconstructionFacts.

Section DictAppend.
Context {K : Type} `{EqDec K} {V : Type}.
Implicit Types (d e : dict K V).

Lemma dict_set_new d (k : K) (v : V) :
  ~ In k (dict_keys d) -> dict_set d k v = d ++ [(k, v)].
Proof.
  induction d as [|[k0 v0] d IH]; simpl; intros Hnin; [reflexivity |].
  destruct (eq_dec k k0) as [->|Hne]; [exfalso; apply Hnin; left; reflexivity |].
  rewrite IH; [reflexivity |]. intros Hin. apply Hnin. right. exact Hin.
Qed.

Lemma dict_update_append e : forall d,
  NoDup (dict_keys e) ->
  (forall k, In k (dict_keys e) -> ~ In k (dict_keys d)) ->
  dict_update d e = d ++ e.
Proof.
  induction e as [|[k v] e IH]; intros d Hnd Hdis.
  - rewrite app_nil_r. reflexivity.
  - unfold dict_update in *. simpl. inversion Hnd as [|x l Hnotin Hnd']. subst.
    rewrite dict_set_new by (apply Hdis; left; reflexivity).
    rewrite IH.
    + rewrite <- app_assoc. reflexivity.
    + exact Hnd'.
    + intros k' Hin Hin'. unfold dict_keys in Hin'. rewrite map_app in Hin'.
      apply in_app_or in Hin'. destruct Hin' as [Hd | [<- | []]].
      * exact (Hdis k' (or_intror Hin) Hd).
      * exact (Hnotin Hin).
Qed.

Lemma dict_of_list_id (l : list (K * V)) :
  NoDup (map fst l) -> dict_of_list l = l.
Proof.
  intros Hnd. unfold dict_of_list. rewrite dict_update_append.
  - reflexivity.
  - exact Hnd.
  - intros k _ [].
Qed.
End DictAppend.

Lemma distinct_NoDup (l : list string) : distinct l = true -> NoDup l.
Proof.
  induction l as [|x l IH]; simpl; intros Hd; [constructor |].
  apply andb_true_iff in Hd. destruct Hd as [Hx Hl].
  constructor; [| exact (IH Hl)].
  apply mem_not_In. apply negb_true_iff. exact Hx.
Qed.

Lemma all_distinct {val : Type} (ps : list (dict string val)) :
  forallb (fun p => distinct (dict_keys p)) ps = true ->
  forall p, In p ps -> NoDup (dict_keys p).
Proof.
  intros Hall p Hin. apply distinct_NoDup.
  rewrite forallb_forall in Hall. exact (Hall p Hin).
Qed.

Section Raw.
Context {val : Type} {PV : PyValue val}.
Implicit Types (p : dict string val) (ps : list (dict string val)).

Lemma under_keys (i : nat) p (key : string) :
  In key (dict_keys (under i p)) <->
  exists k, In k (dict_keys p) /\ key = prefixed i k.
Proof.
  unfold under, dict_keys. rewrite map_map. simpl. rewrite in_map_iff. split.
  - intros [[k v] [Heq Hin]]. exists k. split; [| symmetry; exact Heq].
    apply in_map_iff. exists (k, v). split; [reflexivity | exact Hin].
  - intros [k [Hin ->]]. apply in_map_iff in Hin.
    destruct Hin as [[k' v] [Heq Hin]]. simpl in Heq. subst k'.
    exists (k, v). split; [reflexivity | exact Hin].
Qed.

Lemma under_NoDup (i : nat) p :
  NoDup (dict_keys p) -> NoDup (dict_keys (under i p)).
Proof.
  unfold under, dict_keys. rewrite map_map. simpl.
  induction p as [|[k v] p IH]; simpl; intros Hnd; [constructor |].
  inversion Hnd as [|x l Hnotin Hnd']. subst. constructor; [| exact (IH Hnd')].
  intros Hin. apply in_map_iff in Hin. destruct Hin as [[k' v'] [Heq Hin]].
  apply prefixed_inj in Heq. destruct Heq as [_ Heq]. simpl in Heq. subst k'.
  apply Hnotin. apply in_map_iff. exists (k, v'). split; [reflexivity | exact Hin].
Qed.

Lemma dict_get_under (i j : nat) p (k : string) :
  dict_get (under j p) (prefixed i k)
  = if Nat.eq_dec i j then dict_get p k else None.
Proof.
  unfold under. induction p as [|[k0 v0] p IH]; simpl.
  - destruct (Nat.eq_dec i j); reflexivity.
  - destruct (eq_dec (prefixed i k) (prefixed j k0)) as [Heq | Hne].
    + apply prefixed_inj in Heq. destruct Heq as [-> ->].
      destruct (Nat.eq_dec j j); [| congruence].
      destruct (eq_dec k0 k0); [reflexivity | congruence].
    + rewrite IH. destruct (Nat.eq_dec i j) as [-> | Hij]; [| reflexivity].
      destruct (eq_dec k k0) as [-> | Hk]; [congruence | reflexivity].
Qed.

Lemma namespaced_keys ps : forall (i : nat) (key : string),
  In key (dict_keys (namespaced_from i ps)) ->
  exists j p k, nth_error ps j = Some p /\ In k (dict_keys p)
                /\ key = prefixed (i + j) k.
Proof.
  induction ps as [|p ps IH]; intros i key Hin; [destruct Hin |].
  simpl in Hin. unfold dict_keys in Hin. rewrite map_app in Hin.
  apply in_app_or in Hin. destruct Hin as [Hin | Hin].
  - apply under_keys in Hin. destruct Hin as [k [Hk ->]].
    exists 0, p, k. rewrite Nat.add_0_r. repeat split. exact Hk.
  - destruct (IH (S i) key Hin) as [j [q [k [Hnth [Hk ->]]]]].
    exists (S j), q, k. repeat split; try assumption.
    f_equal. lia.
Qed.

Lemma dict_get_namespaced ps : forall (i j : nat) p (k : string),
  nth_error ps j = Some p ->
  dict_get (namespaced_from i ps) (prefixed (i + j) k) = dict_get p k.
Proof.
  induction ps as [|q ps IH]; intros i j p k Hnth; [destruct j; discriminate |].
  simpl. rewrite dict_get_app, dict_get_under.
  destruct j as [|j]; simpl in Hnth.
  - inversion Hnth. subst q. rewrite Nat.add_0_r.
    destruct (Nat.eq_dec i i); [| congruence].
    destruct (dict_get p k) eqn:Hg; [reflexivity |].
    apply dict_get_None. intros Hin.
    destruct (namespaced_keys ps (S i) _ Hin) as [j' [q' [k' [_ [_ Heq]]]]].
    apply prefixed_inj in Heq. lia.
  - destruct (Nat.eq_dec (i + S j) i); [lia |].
    replace (i + S j) with (S i + j) by lia. apply IH. exact Hnth.
Qed.

(** The loop of [raw_parameters] over children that all give their
    parameters. *)
Lemma raw_loop ps : forall (i : nat) (acc : dict string val),
  (forall p, In p ps -> NoDup (dict_keys p)) ->
  (forall key, In key (dict_keys acc) ->
               exists j k, j < i /\ key = prefixed j k) ->
  fold_left
    (fun acc ic =>
       parameters <- acc ;;
       child <- snd ic ;;
       OK (dict_update parameters
             (dict_of_list
                (map (fun kv => (prefixed (fst ic) (fst kv), snd kv)) child))))
    (enumerate_from i (map (@OK (dict string val)) ps)) (OK acc)
  = OK (acc ++ namespaced_from i ps).
Proof.
  induction ps as [|p ps IH]; intros i acc Hnd Hacc; simpl.
  - rewrite app_nil_r. reflexivity.
  - fold (under i p).
    assert (Hu : NoDup (dict_keys (under i p))).
    { apply under_NoDup. apply Hnd. left. reflexivity. }
    rewrite dict_of_list_id by exact Hu.
    rewrite dict_update_append.
    + rewrite IH.
      * rewrite <- app_assoc. reflexivity.
      * intros q Hq. apply Hnd. right. exact Hq.
      * intros key Hin. unfold dict_keys in Hin. rewrite map_app in Hin.
        apply in_app_or in Hin. destruct Hin as [Hin | Hin].
        -- destruct (Hacc key Hin) as [j [k [Hlt ->]]].
           exists j, k. split; [lia | reflexivity].
        -- apply under_keys in Hin. destruct Hin as [k [_ ->]].
           exists i, k. split; [lia | reflexivity].
    + exact Hu.
    + intros key Hin Hin'. apply under_keys in Hin. destruct Hin as [k [_ ->]].
      destruct (Hacc _ Hin') as [j [k' [Hlt Heq]]].
      apply prefixed_inj in Heq. lia.
Qed.

Lemma raw_parameters_namespaced (scatterers : list (scatterer val)) ps :
  map parameters scatterers = map (@OK (dict string val)) ps ->
  (forall p, In p ps -> NoDup (dict_keys p)) ->
  raw_parameters scatterers = OK (namespaced_from 0 ps).
Proof.
  intros Hps Hnd. unfold raw_parameters, raw_from. rewrite Hps.
  refine (raw_loop ps 0 [] Hnd _). intros key [].
Qed.

(** X2.  When all children give their parameters, [raw_parameters]
    holds the entry [k] of child [i] under the name "i:k", with the
    same value, and holds nothing else; the entries come child after
    child, in the order of the children's own entries. *)
Theorem raw_parameters_entries (scatterers : list (scatterer val)) ps :
  map parameters scatterers = map (@OK (dict string val)) ps ->
  (forall p, In p ps -> NoDup (dict_keys p)) ->
  raw_parameters scatterers = OK (namespaced_from 0 ps)
  /\ (forall i p k, nth_error ps i = Some p ->
                    dict_get (namespaced_from 0 ps) (prefixed i k)
                    = dict_get p k)
  /\ (forall key, In key (dict_keys (namespaced_from 0 ps)) ->
                  exists i p k, nth_error ps i = Some p
                                /\ In k (dict_keys p) /\ key = prefixed i k).
Proof.
  intros Hps Hnd. split; [| split].
  - apply raw_parameters_namespaced; assumption.
  - intros i p k Hnth. apply (dict_get_namespaced ps 0 i p k Hnth).
  - intros key Hin. apply (namespaced_keys ps 0 key Hin).
Qed.
End Raw.

Section Partition.
Context {val : Type} {PV : PyValue val}.
Implicit Types (p : dict string val) (ps : list (dict string val)).

Lemma py_index_of_nat {A : Type} (l : list A) (i : nat) :
  i < length l -> py_index l (Z.of_nat i) = OK i.
Proof.
  intros Hlt. unfold py_index.
  assert (H0 : (0 <=? Z.of_nat i)%Z = true) by (apply Z.leb_le; lia).
  assert (H1 : (Z.of_nat i <? Z.of_nat (length l))%Z = true)
    by (apply Z.ltb_lt; lia).
  cbv zeta. rewrite H0, H1. simpl. rewrite Nat2Z.id. reflexivity.
Qed.

Lemma list_alter_twice {A : Type} (f g : A -> A) (l : list A) : forall i,
  list_alter g i (list_alter f i l) = list_alter (fun x => g (f x)) i l.
Proof.
  induction l as [|x l IH]; intros [|i]; simpl; try reflexivity.
  rewrite IH. reflexivity.
Qed.

Lemma list_alter_ext {A : Type} (f g : A -> A) (l : list A) :
  (forall x, f x = g x) -> forall i, list_alter f i l = list_alter g i l.
Proof.
  intros Hfg. induction l as [|x l IH]; intros [|i]; simpl; try reflexivity.
  - rewrite Hfg. reflexivity.
  - rewrite IH. reflexivity.
Qed.

Lemma list_alter_middle {A : Type} (f : A -> A) (pre : list A) (x : A)
      (post : list A) :
  list_alter f (length pre) (pre ++ x :: post) = pre ++ f x :: post.
Proof.
  induction pre as [|y pre IH]; simpl; [reflexivity |].
  rewrite IH. reflexivity.
Qed.

Lemma collect_entry_prefixed (collected : list (dict string val))
      (i : nat) (k : string) (v : val) :
  i < length collected ->
  collect_entry collected (prefixed i k, v)
  = OK (list_alter (fun d => dict_set d k v) i collected).
Proof.
  intros Hlt. unfold collect_entry. simpl fst. rewrite split1_prefixed.
  rewrite py_int_str_of_nat. simpl.
  assert (Hidx : @py_index pdict collected (Z.of_nat i) = OK i)
    by (apply py_index_of_nat; exact Hlt).
  rewrite Hidx. reflexivity.
Qed.

(** The entries of one child all go to the dictionary of that child. *)
Lemma collect_under p : forall (collected : list (dict string val)) (i : nat),
  i < length collected ->
  collect collected (under i p)
  = OK (list_alter (fun d => dict_update d p) i collected).
Proof.
  induction p as [|[k v] p IH]; intros collected i Hlt.
  - simpl. f_equal. clear Hlt. revert i.
    induction collected as [|d c IHc]; intros [|i]; simpl; try reflexivity.
    rewrite <- IHc. reflexivity.
  - change (under i ((k, v) :: p)) with ((prefixed i k, v) :: under i p).
    cbn [collect]. rewrite collect_entry_prefixed by exact Hlt.
    cbn [bind]. rewrite IH by (rewrite list_alter_length; exact Hlt).
    rewrite list_alter_twice. reflexivity.
Qed.

Lemma collect_app (a b : dict string val) :
  forall collected : list (dict string val),
    collect collected (a ++ b)
    = (collected' <- collect collected a ;; collect collected' b).
Proof.
  induction a as [|kv a IH]; intros collected; [reflexivity |].
  simpl. destruct (collect_entry collected kv) as [c'|e]; simpl;
    [apply IH | reflexivity].
Qed.

Lemma collect_namespaced ps : forall pre : list (dict string val),
  (forall p, In p ps -> NoDup (dict_keys p)) ->
  collect (pre ++ repeat [] (length ps)) (namespaced_from (length pre) ps)
  = OK (pre ++ ps).
Proof.
  induction ps as [|p ps IH]; intros pre Hnd; [reflexivity |].
  cbn [namespaced_from length repeat]. rewrite collect_app.
  rewrite collect_under
    by (rewrite length_app; simpl; lia).
  cbn [bind]. rewrite list_alter_middle.
  change (dict_update [] p) with (dict_of_list p).
  rewrite dict_of_list_id by (apply Hnd; left; reflexivity).
  specialize (IH (pre ++ [p])). rewrite length_app in IH. simpl in IH.
  rewrite Nat.add_1_r in IH. rewrite <- !app_assoc in IH. simpl in IH.
  apply IH. intros q Hq. apply Hnd. right. exact Hq.
Qed.

(** X3.  The second loop of [from_parameters] undoes the naming of
    [raw_parameters]: when every child gives its parameters, the
    loop run on the raw parameters collects, for every child, the
    dictionary that child gave. *)
Theorem collect_inverts_raw_parameters (scatterers : list (scatterer val)) ps :
  map parameters scatterers = map (@OK (dict string val)) ps ->
  (forall p, In p ps -> NoDup (dict_keys p)) ->
  (raw <- raw_parameters scatterers ;;
   collect (repeat [] (length scatterers)) raw) = OK ps.
Proof.
  intros Hps Hnd. rewrite (raw_parameters_namespaced scatterers ps Hps Hnd).
  cbn [bind].
  assert (Hlen : length scatterers = length ps).
  { rewrite <- (length_map parameters scatterers), Hps. apply length_map. }
  rewrite Hlen. exact (collect_namespaced ps [] Hnd).
Qed.

Lemma expand_ties_no_name (ties : tie_table) :
  forall np : dict string val,
    (forall name, In name (dict_keys ties) -> dict_get np name = None) ->
    expand_ties ties np = np.
Proof.
  induction ties as [|[t g] rest IH]; intros np Hno; [reflexivity |].
  rewrite expand_ties_cons. simpl.
  rewrite (Hno t) by (left; reflexivity).
  apply IH. intros name Hin. apply Hno. right. exact Hin.
Qed.

Lemma prim_from_own_parameters p (overwrite : bool) :
  NoDup (dict_keys p) -> prim_from_parameters p p overwrite = p.
Proof.
  intros Hnd. unfold prim_from_parameters.
  transitivity (map (fun kv : string * val => kv) p); [| apply map_id].
  apply map_ext_in. intros [k v] Hin. simpl.
  rewrite (dict_get_NoDup p k v Hnd Hin).
  destruct (is_Number v), overwrite; reflexivity.
Qed.

Lemma rebuild_own ps (overwrite : bool) :
  (forall p, In p ps -> NoDup (dict_keys p)) ->
  rebuild_children (fun scat pars => from_parameters scat pars overwrite)
                   (map (@Prim val) ps) ps
  = (map (@Prim val) ps, OK (map (@Prim val) ps)).
Proof.
  induction ps as [|p ps IH]; intros Hnd; [reflexivity |].
  simpl. rewrite IH by (intros q Hq; apply Hnd; right; exact Hq).
  rewrite prim_from_own_parameters by (apply Hnd; left; reflexivity).
  reflexivity.
Qed.

(** X4.  A composite of primitives rebuilt from its own raw
    parameters: when no display name of a tie is among the raw names,
    every child gets back exactly its own entries, and the call ends
    as the constructor does on the same children and the same tie
    table. *)
Theorem from_raw_parameters_is_construct ps (ties : tie_table)
        (overwrite : bool) :
  (forall p, In p ps -> NoDup (dict_keys p)) ->
  (forall name, In name (dict_keys ties) ->
                dict_get (namespaced_from 0 ps) name = None) ->
  raw_parameters (map (@Prim val) ps) = OK (namespaced_from 0 ps)
  /\ returned (from_parameters (Scatterers (map (@Prim val) ps) ties)
                               (namespaced_from 0 ps) overwrite)
     = construct (map (@Prim val) ps) ties.
Proof.
  intros Hnd Hno. split.
  - apply raw_parameters_namespaced; [| exact Hnd].
    rewrite map_map. reflexivity.
  - cbn [from_parameters]. rewrite (expand_ties_no_name ties _ Hno).
    rewrite length_map.
    assert (Hc : collect (repeat [] (length ps)) (namespaced_from 0 ps) = OK ps)
      by exact (collect_namespaced ps [] Hnd).
    rewrite Hc.
    rewrite (rebuild_own ps overwrite Hnd). unfold _iteritems, construct.
    cbn [snd]. destruct (init (map (@Prim val) ps) ties) as [ties' [[]|e]];
      reflexivity.
Qed.
End Partition.

Lemma raw_parameters_entries_witness :
  exists raw,
    raw_parameters Sample.tied_spheres = OK raw
    /\ dict_get raw "1:r" = Some (Sample.Obj 6 (Sample.Uniform 0.5 0.7)).
Proof.
  destruct (raw_parameters_entries Sample.tied_spheres sphere_entries eq_refl
              (all_distinct sphere_entries eq_refl)) as [Hraw [Hget _]].
  eexists. split; [exact Hraw |].
  exact (Hget 1 _ "r" eq_refl).
Defined.

Lemma collect_inverts_raw_parameters_witness :
  (raw <- raw_parameters Sample.tied_spheres ;;
   collect (repeat [] 2) raw) = OK sphere_entries.
Proof.
  exact (collect_inverts_raw_parameters Sample.tied_spheres sphere_entries
           eq_refl (all_distinct sphere_entries eq_refl)).
Defined.

Lemma from_raw_parameters_is_construct_witness :
  returned (from_parameters (Scatterers (map (@Prim _) two_balls) [])
                            [("0:r", Sample.prior_R); ("1:r", Sample.prior_P)]
                            false)
  = OK (Scatterers (map (@Prim _) two_balls) []).
Proof.
  refine (proj2 (from_raw_parameters_is_construct two_balls [] false
                   (all_distinct two_balls eq_refl) _)).
  intros name [].
Defined.

End FlatFacts.


(** ** Growth and failure of the raw parameters *)

Module RawFacts.
Import Composite TieTerms MoreTerms NamespaceFacts FlatFacts DiscoveryFacts.

Section Growth.
Context {val : Type} {PV : PyValue val}.
Implicit Types (p : dict string val) (ps : list (dict string val)).

Lemma namespaced_from_app ps : forall (i : nat) (qs : list (dict string val)),
  namespaced_from i (ps ++ qs)
  = namespaced_from i ps ++ namespaced_from (i + length ps) qs.
Proof.
  induction ps as [|p ps IH]; intros i qs; simpl.
  - rewrite Nat.add_0_r. reflexivity.
  - rewrite IH, <- app_assoc. do 3 f_equal. lia.
Qed.

(** X5.  [add] puts the entries of the new child after those of the
    children already there, under the next index: the raw parameters
    after the call are the raw parameters before it followed by the
    entries of the new child, in whatever way the call ends. *)
Theorem add_extends_raw_parameters (scatterers : list (scatterer val))
        (ties : tie_table) (s : scatterer val) ps p :
  map parameters scatterers = map (@OK (dict string val)) ps ->
  parameters s = OK p ->
  (forall q, In q (p :: ps) -> NoDup (dict_keys q)) ->
  raw_parameters scatterers = OK (namespaced_from 0 ps)
  /\ raw_parameters (fst (fst (add scatterers ties s)))
     = OK (namespaced_from 0 ps ++ under (length scatterers) p).
Proof.
  intros Hps Hp Hnd. split.
  - apply raw_parameters_namespaced; [exact Hps |].
    intros q Hq. apply Hnd. right. exact Hq.
  - unfold add. destruct (init (scatterers ++ [s]) ties) as [ties' r].
    cbn [fst].
    rewrite (raw_parameters_namespaced (scatterers ++ [s]) (ps ++ [p])).
    + rewrite namespaced_from_app. simpl. rewrite app_nil_r.
      assert (Hlen : length scatterers = length ps).
      { rewrite <- (length_map parameters scatterers), Hps. apply length_map. }
      rewrite Hlen. reflexivity.
    + rewrite !map_app, Hps. simpl. rewrite Hp. reflexivity.
    + intros q Hq. apply Hnd. apply in_app_or in Hq.
      destruct Hq as [Hq | [<- | []]]; [right; exact Hq | left; reflexivity].
Qed.
End Growth.

Section Failure.
Context {val : Type} {PV : PyValue val}.

Lemma raw_loop_raised (children : list (nat * result (dict string val)))
      (e : exn) :
  fold_left raw_step children (Raise e) = Raise e.
Proof. induction children as [|c children IH]; simpl; [reflexivity | exact IH]. Qed.

Lemma raw_loop_first_failure (before : list (scatterer val))
      (s : scatterer val) (after : list (scatterer val)) (e : exn) :
  (forall b, In b before -> ~ raises (parameters b)) ->
  parameters s = Raise e ->
  forall (i : nat) (acc : dict string val),
    fold_left raw_step
              (enumerate_from i (map parameters (before ++ s :: after)))
              (OK acc) = Raise e.
Proof.
  intros Hbefore Hs. induction before as [|b before IH]; intros i acc; simpl.
  - rewrite Hs. simpl. apply raw_loop_raised.
  - destruct (parameters b) as [pb|eb] eqn:Hb.
    + simpl. apply IH. intros b' Hb'. apply Hbefore. right. exact Hb'.
    + exfalso. apply (Hbefore b (or_introl eq_refl)). exists eb. exact Hb.
Qed.

Lemma raw_loop_returns (scatterers : list (scatterer val)) :
  (forall s, In s scatterers -> ~ raises (parameters s)) ->
  forall (i : nat) (acc : dict string val),
    exists raw,
      fold_left raw_step (enumerate_from i (map parameters scatterers)) (OK acc)
      = OK raw.
Proof.
  induction scatterers as [|s rest IH]; intros Hall i acc; simpl.
  - exists acc. reflexivity.
  - destruct (parameters s) as [ps|es] eqn:Hs.
    + simpl. apply IH. intros s' Hs'. apply Hall. right. exact Hs'.
    + exfalso. apply (Hall s (or_introl eq_refl)). exists es. exact Hs.
Qed.

Lemma first_failure (scatterers : list (scatterer val)) :
  (exists s, In s scatterers /\ raises (parameters s)) ->
  exists before s after e,
    scatterers = before ++ s :: after
    /\ (forall b, In b before -> ~ raises (parameters b))
    /\ parameters s = Raise e.
Proof.
  induction scatterers as [|c rest IH]; intros [s [Hin Hr]]; [destruct Hin |].
  destruct (parameters c) as [pc|ec] eqn:Hc.
  - destruct Hin as [<- | Hin].
    + destruct Hr as [e He]. congruence.
    + destruct (IH (ex_intro _ s (conj Hin Hr)))
        as [before [s' [after [e [Heq [Hb Hs']]]]]].
      exists (c :: before), s', after, e. split; [rewrite Heq; reflexivity |].
      split; [| exact Hs'].
      intros b [<- | Hbin]; [| apply Hb; exact Hbin].
      intros [e' He']. congruence.
  - exists [], c, rest, ec. split; [reflexivity |].
    split; [intros b [] | exact Hc].
Qed.

Lemma raw_parameters_first_failure (before : list (scatterer val))
      (s : scatterer val) (after : list (scatterer val)) (e : exn) :
  (forall b, In b before -> ~ raises (parameters b)) ->
  parameters s = Raise e ->
  raw_parameters (before ++ s :: after) = Raise e.
Proof.
  intros Hb Hs. exact (raw_loop_first_failure before s after e Hb Hs 0 []).
Qed.

(** X6.  The raw parameters are read from every child, whatever its
    kind: they raise exactly when the [parameters] of some child
    raise, with the exception of the first such child, and then the
    composite gives no parameters, its constructor raises the same
    exception, and the tie table is left as it was given. *)
Theorem raw_parameters_raises_iff (scatterers : list (scatterer val)) :
  (raises (raw_parameters scatterers)
   <-> exists s, In s scatterers /\ raises (parameters s))
  /\ (forall before s after e ties,
         scatterers = before ++ s :: after ->
         (forall b, In b before -> ~ raises (parameters b)) ->
         parameters s = Raise e ->
         raw_parameters scatterers = Raise e
         /\ parameters (Scatterers scatterers ties) = Raise e
         /\ init scatterers ties = (ties, Raise e)).
Proof.
  assert (Hfirst : forall before s after e,
             scatterers = before ++ s :: after ->
             (forall b, In b before -> ~ raises (parameters b)) ->
             parameters s = Raise e ->
             raw_parameters scatterers = Raise e).
  { intros before s after e -> Hb Hs.
    apply raw_parameters_first_failure; assumption. }
  split.
  - split.
    + intros [e He].
      assert (Hdec : forall s : scatterer val,
                 raises (parameters s) \/ ~ raises (parameters s)).
      { intros s. destruct (parameters s) as [ps|es];
          [right; intros [e' He']; discriminate | left; exists es; reflexivity]. }
      assert (Hex : (exists s, In s scatterers /\ raises (parameters s))
                    \/ forall s, In s scatterers -> ~ raises (parameters s)).
      { clear He Hfirst. induction scatterers as [|c rest IH].
        - right. intros s [].
        - destruct (Hdec c) as [Hc | Hc].
          + left. exists c. split; [left; reflexivity | exact Hc].
          + destruct IH as [[s [Hin Hr]] | Hnone].
            * left. exists s. split; [right; exact Hin | exact Hr].
            * right. intros s [<- | Hin]; [exact Hc | apply Hnone; exact Hin]. }
      destruct Hex as [Hex | Hnone]; [exact Hex |].
      destruct (raw_loop_returns scatterers Hnone 0 []) as [raw Hraw].
      assert (Hsame : raw_parameters scatterers = OK raw) by exact Hraw.
      congruence.
    + intros Hex.
      destruct (first_failure scatterers Hex)
        as [before [s [after [e [Heq [Hb Hs]]]]]].
      exists e. exact (Hfirst before s after e Heq Hb Hs).
  - intros before s after e ties Heq Hb Hs.
    pose proof (Hfirst before s after e Heq Hb Hs) as Hraw.
    split; [exact Hraw |]. split.
    + cbn [parameters]. fold (raw_parameters scatterers).
      rewrite Hraw. reflexivity.
    + unfold init, _find_new_ties. rewrite Hraw. reflexivity.
Qed.
End Failure.

(** A composite with a tie to a parameter that no child has cannot be
    read; neither can a composite of which it is a child. *)
Lemma raw_parameters_raises_iff_witness :
  let broken := Scatterers [Sample.ball Sample.prior_R] [("r", ["1:r"])] in
  raw_parameters [Sample.ball Sample.prior_P; broken] = Raise ValueError
  /\ init [Sample.ball Sample.prior_P; broken] [] = ([], Raise ValueError).
Proof.
  intros broken.
  destruct (proj2 (raw_parameters_raises_iff
                     [Sample.ball Sample.prior_P; broken])
                  [Sample.ball Sample.prior_P] broken [] ValueError []
                  eq_refl) as [Hraw [_ Hinit]].
  - intros b [<- | []] [e He]. discriminate.
  - reflexivity.
  - split; [exact Hraw | exact Hinit].
Defined.

Lemma add_extends_raw_parameters_witness :
  raw_parameters
    (fst (fst (add (map (@Prim _) two_balls) [] (Sample.ball (Sample.num 10 1)))))
  = OK [("0:r", Sample.prior_R); ("1:r", Sample.prior_P);
        ("2:r", Sample.num 10 1)].
Proof.
  refine (proj2 (add_extends_raw_parameters (map (@Prim _) two_balls) []
                   (Sample.ball (Sample.num 10 1)) two_balls
                   [("r", Sample.num 10 1)] eq_refl eq_refl _)).
  apply (all_distinct ([("r", Sample.num 10 1)] :: two_balls)). reflexivity.
Defined.

End RawFacts.


(** ** The flat view and the keys of [from_parameters] *)

Module ViewFacts.
Import Composite TieTerms MoreTerms NamespaceFacts ReconstructionFacts
       DiscoveryFacts.

Section View.
Context {val : Type} {PV : PyValue val}.

Lemma filter_all {A : Type} (f : A -> bool) (l : list A) :
  (forall x, In x l -> f x = true) -> filter f l = l.
Proof.
  induction l as [|x l IH]; simpl; intros Hall; [reflexivity |].
  rewrite (Hall x (or_introl eq_refl)). f_equal.
  apply IH. intros y Hy. apply Hall. right. exact Hy.
Qed.

(** X7.  The flat view of a composite holds every raw entry that is
    in no tie group, under its raw name and with its value, unless a
    group is displayed under that name; without ties the flat view is
    the raw parameters. *)
Theorem parameters_keeps_untied (scatterers : list (scatterer val))
        (ties : tie_table) (raw flat : dict string val) :
  NoDup (dict_keys ties) ->
  raw_parameters scatterers = OK raw ->
  parameters (Scatterers scatterers ties) = OK flat ->
  (forall k, ~ In k (_all_ties ties) -> ~ In k (dict_keys ties) ->
             dict_get flat k = dict_get raw k)
  /\ (ties = [] -> flat = raw).
Proof.
  intros Hnd Hraw Hflat.
  pose proof (parameters_collapse scatterers ties raw flat Hraw Hflat) as Hc.
  split.
  - exact (proj2 (proj2 (collapse_view raw ties flat Hnd Hc))).
  - intros ->. unfold collapse in Hc. simpl in Hc. inversion Hc.
    apply filter_all. intros x _. reflexivity.
Qed.

(** X8.  For an argument and a tie table whose names are ASCII
    texts: a key of the argument whose text before the first colon is
    not the index of a child makes [from_parameters] raise, whatever
    else the argument holds; the call ends in the second loop, before
    any child is rebuilt and before the constructor runs, so the
    receiver is as it was. *)
Theorem from_parameters_rejects_key (scatterers : list (scatterer val))
        (ties : tie_table) (np : dict string val) (overwrite : bool)
        (key : string) :
  (forall k, In k (dict_keys np) -> ascii_text k = true) ->
  (forall m, In m (_all_ties ties) -> ascii_text m = true) ->
  In key (dict_keys np) ->
  no_child_index (val := val) (length scatterers) key ->
  raises (returned (from_parameters (Scatterers scatterers ties) np overwrite))
  /\ self_after (from_parameters (Scatterers scatterers ties) np overwrite)
     = Scatterers scatterers ties.
Proof.
  intros _ _ Hin Hbad. cbn [from_parameters].
  destruct (collect_bad (length scatterers) (expand_ties ties np)
              (repeat [] (length scatterers)) (repeat_length _ _)) as [e He].
  - exists key. split; [apply expand_ties_keys; exact Hin | exact Hbad].
  - rewrite He. split; [exists e; reflexivity | reflexivity].
Qed.
End View.

Section Negative.
Context {val : Type} {PV : PyValue val}.

Lemma str_of_nat_not_empty (k : nat) : str_of_nat k <> EmptyString.
Proof.
  rewrite str_of_nat_digits. pose proof (to_uint_not_Nil k) as Hn.
  destruct (Nat.to_uint k); try contradiction; discriminate.
Qed.

Lemma py_int_minus (k : nat) :
  py_int (String "-" (str_of_nat k)) = OK (- Z.of_nat k)%Z.
Proof.
  pose proof (py_int_str_of_nat k) as Hpos. unfold py_int in *.
  change (lstrip (String "-" (str_of_nat k))) with (String "-" (str_of_nat k)).
  rewrite str_of_nat_digits in *. rewrite lstrip_digits, rstrip_digits in Hpos.
  cbn [rstrip]. rewrite rstrip_digits.
  pose proof (to_uint_not_Nil k) as Hn.
  assert (Hd : digits_value 0 true (NilEmpty.string_of_uint (Nat.to_uint k))
               = Some (Z.of_nat k)).
  { revert Hpos. cbv zeta.
    destruct (Nat.to_uint k); try contradiction;
      cbn [NilEmpty.string_of_uint];
      match goal with
      | |- context [digits_value 0 true ?s] =>
          destruct (digits_value 0 true s)
      end; intros Heq; inversion Heq; reflexivity. }
  cbv zeta.
  destruct (NilEmpty.string_of_uint (Nat.to_uint k)) eqn:Hs.
  - exfalso. destruct (Nat.to_uint k); try contradiction; discriminate.
  - cbn iota beta. rewrite Hd. reflexivity.
Qed.

Lemma split1_minus (k : nat) (par : string) :
  split1 (String "-" (prefixed k par)) = [String "-" (str_of_nat k); par].
Proof.
  pose proof (split1_prefixed k par) as Hs. unfold split1 in *.
  cbn [split_colon].
  change (Ascii.eqb "-" ":") with false. cbn iota.
  destruct (split_colon (prefixed k par)) as [[a b]|]; inversion Hs.
  reflexivity.
Qed.

Lemma py_index_from_end {A : Type} (l : list A) (k : nat) :
  0 < k <= length l -> py_index l (- Z.of_nat k) = OK (length l - k).
Proof.
  intros Hk. unfold py_index. cbv zeta.
  assert (H0 : (0 <=? - Z.of_nat k)%Z = false) by (apply Z.leb_gt; lia).
  assert (H1 : (- Z.of_nat (length l) <=? - Z.of_nat k)%Z = true)
    by (apply Z.leb_le; lia).
  assert (H2 : (- Z.of_nat k <? 0)%Z = true) by (apply Z.ltb_lt; lia).
  rewrite H0, H1, H2. simpl. f_equal. lia.
Qed.

Lemma py_index_before_start {A : Type} (l : list A) (k : nat) :
  length l < k -> py_index l (- Z.of_nat k) = Raise IndexError.
Proof.
  intros Hk. unfold py_index. cbv zeta.
  assert (H0 : (0 <=? - Z.of_nat k)%Z = false) by (apply Z.leb_gt; lia).
  assert (H1 : (- Z.of_nat (length l) <=? - Z.of_nat k)%Z = false)
    by (apply Z.leb_gt; lia).
  rewrite H0, H1. reflexivity.
Qed.

(** X9.  A key with a negative index counts the children from the
    end, as Python lists do: the entry "-k:par" goes to the child
    [n - k] of [n] children when [k] is between 1 and [n], and raises
    [IndexError] when [k] is larger. *)
Theorem negative_index_counts_from_end (collected : list (dict string val))
        (k : nat) (par : string) (v : val) :
  0 < k ->
  (k <= length collected ->
   collect_entry collected (String "-" (prefixed k par), v)
   = OK (list_alter (fun d => dict_set d par v) (length collected - k)
                    collected))
  /\ (length collected < k ->
      collect_entry collected (String "-" (prefixed k par), v)
      = Raise IndexError).
Proof.
  intros Hpos. unfold collect_entry. cbn [fst snd].
  rewrite split1_minus, py_int_minus. cbn [bind].
  split; intros Hk.
  - assert (Hidx : @py_index pdict collected (- Z.of_nat k)
                   = OK (length collected - k))
      by (apply py_index_from_end; split; [exact Hpos | exact Hk]).
    rewrite Hidx. reflexivity.
  - assert (Hidx : @py_index pdict collected (- Z.of_nat k) = Raise IndexError)
      by (apply py_index_before_start; exact Hk).
    rewrite Hidx. reflexivity.
Qed.
End Negative.

Lemma parameters_keeps_untied_witness :
  exists flat,
    parameters (Scatterers Sample.tied_spheres Sample.tied_table) = OK flat
    /\ dict_get flat "1:r" = Some (Sample.Obj 6 (Sample.Uniform 0.5 0.7)).
Proof.
  eexists. split; [vm_compute; reflexivity |].
  refine (eq_trans
            (proj1 (parameters_keeps_untied Sample.tied_spheres Sample.tied_table
                      _ _ _ eq_refl eq_refl) "1:r" _ _) _).
  - apply FlatFacts.distinct_NoDup. reflexivity.
  - simpl. intros [H | [H | []]]; discriminate.
  - simpl. intros [H | []]; discriminate.
  - reflexivity.
Defined.

Lemma from_parameters_rejects_key_witness :
  raises (returned (from_parameters
                      (Scatterers Sample.equal_balls [])
                      [("2:r", Sample.num 1 1)] false)).
Proof.
  refine (proj1 (from_parameters_rejects_key Sample.equal_balls []
                   [("2:r", Sample.num 1 1)] false "2:r" _ _ _ _)).
  - intros k [<- | []]. reflexivity.
  - intros m [].
  - left. reflexivity.
  - split; [reflexivity |]. exists "2", "r". split; [reflexivity |].
    intros z Hz. vm_compute in Hz. inversion Hz. reflexivity.
Defined.

Lemma negative_index_counts_from_end_witness :
  collect_entry [[]; []] ("-1:r", Sample.num 1 1)
  = OK [[]; [("r", Sample.num 1 1)]].
Proof.
  refine (proj1 (negative_index_counts_from_end [[]; []] 1 "r"
                   (Sample.num 1 1) _) _); simpl; lia.
Defined.

End ViewFacts.


(** ** Points, components and translations *)

Module SpaceFacts.
Import Composite CompositeMore TieTerms MoreTerms DomainFacts ReconstructionFacts.

Section Points.
Context {val : Type}.
Variable point : Type.
Variable contains : scatterer val -> point -> bool.

Lemma combine_map_self {A B : Type} (g : A -> B) (l : list A) :
  combine l (map g l) = map (fun x => (x, g x)) l.
Proof. induction l as [|x l IH]; simpl; [| rewrite IH]; reflexivity. Qed.

Lemma in_domain_loop_points (points : list point)
      (others : list (scatterer val)) :
  forall (k : nat) (g : point -> nat),
    fold_left
      (fun ind is_ =>
         map (fun po => if contains (snd is_) (fst po)
                        then fst is_ + 1 else snd po)
             (combine points ind))
      (enumerate_from k others) (map g points)
    = map (fun p => scan contains p k others (g p)) points.
Proof.
  induction others as [|s rest IH]; intros k g; simpl; [reflexivity |].
  rewrite combine_map_self, map_map. simpl.
  exact (IH (S k) (fun p => if contains s p then k + 1 else g p)).
Qed.

Lemma in_domain_points (first : scatterer val) (others : list (scatterer val))
      (points : list point) :
  in_domain contains (first :: others) points
  = OK (map (fun p => scan contains p 0 others
                           (if contains first p then 1 else 0)) points).
Proof.
  unfold in_domain. f_equal.
  exact (in_domain_loop_points points others 0
           (fun p => if contains first p then 1 else 0)).
Qed.

(** X10.  [in_domain] answers for every point by itself, whatever the
    other points are: one number per point; for a point that no child
    after child 0 contains, 1 if child 0 contains it and 0 if not; for
    a point that later children contain, the index of the last of
    them. *)
Theorem in_domain_each_point (first : scatterer val)
        (others : list (scatterer val)) (points : list point) :
  exists ind,
    in_domain contains (first :: others) points = OK ind
    /\ length ind = length points
    /\ forall j p,
        nth_error points j = Some p ->
        ((forall s, In s others -> contains s p = false) ->
         nth_error ind j = Some (if contains first p then 1 else 0))
        /\ (forall before s after,
               others = before ++ s :: after ->
               contains s p = true ->
               (forall s', In s' after -> contains s' p = false) ->
               nth_error ind j = Some (length before + 1)).
Proof.
  eexists. split; [apply in_domain_points |]. split; [apply length_map |].
  intros j p Hj. split.
  - intros Hnone. rewrite nth_error_map, Hj. simpl.
    rewrite scan_none by exact Hnone. reflexivity.
  - intros before s after -> Hs Hafter. rewrite nth_error_map, Hj. simpl.
    rewrite scan_last by assumption. reflexivity.
Qed.

Variable index : Type.
Variable prim_index_at : dict string val -> point -> result (option index).

Lemma index_at_composite (first : scatterer val)
      (others : list (scatterer val)) (ties : tie_table) (p : point) :
  index_at contains prim_index_at (Scatterers (first :: others) ties) p
  = except_TypeError
      (match nth_error (first :: others)
                       (scan contains p 0 others
                             (if contains first p then 1 else 0)) with
       | Some c => index_at contains prim_index_at c p
       | None => Raise IndexError
       end).
Proof.
  cbn [index_at]. rewrite in_domain_one. cbn [bind first_item].
  rewrite nth_error_map.
  destruct (nth_error (first :: others) _); reflexivity.
Qed.

Lemma except_TypeError_twice (r : result (option index)) :
  except_TypeError (except_TypeError r) = except_TypeError r.
Proof. destruct r as [v|[]]; reflexivity. Qed.

(** X11.  [index_at] of a composite asks the child whose position is
    the number that [in_domain] gives.  For a point that a child after
    child 0 contains this is the last child that contains it.  For a
    point that child 0 alone contains it is child 1, or nothing at all
    when the composite has one child, and the call raises
    [IndexError]; for a point that no child contains it is child 0.
    An empty composite raises [IndexError], and no composite raises
    [TypeError]. *)
Theorem index_at_asks_child (first : scatterer val)
        (others : list (scatterer val)) (ties : tie_table) (p : point) :
  (forall before s after,
      others = before ++ s :: after ->
      contains s p = true ->
      (forall s', In s' after -> contains s' p = false) ->
      index_at contains prim_index_at (Scatterers (first :: others) ties) p
      = except_TypeError (index_at contains prim_index_at s p))
  /\ ((forall s, In s others -> contains s p = false) ->
      index_at contains prim_index_at (Scatterers (first :: others) ties) p
      = if contains first p then
          match others with
          | [] => Raise IndexError
          | second :: _ =>
              except_TypeError (index_at contains prim_index_at second p)
          end
        else except_TypeError (index_at contains prim_index_at first p))
  /\ index_at contains prim_index_at (Scatterers [] ties) p = Raise IndexError
  /\ (forall scatterers,
         index_at contains prim_index_at (Scatterers scatterers ties) p
         <> Raise TypeError).
Proof.
  split; [| split; [| split]].
  - intros before s after -> Hs Hafter. rewrite index_at_composite.
    rewrite scan_last by assumption.
    replace (0 + length before + 1) with (S (length before)) by lia.
    cbn [nth_error]. rewrite nth_error_app2 by lia.
    rewrite Nat.sub_diag. reflexivity.
  - intros Hnone. rewrite index_at_composite.
    rewrite scan_none by exact Hnone.
    destruct (contains first p); [| reflexivity].
    destruct others; reflexivity.
  - reflexivity.
  - intros scatterers. cbn [index_at].
    match goal with
    | |- except_TypeError ?r <> _ => destruct r as [v|[]]
    end; discriminate.
Qed.
End Points.

Section Components.
Context {val : Type}.

Lemma components_prims (s : scatterer val) :
  Forall (fun c => is_Prim c = true) (components s).
Proof.
  induction s as [pars | scatterers ties IH] using scatterer_tree_ind.
  - constructor; [reflexivity | constructor].
  - cbn [components]. induction IH as [|c rest Hc _ IHrest]; simpl.
    + constructor.
    + apply Forall_app. split; assumption.
Qed.

Lemma components_of_prims (l : list (scatterer val)) :
  Forall (fun c => is_Prim c = true) l -> flat_map components l = l.
Proof.
  induction 1 as [|c rest Hc _ IH]; [reflexivity |].
  destruct c as [pars|]; [| discriminate]. simpl. rewrite IH. reflexivity.
Qed.

Lemma components_skeleton (s : scatterer val) :
  components (skeleton s) = components s.
Proof.
  induction s as [pars | scatterers ties IH] using scatterer_tree_ind.
  - reflexivity.
  - cbn [skeleton components]. induction IH as [|c rest Hc _ IHrest].
    + reflexivity.
    + simpl. rewrite Hc, IHrest. reflexivity.
Qed.

Lemma components_count (s : scatterer val) :
  length (components s) = count_prims s.
Proof.
  induction s as [pars | scatterers ties IH] using scatterer_tree_ind.
  - reflexivity.
  - cbn [components count_prims]. induction IH as [|c rest Hc _ IHrest].
    + reflexivity.
    + simpl. rewrite length_app, Hc, IHrest. reflexivity.
Qed.

Lemma components_map_prims (f : dict string val -> dict string val)
      (s : scatterer val) :
  components (map_prims f s) = map (map_prims f) (components s).
Proof.
  induction s as [pars | scatterers ties IH] using scatterer_tree_ind.
  - reflexivity.
  - cbn [map_prims components]. induction IH as [|c rest Hc _ IHrest].
    + reflexivity.
    + simpl. rewrite map_app, Hc, IHrest. reflexivity.
Qed.

(** X12.  [get_component_list] gives the primitives of the tree, from
    left to right: every component is a primitive, there are as many
    as the tree has primitives, the tie tables play no part, and the
    components of a list of primitives are the list itself, so that
    flattening twice is flattening once. *)
Theorem component_list_is_flat (scatterers : list (scatterer val)) :
  Forall (fun c => is_Prim c = true) (get_component_list scatterers)
  /\ length (get_component_list scatterers)
     = list_sum (map count_prims scatterers)
  /\ get_component_list (map skeleton scatterers)
     = get_component_list scatterers
  /\ get_component_list (get_component_list scatterers)
     = get_component_list scatterers.
Proof.
  assert (Hprims : Forall (fun c : scatterer val => is_Prim c = true)
                          (get_component_list scatterers)).
  { unfold get_component_list. induction scatterers as [|s rest IH]; simpl.
    - constructor.
    - apply Forall_app. split; [apply components_prims | exact IH]. }
  split; [exact Hprims |]. split; [| split].
  - unfold get_component_list. induction scatterers as [|s rest IH]; simpl.
    + reflexivity.
    + rewrite length_app, components_count. f_equal.
      apply IH. unfold get_component_list in Hprims. simpl in Hprims.
      apply Forall_app in Hprims. exact (proj2 Hprims).
  - unfold get_component_list. clear Hprims.
    induction scatterers as [|s rest IH]; simpl.
    + reflexivity.
    + rewrite components_skeleton, IH. reflexivity.
  - apply components_of_prims. exact Hprims.
Qed.
End Components.

Section Moves.
Context {val : Type}.
Variable prim_translated : dict string val -> coord -> result (dict string val).
Variable moved : coord -> dict string val -> dict string val.
Hypothesis prim_translated_returns :
  forall pars c, prim_translated pars c = OK (moved c pars).

Lemma translation_coords_array (c1 : coord) (c2 c3 : option coord)
      (tc : coord) :
  translation_coords c1 c2 c3 = OK tc ->
  translation_coords tc None None = OK tc.
Proof.
  unfold translation_coords, len_eq3.
  destruct (is_None c2 && negb (length (ensure_array c1) =? 0)) eqn:Hb.
  - intros Heq. inversion Heq. subst tc. simpl.
    apply andb_true_iff in Hb. destruct Hb as [_ Hb]. rewrite Hb. reflexivity.
  - destruct c2 as [y|], c3 as [z|]; intros Heq; inversion Heq. reflexivity.
Qed.

Lemma mapM_map {A B : Type} (f : A -> result B) (g : A -> B) (l : list A) :
  Forall (fun x => f x = OK (g x)) l -> mapM f l = OK (map g l).
Proof.
  induction 1 as [|x rest Hx _ IH]; [reflexivity |].
  simpl. rewrite Hx, IH. reflexivity.
Qed.

Lemma child_translated_map_prims (tc : coord) :
  translation_coords tc None None = OK tc ->
  forall s, child_translated prim_translated s tc = OK (map_prims (moved tc) s).
Proof.
  intros Htc s.
  induction s as [pars | scatterers ties IH] using scatterer_tree_ind.
  - cbn [child_translated map_prims]. rewrite prim_translated_returns.
    reflexivity.
  - cbn [child_translated map_prims]. rewrite Htc. cbn [bind].
    rewrite (mapM_map _ (map_prims (moved tc)) scatterers IH). reflexivity.
Qed.

(** X13.  When the [translated] of the primitives returns, that of a
    composite returns for every accepted form of the coordinates: the
    result has the tree and the tie tables of the receiver, at every
    depth, and each primitive is translated by the one vector; the
    list of its components is the list of the translated components
    of the receiver. *)
Theorem translated_moves_every_primitive (scatterers : list (scatterer val))
        (ties : tie_table) (c1 : coord) (c2 c3 : option coord) (tc : coord) :
  translation_coords c1 c2 c3 = OK tc ->
  translated prim_translated scatterers ties c1 c2 c3
  = OK (Scatterers (map (map_prims (moved tc)) scatterers) ties)
  /\ get_component_list (map (map_prims (moved tc)) scatterers)
     = map (map_prims (moved tc)) (get_component_list scatterers).
Proof.
  intros Htc. split.
  - unfold translated. rewrite Htc. cbn [bind].
    rewrite (mapM_map _ (map_prims (moved tc)) scatterers); [reflexivity |].
    apply Forall_forall. intros s _.
    apply child_translated_map_prims.
    exact (translation_coords_array c1 c2 c3 tc Htc).
  - unfold get_component_list.
    induction scatterers as [|s rest IH]; [reflexivity |].
    simpl. rewrite map_app, components_map_prims, IH. reflexivity.
Qed.
End Moves.

(** X14.  The head of [translated] raises exactly when the first
    argument alone is given and is empty, or when the second is given
    without the third; the exception is then the [NameError] of the
    unbound name.  With the second argument left out the third is not
    looked at. *)
Theorem translation_coords_cases (c1 : coord) (c2 c3 : option coord) :
  (raises (translation_coords c1 c2 c3)
   <-> (c2 = None /\ ensure_array c1 = []) \/ (c2 <> None /\ c3 = None))
  /\ (forall e, translation_coords c1 c2 c3 = Raise e ->
                e = NameError "InvalidScatterer")
  /\ (c2 = None -> ensure_array c1 <> [] ->
      translation_coords c1 c2 c3 = OK (Array (ensure_array c1))).
Proof.
  unfold translation_coords, len_eq3.
  destruct (ensure_array c1) as [|x items] eqn:Hc;
    destruct c2 as [y|], c3 as [z|]; cbn [is_None andb negb length Nat.eqb].
  - split; [split |]; [intros [e He]; discriminate | | split].
    + intros [[H _] | [_ H]]; discriminate.
    + intros e He. discriminate.
    + intros H. discriminate.
  - split; [split |]; [| | split].
    + intros _. right. split; [discriminate | reflexivity].
    + intros _. exists (NameError "InvalidScatterer"). reflexivity.
    + intros e He. inversion He. reflexivity.
    + intros H. discriminate.
  - split; [split |]; [| | split].
    + intros _. left. split; reflexivity.
    + intros _. exists (NameError "InvalidScatterer"). reflexivity.
    + intros e He. inversion He. reflexivity.
    + intros _ H. contradiction.
  - split; [split |]; [| | split].
    + intros _. left. split; reflexivity.
    + intros _. exists (NameError "InvalidScatterer"). reflexivity.
    + intros e He. inversion He. reflexivity.
    + intros _ H. contradiction.
  - split; [split |]; [intros [e He]; discriminate | | split].
    + intros [[H _] | [_ H]]; discriminate.
    + intros e He. discriminate.
    + intros H. discriminate.
  - split; [split |]; [| | split].
    + intros _. right. split; [discriminate | reflexivity].
    + intros _. exists (NameError "InvalidScatterer"). reflexivity.
    + intros e He. inversion He. reflexivity.
    + intros H. discriminate.
  - split; [split |]; [intros [e He]; discriminate | | split].
    + intros [[_ H] | [H _]]; [discriminate | congruence].
    + intros e He. discriminate.
    + intros _ _. reflexivity.
  - split; [split |]; [intros [e He]; discriminate | | split].
    + intros [[_ H] | [H _]]; [discriminate | congruence].
    + intros e He. discriminate.
    + intros _ _. reflexivity.
Qed.

(** X26.  The head of [rotated], case by case.  With the second angle
    left out the third is not looked at, and the first is unpacked: a
    scalar raises [TypeError], an empty array reaches the last branch
    and its unbound name, an array of three gives the three angles and
    any other array raises [ValueError].  With the second angle given,
    the three arguments are the angles when the third is given, and the
    last branch is reached when it is not. *)
Theorem rotation_angles_cases (ang1 : coord) (ang2 ang3 : option coord) :
  (ang2 = None ->
   (forall x, ang1 = Scalar x -> rotation_angles ang1 ang2 ang3 = Raise TypeError)
   /\ (forall items,
          ang1 = Array items ->
          rotation_angles ang1 ang2 ang3
          = match items with
            | [] => Raise (NameError "InvalidScatterer")
            | [a; b; g] => OK (a, b, g)
            | _ => Raise ValueError
            end))
  /\ (forall a2,
         ang2 = Some a2 ->
         rotation_angles ang1 ang2 ang3
         = match ang3 with
           | Some a3 => OK (ang1, a2, a3)
           | None => Raise (NameError "InvalidScatterer")
           end).
Proof.
  split.
  - intros ->. split.
    + intros x ->. reflexivity.
    + intros items ->. destruct items as [|a [|b [|g [|d l]]]];
        destruct ang3; reflexivity.
  - intros a2 ->. destruct ang3; reflexivity.
Qed.

Lemma rotation_angles_cases_witness :
  rotation_angles (Array [Scalar 1; Scalar 2; Scalar 3; Scalar 4]) None
                  (Some (Scalar 5))
  = Raise ValueError.
Proof.
  exact (proj2 (proj1 (rotation_angles_cases
                         (Array [Scalar 1; Scalar 2; Scalar 3; Scalar 4])
                         None (Some (Scalar 5))) eq_refl)
               [Scalar 1; Scalar 2; Scalar 3; Scalar 4] eq_refl).
Defined.

Lemma in_domain_each_point_witness :
  exists ind,
    in_domain Sample.inside
              [Sample.sphere_at 10 1 0; Sample.sphere_at 20 1 5;
               Sample.sphere_at 30 2 5]
              [Sample.origin; Sample.far_point] = OK ind
    /\ nth_error ind 0 = Some 1
    /\ nth_error ind 1 = Some 2.
Proof.
  destruct (in_domain_each_point _ Sample.inside (Sample.sphere_at 10 1 0)
              [Sample.sphere_at 20 1 5; Sample.sphere_at 30 2 5]
              [Sample.origin; Sample.far_point]) as [ind [Hind [_ Hall]]].
  exists ind. split; [exact Hind |]. split.
  - apply (proj1 (Hall 0 Sample.origin eq_refl)).
    intros s [<- | [<- | []]]; vm_compute; reflexivity.
  - apply (proj2 (Hall 1 Sample.far_point eq_refl)
                 [Sample.sphere_at 20 1 5] (Sample.sphere_at 30 2 5) [] eq_refl).
    + vm_compute. reflexivity.
    + intros s' [].
Defined.

Lemma index_at_asks_child_witness :
  index_at Sample.inside index_of
           (Scatterers [Sample.sphere_at 10 1 0] []) Sample.origin
  = Raise IndexError
  /\ index_at Sample.inside index_of
              (Scatterers [Sample.sphere_at 10 1 0; Sample.sphere_at 20 1 5] [])
              Sample.origin
     = OK (Some (Sample.num 20 1.59)).
Proof.
  split.
  - refine (proj1 (proj2 (index_at_asks_child _ Sample.inside _ index_of
                            (Sample.sphere_at 10 1 0) [] [] Sample.origin)) _).
    intros s [].
  - refine (proj1 (proj2 (index_at_asks_child _ Sample.inside _ index_of
                            (Sample.sphere_at 10 1 0) [Sample.sphere_at 20 1 5]
                            [] Sample.origin)) _).
    intros s [<- | []]. vm_compute. reflexivity.
Defined.

Lemma translated_moves_every_primitive_witness :
  translated (fun pars c => OK (moved_sphere c pars))
             [Scatterers [Sample.ball (Sample.num 10 1)] [];
              Prim [("center.0", Sample.num 11 2)]] []
             (Scalar 1) (Some (Scalar 0)) (Some (Scalar 0))
  = OK (Scatterers
          [Scatterers [Sample.ball (Sample.num 10 1)] [];
           Prim [("center.0", Sample.num 11 (2 + 1))]] []).
Proof.
  refine (proj1 (translated_moves_every_primitive
                   (fun pars c => OK (moved_sphere c pars)) moved_sphere _
                   [Scatterers [Sample.ball (Sample.num 10 1)] [];
                    Prim [("center.0", Sample.num 11 2)]] []
                   (Scalar 1) (Some (Scalar 0)) (Some (Scalar 0))
                   (Array [Scalar 1; Scalar 0; Scalar 0]) _)).
  - intros pars c. reflexivity.
  - reflexivity.
Defined.

Lemma translation_coords_cases_witness :
  translation_coords (Array [Scalar 1; Scalar 2]) None (Some (Scalar 3))
  = OK (Array [Scalar 1; Scalar 2]).
Proof.
  refine (proj2 (proj2 (translation_coords_cases (Array [Scalar 1; Scalar 2])
                          None (Some (Scalar 3)))) eq_refl _).
  discriminate.
Defined.

End SpaceFacts.


(** ** The tie table *)

Module TableFacts.
Import Composite TieTerms MoreTerms DiscoveryFacts.

Section Tables.
Context {val : Type} {PV : PyValue val}.
Implicit Types (ties : tie_table).

Lemma reversed_loop_absent ties (m : string) :
  (forall tg, In tg ties -> ~ In m (snd tg)) ->
  forall acc : dict string string,
    dict_get
      (fold_left
         (fun reversed_ties tg =>
            dict_update reversed_ties
              (dict_of_list (map (fun tie => (tie, fst tg)) (snd tg))))
         ties acc) m
    = dict_get acc m.
Proof.
  induction ties as [|[t g] rest IH]; intros Hno acc; [reflexivity |].
  cbn [fold_left]. rewrite IH by (intros tg Htg; apply Hno; right; exact Htg).
  cbn [fst snd]. rewrite dict_get_update_const.
  rewrite (proj2 (mem_not_In m g) (Hno (t, g) (or_introl eq_refl))).
  reflexivity.
Qed.

Lemma reversed_loop_last (before : tie_table) (t : string) (g : list string)
      (after : tie_table) (m : string) :
  In m g ->
  (forall tg, In tg after -> ~ In m (snd tg)) ->
  forall acc : dict string string,
    dict_get
      (fold_left
         (fun reversed_ties tg =>
            dict_update reversed_ties
              (dict_of_list (map (fun tie => (tie, fst tg)) (snd tg))))
         (before ++ (t, g) :: after) acc) m
    = Some t.
Proof.
  intros Hin Hafter acc. rewrite fold_left_app. cbn [fold_left].
  rewrite reversed_loop_absent by exact Hafter.
  cbn [fst snd]. rewrite dict_get_update_const.
  rewrite (proj2 (mem_In m g) Hin). reflexivity.
Qed.

(** Every member of a group has a last group that holds it. *)
Lemma last_group ties (m : string) :
  In m (_all_ties ties) ->
  exists before t g after,
    ties = before ++ (t, g) :: after
    /\ In m g /\ forall tg, In tg after -> ~ In m (snd tg).
Proof.
  unfold _all_ties. induction ties as [|[t g] rest IH]; [intros [] |].
  cbn [map concat snd]. intros Hin.
  destruct (in_dec eq_dec m (concat (map snd rest))) as [Hrest | Hrest].
  - destruct (IH Hrest) as [before [t' [g' [after [Heq [Hg Hafter]]]]]].
    exists ((t, g) :: before), t', g', after.
    split; [rewrite Heq; reflexivity | split; assumption].
  - apply in_app_or in Hin. destruct Hin as [Hin | Hin]; [| contradiction].
    exists [], t, g, rest. split; [reflexivity |]. split; [exact Hin |].
    intros tg Htg Hm. apply Hrest. apply in_concat.
    exists (snd tg). split; [apply in_map; exact Htg | exact Hm].
Qed.

Lemma reversed_ties_last (before : tie_table) (t : string) (g : list string)
      (after : tie_table) (m : string) :
  In m g ->
  (forall tg, In tg after -> ~ In m (snd tg)) ->
  dict_get (_reversed_ties (before ++ (t, g) :: after)) m = Some t.
Proof.
  intros Hin Hafter. exact (reversed_loop_last before t g after m Hin Hafter []).
Qed.

Lemma reversed_ties_absent ties (m : string) :
  ~ In m (_all_ties ties) -> dict_get (_reversed_ties ties) m = None.
Proof.
  intros Hno.
  refine (reversed_loop_absent ties m _ []).
  intros tg Htg Hm. apply Hno. unfold _all_ties. apply in_concat.
  exists (snd tg). split; [apply in_map; exact Htg | exact Hm].
Qed.

(** X15.  [_reversed_ties] maps exactly the members of the groups,
    each to the display name of a group that holds it, and to that of
    the last such group when there are several. *)
Theorem reversed_ties_names_group ties :
  (forall m, In m (_all_ties ties)
             <-> dict_mem (_reversed_ties ties) m = true)
  /\ (forall m t, dict_get (_reversed_ties ties) m = Some t ->
                  exists g, In (t, g) ties /\ In m g)
  /\ (forall before t g after m,
         ties = before ++ (t, g) :: after ->
         In m g ->
         (forall tg, In tg after -> ~ In m (snd tg)) ->
         dict_get (_reversed_ties ties) m = Some t).
Proof.
  split; [| split].
  - intros m. unfold dict_mem. split.
    + intros Hin.
      destruct (last_group ties m Hin)
        as [before [t [g [after [-> [Hg Hafter]]]]]].
      rewrite (reversed_ties_last before t g after m Hg Hafter). reflexivity.
    + intros Hmem.
      destruct (in_dec eq_dec m (_all_ties ties)) as [Hin | Hno];
        [exact Hin |].
      rewrite (reversed_ties_absent ties m Hno) in Hmem. discriminate.
  - intros m t Hget.
    destruct (in_dec eq_dec m (_all_ties ties)) as [Hin | Hno].
    + destruct (last_group ties m Hin)
        as [before [t' [g [after [Heq [Hg Hafter]]]]]].
      subst ties.
      rewrite (reversed_ties_last before t' g after m Hg Hafter) in Hget.
      inversion Hget. subst t'.
      exists g. split; [| exact Hg].
      apply in_or_app. right. left. reflexivity.
    + rewrite (reversed_ties_absent ties m Hno) in Hget. discriminate.
  - intros before t g after m -> Hg Hafter.
    apply reversed_ties_last; assumption.
Qed.

Lemma all_ties_set_new ties (name : string) (g : list string) (k : string) :
  In k g -> In k (_all_ties (dict_set ties name g)).
Proof.
  intros Hk. unfold _all_ties. induction ties as [|[t g0] rest IH]; simpl.
  - rewrite app_nil_r. exact Hk.
  - destruct (eq_dec name t); simpl; apply in_or_app;
      [left; exact Hk | right; exact IH].
Qed.

Lemma all_ties_set_keep ties (name : string) (g : list string) (k : string) :
  (forall g0, dict_get ties name = Some g0 -> incl g0 g) ->
  In k (_all_ties ties) -> In k (_all_ties (dict_set ties name g)).
Proof.
  unfold _all_ties. induction ties as [|[t g0] rest IH]; simpl;
    [intros _ [] |].
  intros Hincl Hin. apply in_app_or in Hin.
  destruct (eq_dec name t) as [->|Hne]; simpl; apply in_or_app.
  - destruct Hin as [Hin | Hin]; [left | right; exact Hin].
    apply (Hincl g0 eq_refl). exact Hin.
  - destruct Hin as [Hin | Hin]; [left; exact Hin | right].
    apply IH; assumption.
Qed.

Lemma append_member_joins ties (name new_name : string) (g : list string) :
  dict_get ties name = Some g ->
  exists ties',
    append_member ties name new_name = OK ties'
    /\ In new_name (_all_ties ties')
    /\ forall k, In k (_all_ties ties) -> In k (_all_ties ties').
Proof.
  intros Hg. unfold append_member, dict_item. rewrite Hg. cbn [bind].
  eexists. split; [reflexivity |]. split.
  - apply all_ties_set_new. apply in_or_app. right. left. reflexivity.
  - intros k Hk. apply all_ties_set_keep; [| exact Hk].
    intros g0 Hg0. rewrite Hg in Hg0. inversion Hg0. subst g0.
    apply incl_appl. apply incl_refl.
Qed.

Lemma dict_get_of_In {V : Type} (d : dict string V) (k : string) (v : V) :
  In (k, v) d -> exists v', dict_get d k = Some v'.
Proof.
  intros Hin. destruct (dict_get d k) as [v'|] eqn:Hg; [exists v'; reflexivity |].
  exfalso. apply dict_get_None in Hg. apply Hg.
  unfold dict_keys. apply in_map_iff. exists (k, v). split; [reflexivity | exact Hin].
Qed.

(** X16.  [add_tie] changes the table before it checks it.  When the
    first name is known to the table, as a display name or as a
    member, or the second name has a colon, the second name is a
    member of a group afterwards in whatever way the check ends, and
    what was a member stays one unless the second name is itself a
    display name; in the remaining case the call raises [IndexError]
    and the table is as before. *)
Theorem add_tie_joins_group (scatterers : list (scatterer val)) ties
        (old_name new_name : string) :
  ((dict_mem ties old_name = true \/ In old_name (_all_ties ties)
    \/ exists index rest, split1 new_name = [index; rest]) ->
   In new_name (_all_ties (fst (add_tie scatterers ties old_name new_name)))
   /\ (dict_mem ties new_name = false ->
       forall k, In k (_all_ties ties) ->
                 In k (_all_ties
                         (fst (add_tie scatterers ties old_name new_name)))))
  /\ (dict_mem ties old_name = false -> ~ In old_name (_all_ties ties) ->
      split1 new_name = [new_name] ->
      add_tie scatterers ties old_name new_name = (ties, Raise IndexError)).
Proof.
  split.
  - intros Hknown. unfold add_tie.
    destruct (dict_mem ties old_name) eqn:Hkey.
    + unfold dict_mem in Hkey.
      destruct (dict_get ties old_name) as [g|] eqn:Hg; [| discriminate].
      destruct (append_member_joins ties old_name new_name g Hg)
        as [ties' [Ha [Hnew Hkeep]]].
      rewrite Ha. cbn [fst]. split; [exact Hnew | intros _; exact Hkeep].
    + destruct (mem old_name (_all_ties ties)) eqn:Hmem.
      * apply mem_In in Hmem.
        destruct (last_group ties old_name Hmem)
          as [before [t [g [after [Heq [Hg Hafter]]]]]].
        assert (Hrev : dict_get (_reversed_ties ties) old_name = Some t)
          by (rewrite Heq; apply reversed_ties_last; assumption).
        unfold dict_item. rewrite Hrev. cbn [bind].
        destruct (dict_get_of_In ties t g) as [g' Hg'].
        { rewrite Heq. apply in_or_app. right. left. reflexivity. }
        destruct (append_member_joins ties t new_name g' Hg')
          as [ties' [Ha [Hnew Hkeep]]].
        rewrite Ha. cbn [fst]. split; [exact Hnew | intros _; exact Hkeep].
      * destruct Hknown as [H | [H | [index [rest Hsplit]]]];
          [discriminate | apply mem_not_In in Hmem; contradiction |].
        rewrite Hsplit. cbn [fst]. split.
        -- apply all_ties_set_new. left. reflexivity.
        -- intros Hfree k Hk. apply all_ties_set_keep; [| exact Hk].
           intros g0 Hg0. exfalso.
           destruct (dict_mem ties rest) eqn:Hrest.
           ++ unfold dict_mem in Hfree. rewrite Hg0 in Hfree. discriminate.
           ++ unfold dict_mem in Hrest. rewrite Hg0 in Hrest. discriminate.
  - intros Hkey Hno Hsplit. unfold add_tie.
    rewrite Hkey, (proj2 (mem_not_In old_name (_all_ties ties)) Hno), Hsplit.
    reflexivity.
Qed.
End Tables.

Lemma add_tie_joins_group_witness :
  In "1:r" (_all_ties (fst (add_tie Sample.equal_balls [] "0:r" "1:r"))).
Proof.
  refine (proj1 (proj1 (add_tie_joins_group Sample.equal_balls [] "0:r" "1:r")
                       _)).
  right. right. exists "1", "r". reflexivity.
Defined.

Lemma reversed_ties_names_group_witness :
  dict_get (_reversed_ties [("a", ["0:r"]); ("b", ["0:r"; "1:r"])]) "0:r"
  = Some "b".
Proof.
  refine (proj2 (proj2 (reversed_ties_names_group
                          [("a", ["0:r"]); ("b", ["0:r"; "1:r"])]))
                [("a", ["0:r"])] "b" ["0:r"; "1:r"] [] "0:r" eq_refl _ _).
  - left. reflexivity.
  - intros tg [].
Defined.

End TableFacts.


(** ** What discovery ties *)

Module AliasFacts.
Import Composite TieTerms MoreTerms DiscoveryFacts TableFacts.

Section Growth.
Context {val : Type} {PV : PyValue val}.
Implicit Types (T : tie_table).

Lemma in_all_ties T (k : string) :
  In k (_all_ties T) <-> exists t g, In (t, g) T /\ In k g.
Proof.
  unfold _all_ties. rewrite in_concat. split.
  - intros [g [Hg Hk]]. apply in_map_iff in Hg.
    destruct Hg as [[t g'] [Heq Hin]]. simpl in Heq. subst g'.
    exists t, g. split; assumption.
  - intros [t [g [Hin Hk]]]. exists g. split; [| exact Hk].
    apply in_map_iff. exists (t, g). split; [reflexivity | exact Hin].
Qed.



Lemma grows_all_ties T T' (k : string) :
  grows T T' -> In k (_all_ties T) -> In k (_all_ties T').
Proof.
  intros Hg Hk. apply in_all_ties in Hk. destruct Hk as [t [g [Hin Hkg]]].
  destruct (Hg t g Hin) as [g' [Hin' Hi]].
  apply in_all_ties. exists t, g'. split; [exact Hin' | apply Hi, Hkg].
Qed.



End Growth.

Section Loop.
Context {val : Type} {PV : PyValue val}.
Variable scatterers : list (scatterer val).
Variable raw : dict string val.
Implicit Types (T : tie_table) (items : dict string val).

(** What the raw names are assumed to be: pairwise distinct, with a
    colon, and none of them what is left of another after its first
    colon. *)
Hypothesis raw_NoDup : NoDup (dict_keys raw).
Hypothesis raw_colon :
  forall k, In k (dict_keys raw) -> exists index rest, split1 k = [index; rest].
Hypothesis raw_remainders :
  forall key index rest,
    In key (dict_keys raw) -> split1 key = [index; rest] ->
    ~ In rest (dict_keys raw).







Hypothesis py_is_sym : forall a b : val, py_is a b = py_is b a.

End Loop.

Section Raw.
Context {val : Type} {PV : PyValue val}.





End Raw.


End AliasFacts.


(** ** The name of a tie ([tied_name]) *)

Module NameFacts.
Import Fitting FittingMore.

Lemma list_ascii_app (a b : string) :
  list_ascii_of_string (a ++ b)%string
  = list_ascii_of_string a ++ list_ascii_of_string b.
Proof. induction a as [|c a IH]; simpl; [| rewrite IH]; reflexivity. Qed.

Lemma string_of_list_app (l m : list ascii) :
  string_of_list_ascii (l ++ m)
  = (string_of_list_ascii l ++ string_of_list_ascii m)%string.
Proof. induction l as [|c l IH]; simpl; [| rewrite IH]; reflexivity. Qed.

Lemma reversed_app (a b : string) :
  reversed (a ++ b)%string = (reversed b ++ reversed a)%string.
Proof.
  unfold reversed. rewrite list_ascii_app, rev_app_distr, string_of_list_app.
  reflexivity.
Qed.

Lemma reversed_involutive (a : string) : reversed (reversed a) = a.
Proof.
  unfold reversed. rewrite list_ascii_of_string_of_list_ascii, rev_involutive.
  apply string_of_list_ascii_of_string.
Qed.

Lemma commonprefix_comm (a : string) :
  forall b, commonprefix a b = commonprefix b a.
Proof.
  induction a as [|c a IH]; intros [|d b]; simpl; try reflexivity.
  rewrite (Ascii.eqb_sym d c). destruct (Ascii.eqb c d) eqn:E; [| reflexivity].
  apply Ascii.eqb_eq in E. subst d. rewrite IH. reflexivity.
Qed.

Lemma commonprefix_app (p a b : string) :
  commonprefix (p ++ a)%string (p ++ b)%string
  = (p ++ commonprefix a b)%string.
Proof.
  induction p as [|c p IH]; simpl; [reflexivity |].
  rewrite Ascii.eqb_refl, IH. reflexivity.
Qed.

Lemma commonprefix_self (a : string) : commonprefix a a = a.
Proof.
  induction a as [|c a IH]; simpl; [reflexivity |].
  rewrite Ascii.eqb_refl, IH. reflexivity.
Qed.

Lemma append_empty (a : string) : (a ++ EmptyString)%string = a.
Proof. induction a as [|c a IH]; simpl; [| rewrite IH]; reflexivity. Qed.

Lemma lstrip_chars_head (chars : list ascii) (s : string) :
  forall c rest,
    lstrip_chars chars s = String c rest ->
    existsb (Ascii.eqb c) chars = false.
Proof.
  induction s as [|a s IH]; simpl; intros c rest Heq; [discriminate |].
  destruct (existsb (Ascii.eqb a) chars) eqn:Ha.
  - exact (IH c rest Heq).
  - inversion Heq. subst. exact Ha.
Qed.

Lemma rstrip_chars_head (chars : list ascii) (s : string) :
  forall c rest,
    rstrip_chars chars s = String c rest ->
    exists rest', s = String c rest'.
Proof.
  destruct s as [|a s]; simpl; intros c rest Heq; [discriminate |].
  destruct (rstrip_chars chars s).
  - destruct (existsb (Ascii.eqb a) chars); [discriminate |].
    inversion Heq. subst. exists s. reflexivity.
  - inversion Heq. subst. exists s. reflexivity.
Qed.

Lemma rstrip_chars_last (chars : list ascii) (s : string) :
  forall r c,
    rstrip_chars chars s = (r ++ String c EmptyString)%string ->
    existsb (Ascii.eqb c) chars = false.
Proof.
  induction s as [|a s IH]; simpl; intros r c Heq.
  - destruct r; discriminate.
  - destruct (rstrip_chars chars s) as [|b t].
    + destruct (existsb (Ascii.eqb a) chars) eqn:Ha.
      * destruct r; discriminate.
      * destruct r as [|x r]; simpl in Heq.
        -- inversion Heq. subst. exact Ha.
        -- inversion Heq. destruct r; discriminate.
    + destruct r as [|x r]; simpl in Heq; [inversion Heq |].
      inversion Heq as [[Hx Ht]]. exact (IH r c Ht).
Qed.

(** X17.  [tied_name] does not depend on the order of the two names;
    of a name and itself it gives that name without separators at its
    ends; of two names that end alike after parts with different last
    characters it gives the common ending without separators at its
    ends.  Its result neither begins nor ends with a colon or an
    underscore. *)
Theorem tied_name_facts (name1 name2 : string) :
  tied_name name1 name2 = tied_name name2 name1
  /\ tied_name name1 name1 = strip separators name1
  /\ (forall s t x,
         commonprefix (reversed s) (reversed t) = EmptyString ->
         tied_name (s ++ x) (t ++ x) = strip separators x)
  /\ (forall c rest,
         tied_name name1 name2 = String c rest ->
         existsb (Ascii.eqb c) separators = false)
  /\ (forall r c,
         tied_name name1 name2 = (r ++ String c EmptyString)%string ->
         existsb (Ascii.eqb c) separators = false).
Proof.
  unfold tied_name. cbv zeta. split; [| split; [| split; [| split]]].
  - rewrite commonprefix_comm. reflexivity.
  - rewrite commonprefix_self, reversed_involutive. reflexivity.
  - intros s t x Hdiff. rewrite !reversed_app, commonprefix_app, Hdiff.
    rewrite append_empty, reversed_involutive. reflexivity.
  - intros c rest Heq. unfold strip in Heq.
    destruct (rstrip_chars_head _ _ _ _ Heq) as [rest' Hl].
    exact (lstrip_chars_head _ _ _ _ Hl).
  - intros r c Heq. unfold strip in Heq.
    exact (rstrip_chars_last _ _ _ _ Heq).
Qed.

Lemma tied_name_facts_witness : tied_name "0:r" "1:r" = "r".
Proof.
  exact (proj1 (proj2 (proj2 (tied_name_facts "" ""))) "0" "1" ":r" eq_refl).
Defined.

End NameFacts.


(** ** More on parametrizations and models *)

Module FitFacts.
Import Fitting FittingMore FitTerms ParametrizationFacts.

(** *** The constructor of [Parametrization] *)

Lemma run_calls_app (st : heap * tables) (a b : list (handle * option string)) :
  run_calls st (a ++ b) = run_calls (run_calls st a) b.
Proof. unfold run_calls. apply fold_left_app. Qed.

Lemma init_loop_unnamed (before : list quantity) :
  named before = true ->
  forall (st : heap * tables) (re im : handle) (after : list quantity),
    init_loop st (before ++ AComplexParameter None re im :: after)
    = (run_calls st (flat_map calls_of before), Raise TypeError).
Proof.
  induction before as [|q rest IH]; intros Hn st re im after.
  - reflexivity.
  - simpl in Hn. apply andb_true_iff in Hn. destruct Hn as [Hq Hrest].
    destruct q as [p | [cn|] qre qim |]; simpl; try discriminate;
      rewrite (IH Hrest); reflexivity.
Qed.

Lemma first_unnamed (pars : list quantity) :
  named pars = false ->
  exists before re im after,
    pars = before ++ AComplexParameter None re im :: after
    /\ named before = true.
Proof.
  induction pars as [|q rest IH]; simpl; intros Hn; [discriminate |].
  destruct q as [p | [cn|] re im |]; simpl in Hn;
    try (destruct (IH Hn) as [before [re' [im' [after [Heq Hb]]]]];
         eexists (_ :: before), re', im', after;
         split; [rewrite Heq; reflexivity | exact Hb]).
  exists [], re, im, rest. split; reflexivity.
Qed.

(** X18.  The constructor of [Parametrization] raises exactly when a
    complex quantity of the list has no name, and then [TypeError], from
    the concatenation of the name and a suffix; the quantities before
    the first such one have been taken in by then, and the tables and
    the objects are as the constructor leaves them for those alone. *)
Theorem Parametrization_init_raises_iff (h : heap) (pars : list quantity) :
  (named pars = false <-> snd (Parametrization_init h pars) = Raise TypeError)
  /\ (forall e, snd (Parametrization_init h pars) = Raise e -> e = TypeError)
  /\ (forall before re im after,
         pars = before ++ AComplexParameter None re im :: after ->
         named before = true ->
         fst (Parametrization_init h pars) = fst (Parametrization_init h before)).
Proof.
  assert (Hcases : (named pars = true
                    /\ snd (Parametrization_init h pars) = OK tt)
                   \/ (named pars = false
                       /\ snd (Parametrization_init h pars) = Raise TypeError)).
  { unfold Parametrization_init. destruct (named pars) eqn:Hn.
    - left. rewrite (init_loop_calls pars Hn). split; reflexivity.
    - right. destruct (first_unnamed pars Hn)
        as [before [re [im [after [-> Hb]]]]].
      rewrite (init_loop_unnamed before Hb). split; reflexivity. }
  split; [| split].
  - destruct Hcases as [[Hn Hr] | [Hn Hr]]; rewrite Hn, Hr; split;
      try discriminate; reflexivity.
  - intros e He. destruct Hcases as [[Hn Hr] | [Hn Hr]]; rewrite Hr in He;
      inversion He; reflexivity.
  - intros before re im after -> Hb. unfold Parametrization_init.
    rewrite (init_loop_unnamed before Hb), (init_loop_calls before Hb).
    reflexivity.
Qed.

Lemma add_par_name_same (st : heap * tables) (p : handle) (n : option string) :
  name (fst (add_par st p n) p)
  = match n with Some _ => n | None => name (fst st p) end.
Proof.
  unfold add_par. destruct n as [s|]; destruct (negb (fixed _)); simpl;
    try reflexivity; unfold rename; rewrite Nat.eqb_refl; reflexivity.
Qed.

Lemma rename_limit (h : heap) (p : handle) (n : option string) (q : handle) :
  limit (rename h p n q) = limit (h q).
Proof.
  unfold rename. destruct (q =? p) eqn:E; [| reflexivity].
  apply Nat.eqb_eq in E. subst q. reflexivity.
Qed.

Lemma add_par_limit (st : heap * tables) (p : handle) (n : option string)
      (q : handle) :
  limit (fst (add_par st p n) q) = limit (fst st q).
Proof.
  unfold add_par.
  destruct n; destruct (negb (fixed _)); simpl; try apply rename_limit;
    reflexivity.
Qed.

Lemma run_calls_limit (cs : list (handle * option string)) :
  forall (st : heap * tables) (q : handle),
    limit (fst (run_calls st cs) q) = limit (fst st q).
Proof.
  induction cs as [|[p n] cs IH]; intros st q; [reflexivity |].
  unfold run_calls in *. simpl. rewrite IH. apply add_par_limit.
Qed.

Lemma run_calls_names (cs : list (handle * option string)) :
  NoDup (map fst cs) ->
  forall st : heap * tables,
    (forall p n, In (p, n) cs ->
                 name (fst (run_calls st cs) p)
                 = match n with Some _ => n | None => name (fst st p) end)
    /\ (forall q, ~ In q (map fst cs) ->
                  name (fst (run_calls st cs) q) = name (fst st q)).
Proof.
  induction cs as [|[p0 n0] cs IH]; intros Hnd st.
  - split; [intros p n [] | reflexivity].
  - inversion Hnd as [|x l Hnotin Hnd']. subst.
    destruct (IH Hnd' (add_par st p0 n0)) as [Hin Hout].
    change (run_calls st ((p0, n0) :: cs))
      with (run_calls (add_par st p0 n0) cs).
    split.
    + intros p n [Heq | Hp].
      * inversion Heq. subst. rewrite (Hout p Hnotin).
        apply add_par_name_same.
      * rewrite (Hin p n Hp).
        assert (Hne : p <> p0).
        { intros ->. apply Hnotin. apply in_map_iff.
          exists (p0, n). split; [reflexivity | exact Hp]. }
        destruct n; [reflexivity |]. apply add_par_name_other. exact Hne.
    + intros q Hq. simpl in Hq.
      rewrite (Hout q) by (intros Hin'; apply Hq; right; exact Hin').
      apply add_par_name_other. intros ->. apply Hq. left. reflexivity.
Qed.

(** X19.  What the constructor of [Parametrization] does to the
    objects, for a list in which no object occurs twice: the halves of a
    complex quantity are renamed in place, to the name of the quantity
    followed by ".real" and ".imag"; a plain parameter keeps its name; no
    other object is renamed; and no object changes in anything but its
    name. *)
Theorem Parametrization_init_names (h : heap) (pars : list quantity) :
  named pars = true ->
  NoDup (leaves pars) ->
  (forall p, In (AParameter p) pars ->
             name (fst (fst (Parametrization_init h pars)) p) = name (h p))
  /\ (forall n re im,
         In (AComplexParameter (Some n) re im) pars ->
         name (fst (fst (Parametrization_init h pars)) re)
         = Some (n ++ ".real")%string
         /\ name (fst (fst (Parametrization_init h pars)) im)
            = Some (n ++ ".imag")%string)
  /\ (forall q, ~ In q (leaves pars) ->
                name (fst (fst (Parametrization_init h pars)) q) = name (h q))
  /\ (forall q, fixed (fst (fst (Parametrization_init h pars)) q) = fixed (h q)
                /\ guess (fst (fst (Parametrization_init h pars)) q)
                   = guess (h q)
                /\ limit (fst (fst (Parametrization_init h pars)) q)
                   = limit (h q)).
Proof.
  intros Hn Hnd. unfold Parametrization_init.
  rewrite (init_loop_calls pars Hn). cbn [fst].
  set (st := (h, {| parameters := []; _fixed_params := [] |})).
  assert (Hnd' : NoDup (map fst (flat_map calls_of pars)))
    by (rewrite (calls_leaves pars Hn); exact Hnd).
  destruct (run_calls_names (flat_map calls_of pars) Hnd' st) as [Hin Hout].
  split; [| split; [| split]].
  - intros p Hp. apply (Hin p None). apply in_flat_map.
    exists (AParameter p). split; [exact Hp | left; reflexivity].
  - intros n re im Hq. split.
    + apply (Hin re (Some (n ++ ".real")%string)). apply in_flat_map.
      exists (AComplexParameter (Some n) re im).
      split; [exact Hq | left; reflexivity].
    + apply (Hin im (Some (n ++ ".imag")%string)). apply in_flat_map.
      exists (AComplexParameter (Some n) re im).
      split; [exact Hq | right; left; reflexivity].
  - intros q Hq. apply Hout. rewrite (calls_leaves pars Hn). exact Hq.
  - intros q.
    destruct (run_calls_spec (flat_map calls_of pars) st) as [_ [H2 _]].
    split; [exact (proj1 (H2 q)) |]. split; [exact (proj2 (H2 q)) |].
    apply run_calls_limit.
Qed.

(** *** The property [guess] *)

Section FoldSet.
Context {K : Type} `{EqDec K} {V X : Type}.
Variables (key : X -> K) (val : X -> V).

Lemma fold_set_absent (l : list X) (k : K) :
  (forall x, In x l -> key x <> k) ->
  forall acc : dict K V,
    dict_get (fold_left (fun d x => dict_set d (key x) (val x)) l acc) k
    = dict_get acc k.
Proof.
  induction l as [|y l IH]; intros Hno acc; [reflexivity |].
  simpl. rewrite IH by (intros x Hx; apply Hno; right; exact Hx).
  apply dict_get_set_other. intros Heq. apply (Hno y (or_introl eq_refl)).
  symmetry. exact Heq.
Qed.

Lemma fold_set_present (l : list X) (x : X) :
  In x l ->
  (forall y, In y l -> key y = key x -> val y = val x) ->
  forall acc : dict K V,
    dict_get (fold_left (fun d x => dict_set d (key x) (val x)) l acc) (key x)
    = Some (val x).
Proof.
  induction l as [|y l IH] using rev_ind; intros Hin Hsame acc;
    [destruct Hin |].
  rewrite fold_left_app. simpl. rewrite dict_get_set.
  destruct (eq_dec (key x) (key y)) as [Heq | Hne].
  - f_equal. apply Hsame; [apply in_or_app; right; left; reflexivity |].
    symmetry. exact Heq.
  - apply IH.
    + apply in_app_or in Hin. destruct Hin as [Hin | [<- | []]];
        [exact Hin | congruence].
    + intros z Hz. apply Hsame. apply in_or_app. left. exact Hz.
Qed.
End FoldSet.

Lemma dict_get_string_entries {V : Type} (d : dict (option string) V)
      (k : string) :
  dict_get (string_entries d) k = dict_get d (Some k).
Proof.
  induction d as [|[[k'|] v] d IH]; simpl; [reflexivity | |].
  - destruct (eq_dec k k') as [->|Hne].
    + destruct (eq_dec (Some k') (Some k')); [reflexivity | congruence].
    + destruct (eq_dec (Some k) (Some k')) as [Heq|_]; [congruence | exact IH].
  - destruct (eq_dec (Some k) None); [discriminate | exact IH].
Qed.

Lemma guess_pars_absent (h : heap) (self : tables) (k : string) :
  (forall p, In p (parameters self) -> name (h p) <> Some k) ->
  dict_get (string_entries (guess_pars h self)) k = None.
Proof.
  intros Hno. rewrite dict_get_string_entries. unfold guess_pars.
  exact (fold_set_absent (fun p => name (h p)) (fun p => guess (h p))
           (parameters self) (Some k) Hno []).
Qed.

Lemma guess_pars_present (h : heap) (self : tables) (p : handle) (k : string) :
  In p (parameters self) ->
  name (h p) = Some k ->
  (forall q, In q (parameters self) -> name (h q) = name (h p) ->
             guess (h q) = guess (h p)) ->
  dict_get (string_entries (guess_pars h self)) k = Some (guess (h p)).
Proof.
  intros Hin Hname Hsame. rewrite dict_get_string_entries, <- Hname.
  unfold guess_pars.
  exact (fold_set_present (fun p => name (h p)) (fun p => guess (h p))
           (parameters self) p Hin Hsame []).
Qed.

Section GuessFacts.
Variable built : Type.
Variable args : list string.
Variable make_scatterer : dict string number -> result built.

(** X20.  The property [guess] raises [KeyError] when the construction
    function has an argument for which the list of free parameters has
    no object of that name nor of the name of one of its halves; the
    table of fixed parameters does not help, so that a parametrization
    with a fixed scalar parameter has no guess. *)
Theorem guess_raises_without_free_parameter (h : heap) (self : tables)
        (arg : string) :
  In arg args ->
  (forall p k, In p (parameters self) ->
               In k [arg; (arg ++ ".real")%string; (arg ++ ".imag")%string] ->
               name (h p) <> Some k) ->
  Parametrization_guess args make_scatterer h self = Raise KeyError.
Proof.
  intros Hin Hno. unfold Parametrization_guess.
  apply (make_from_raises_for built args make_scatterer self _ arg Hin).
  unfold supplied, dict_mem. cbv zeta.
  rewrite !guess_pars_absent;
    [ destruct (dict_get (_fixed_params self) (Some (arg ++ ".real")%string));
      destruct (dict_get (_fixed_params self) (Some (arg ++ ".imag")%string));
      reflexivity
    | | | ];
    intros p Hp; apply Hno; simpl; auto.
Qed.

Lemma resolve_scalar (fixed_params : dict (option string) number)
      (pars : dict string number) (arg : string) (v : number) :
  dict_get pars (arg ++ ".real")%string = None ->
  dict_get pars (arg ++ ".imag")%string = None ->
  dict_get pars arg = Some v ->
  resolve fixed_params pars arg = OK v.
Proof.
  intros Hre Him Hv. unfold resolve, dict_mem, dict_item. cbv zeta.
  rewrite Hre, Him, Hv. rewrite !andb_false_r. reflexivity.
Qed.

Lemma fill_schema_values (fixed_params : dict (option string) number)
      (pars : dict string number) (f : string -> number) (l : list string) :
  (forall a, In a l -> resolve fixed_params pars a = OK (f a)) ->
  forall for_schema,
    fill_schema fixed_params pars for_schema l
    = OK (fold_left (fun d a => dict_set d a (f a)) l for_schema).
Proof.
  induction l as [|a l IH]; intros Hall for_schema; [reflexivity |].
  simpl. rewrite (Hall a (or_introl eq_refl)). cbn [bind].
  apply IH. intros b Hb. apply Hall. right. exact Hb.
Qed.

(** X21.  When every argument of the construction function is the
    name of a free parameter, and no free parameter has the name of a
    half of an argument, the property [guess] is what the construction
    function returns or raises for a dictionary in which every
    argument has the guess of the parameter of that name. *)
Theorem guess_calls_with_guesses (h : heap) (self : tables) :
  (forall arg, In arg args ->
               exists p, In p (parameters self) /\ name (h p) = Some arg) ->
  (forall arg p, In arg args -> In p (parameters self) ->
                 name (h p) <> Some (arg ++ ".real")%string
                 /\ name (h p) <> Some (arg ++ ".imag")%string) ->
  (forall p q, In p (parameters self) -> In q (parameters self) ->
               name (h q) = name (h p) -> guess (h q) = guess (h p)) ->
  exists for_schema,
    Parametrization_guess args make_scatterer h self
    = make_scatterer for_schema
    /\ forall arg p, In arg args -> In p (parameters self) ->
                     name (h p) = Some arg ->
                     dict_get for_schema arg = Some (guess (h p)).
Proof.
  intros Hargs Hscalar Hsame.
  set (pars := string_entries (guess_pars h self)).
  set (f := fun a => match dict_get pars a with
                     | Some v => v
                     | None => Float 0
                     end).
  assert (Hget : forall arg p, In arg args -> In p (parameters self) ->
                               name (h p) = Some arg ->
                               dict_get pars arg = Some (guess (h p))).
  { intros arg p _ Hp Hname. apply guess_pars_present; [exact Hp | exact Hname |].
    intros q Hq. apply Hsame; assumption. }
  assert (Hres : forall a, In a args ->
                           resolve (_fixed_params self) pars a = OK (f a)).
  { intros a Ha. destruct (Hargs a Ha) as [p [Hp Hname]].
    apply resolve_scalar.
    - apply guess_pars_absent. intros q Hq. exact (proj1 (Hscalar a q Ha Hq)).
    - apply guess_pars_absent. intros q Hq. exact (proj2 (Hscalar a q Ha Hq)).
    - unfold f. rewrite (Hget a p Ha Hp Hname). reflexivity. }
  eexists. split.
  - unfold Parametrization_guess, make_from. fold pars.
    rewrite (fill_schema_values _ pars f args Hres []). reflexivity.
  - intros arg p Ha Hp Hname.
    rewrite (fold_set_present (fun a : string => a) f args arg Ha
               (fun y _ Heq => f_equal f Heq) []).
    unfold f. rewrite (Hget arg p Ha Hp Hname). reflexivity.
Qed.

Lemma resolve_ext (fixed_params : dict (option string) number)
      (pars pars' : dict string number) (arg : string) :
  (forall k, In k [arg; (arg ++ ".real")%string; (arg ++ ".imag")%string] ->
             dict_get pars k = dict_get pars' k) ->
  resolve fixed_params pars arg = resolve fixed_params pars' arg.
Proof.
  intros Hsame. unfold resolve, dict_mem, dict_item. cbv zeta.
  rewrite (Hsame arg) by (simpl; auto).
  rewrite (Hsame (arg ++ ".real")%string) by (simpl; auto).
  rewrite (Hsame (arg ++ ".imag")%string) by (simpl; auto).
  reflexivity.
Qed.

Lemma fill_schema_ext (fixed_params : dict (option string) number)
      (pars pars' : dict string number) (l : list string) :
  (forall arg k, In arg l ->
                 In k [arg; (arg ++ ".real")%string; (arg ++ ".imag")%string] ->
                 dict_get pars k = dict_get pars' k) ->
  forall for_schema,
    fill_schema fixed_params pars for_schema l
    = fill_schema fixed_params pars' for_schema l.
Proof.
  induction l as [|a l IH]; intros Hsame for_schema; [reflexivity |].
  simpl. rewrite (resolve_ext _ pars pars' a)
    by (intros k Hk; apply (Hsame a k); [left; reflexivity | exact Hk]).
  destruct (resolve fixed_params pars' a) as [v|e]; [| reflexivity].
  cbn [bind]. apply IH. intros arg k Harg. apply Hsame. right. exact Harg.
Qed.

(** X22.  [make_from] reads its argument under the names of the
    arguments of the construction function and of their halves, and
    nowhere else: two dictionaries that agree there, whatever other
    entries they have and in whatever order, give the same result or
    the same exception. *)
Theorem make_from_reads_argument_names (self : tables)
        (pars pars' : dict string number) :
  (forall arg k, In arg args ->
                 In k [arg; (arg ++ ".real")%string; (arg ++ ".imag")%string] ->
                 dict_get pars k = dict_get pars' k) ->
  make_from args make_scatterer self pars
  = make_from args make_scatterer self pars'.
Proof.
  intros Hsame. unfold make_from.
  rewrite (fill_schema_ext (_fixed_params self) pars pars' args Hsame []).
  reflexivity.
Qed.
End GuessFacts.

(** *** Models *)

(** X23.  [Model.__init__] on a scatterer that is a [Parametrization]:
    of the [Parameter] objects it changes the amplitude alone, and in
    its name alone; an amplitude parameter without a name is called
    "alpha" afterwards and one with a name keeps it, every other object
    is as before, and no object changes its fixed flag, its guess or
    its limit.  Of the parametrization, the table of fixed values is as
    before and the list of free parameters has the amplitude at its end
    when the amplitude is a [Parameter]. *)
Theorem Model_init_names (h : heap) (sc : tables) (a : amplitude) :
  (forall p, a = AlphaParameter p ->
             name (fst (Model_init h sc a) p)
             = match name (h p) with
               | None => Some "alpha"
               | Some n => Some n
               end)
  /\ (forall q, a <> AlphaParameter q -> fst (Model_init h sc a) q = h q)
  /\ (forall q, fixed (fst (Model_init h sc a) q) = fixed (h q)
                /\ guess (fst (Model_init h sc a) q) = guess (h q)
                /\ limit (fst (Model_init h sc a) q) = limit (h q))
  /\ _fixed_params (scatterer (snd (Model_init h sc a))) = _fixed_params sc
  /\ parameters (scatterer (snd (Model_init h sc a)))
     = parameters sc ++ match a with
                        | AlphaParameter p => [p]
                        | NoAlpha | Constant _ => []
                        end
  /\ alpha (snd (Model_init h sc a)) = a.
Proof.
  split; [| split; [| split; [| split; [| split]]]].
  - intros p ->. simpl. destruct (name (h p)) eqn:Hn; [exact Hn |].
    unfold rename. rewrite Nat.eqb_refl. reflexivity.
  - intros q Hq. destruct a as [| x | p]; try reflexivity. simpl.
    destruct (name (h p)); [reflexivity |]. unfold rename.
    destruct (q =? p) eqn:E; [| reflexivity].
    apply Nat.eqb_eq in E. subst q. contradiction Hq. reflexivity.
  - intros q. destruct a as [| x | p]; simpl; try (repeat split; reflexivity).
    destruct (name (h p)); [repeat split; reflexivity |].
    rewrite rename_fixed, rename_guess, rename_limit. repeat split; reflexivity.
  - reflexivity.
  - destruct a; simpl; rewrite ?app_nil_r; reflexivity.
  - reflexivity.
Qed.

(** X24.  The list of parameters of a model is the list of its
    parametrization, one object, to which the constructor appends: a
    parametrization given to a second model brings the amplitude of the
    first model along, and the second amplitude comes after it. *)
Theorem Model_init_twice (h : heap) (sc : tables) (a1 a2 : amplitude) :
  let m1 := snd (Model_init h sc a1) in
  let m2 := snd (Model_init (fst (Model_init h sc a1)) (scatterer m1) a2) in
  let given a := match a with
                 | AlphaParameter p => [p]
                 | NoAlpha | Constant _ => []
                 end in
  parameters (scatterer m1) = parameters sc ++ given a1
  /\ model_parameters m2 = parameters sc ++ given a1 ++ given a2.
Proof.
  destruct a1, a2; unfold model_parameters; simpl;
    rewrite ?app_nil_r, <- ?app_assoc; split; reflexivity.
Qed.

Section SchemaFacts.
Variable attr : Type.

(** X25.  [get_schema] gives the attributes of the data with those
    of the overlay laid over them: an attribute that the overlay holds
    with a value other than [None] has that value, and every other
    attribute is that of the data; without an overlay the schema is
    the data. *)
Theorem get_schema_overlay (overlay : dict string (option attr))
        (data : dict string attr) :
  NoDup (dict_keys overlay) ->
  (forall k, dict_get (get_schema (Some overlay) data) k
             = match dict_get overlay k with
               | Some (Some v) => Some v
               | Some None | None => dict_get data k
               end)
  /\ get_schema None data = data.
Proof.
  intros Hnd. split; [| reflexivity]. unfold get_schema. revert data.
  induction overlay as [|[k0 o0] rest IH]; intros data k; [reflexivity |].
  inversion Hnd as [|x l Hnotin Hnd']. subst.
  cbn [fold_left fst snd]. rewrite (IH Hnd'). cbn [dict_get].
  destruct (eq_dec k k0) as [->|Hne].
  - assert (Hrest : dict_get rest k0 = None) by (apply dict_get_None; exact Hnotin).
    rewrite Hrest. destruct o0 as [v|]; [apply dict_get_set_same | reflexivity].
  - destruct (dict_get rest k) as [[v|]|]; try reflexivity;
      destruct o0 as [v0|]; try reflexivity;
      apply dict_get_set_other; exact Hne.
Qed.
End SchemaFacts.

Lemma Parametrization_init_raises_iff_witness :
  Parametrization_init SampleFit.sample_heap
                       [AParameter 0; AComplexParameter None 1 2; AParameter 3]
  = (SampleFit.sample_heap,
     {| parameters := [0]; _fixed_params := [] |}, Raise TypeError).
Proof.
  pose proof (Parametrization_init_raises_iff SampleFit.sample_heap
                [AParameter 0; AComplexParameter None 1 2; AParameter 3])
    as [Hiff [_ Hbefore]].
  specialize (Hbefore [AParameter 0] 1 2 [AParameter 3] eq_refl eq_refl).
  pose proof (proj1 Hiff eq_refl) as Hr.
  destruct (Parametrization_init SampleFit.sample_heap
              [AParameter 0; AComplexParameter None 1 2; AParameter 3])
    as [st r].
  simpl in Hr, Hbefore. rewrite Hr, Hbefore. reflexivity.
Defined.

Lemma Parametrization_init_names_witness :
  name (fst (fst (Parametrization_init SampleFit.sample_heap
                    [AComplexParameter (Some "n") 1 2; AParameter 0])) 2)
  = Some "n.imag".
Proof.
  refine (proj2 (proj1 (proj2 (Parametrization_init_names SampleFit.sample_heap
                                 [AComplexParameter (Some "n") 1 2; AParameter 0]
                                 eq_refl _))
                       "n" 1 2 _)).
  - unfold leaves. simpl. repeat constructor; simpl; intuition discriminate.
  - left. reflexivity.
Defined.

Lemma guess_raises_without_free_parameter_witness :
  Parametrization_guess SampleFit.sphere_args SampleFit.keep
    SampleFit.sample_heap
    (SampleFit.tables_of SampleFit.sample_heap [AParameter 1; AParameter 0])
  = Raise KeyError.
Proof.
  refine (guess_raises_without_free_parameter _ SampleFit.sphere_args
            SampleFit.keep SampleFit.sample_heap _ "n" _ _).
  - left. reflexivity.
  - simpl. intros p k [<- | []] [<- | [<- | [<- | []]]]; discriminate.
Defined.

Lemma guess_calls_with_guesses_witness :
  exists for_schema,
    Parametrization_guess ["r"] SampleFit.keep SampleFit.sample_heap
      (SampleFit.tables_of SampleFit.sample_heap [AParameter 1; AParameter 0])
    = OK for_schema
    /\ dict_get for_schema "r" = Some (Float 0.5).
Proof.
  destruct (guess_calls_with_guesses _ ["r"] SampleFit.keep
              SampleFit.sample_heap
              (SampleFit.tables_of SampleFit.sample_heap
                 [AParameter 1; AParameter 0]))
    as [for_schema [Hg Hget]].
  - simpl. intros arg [<- | []]. exists 0. split; [left |]; reflexivity.
  - simpl. intros arg p [<- | []] [<- | []]. split; discriminate.
  - simpl. intros p q [<- | []] [<- | []] _. reflexivity.
  - exists for_schema. split; [exact Hg |].
    apply (Hget "r" 0); [left; reflexivity | left; reflexivity | reflexivity].
Defined.

Lemma make_from_reads_argument_names_witness :
  make_from SampleFit.sphere_args SampleFit.keep SampleFit.no_tables
            [("alpha", Float 0.6); ("r", Float 0.5); ("n", Float 1.59)]
  = make_from SampleFit.sphere_args SampleFit.keep SampleFit.no_tables
              [("n", Float 1.59); ("r", Float 0.5)].
Proof.
  apply make_from_reads_argument_names.
  simpl. intros arg k [<- | [<- | []]] [<- | [<- | [<- | []]]]; reflexivity.
Defined.

Lemma Model_init_names_witness :
  name (fst (Model_init SampleFit.sample_heap SampleFit.no_tables
                        (AlphaParameter 2)) 2) = Some "alpha"
  /\ fst (Model_init SampleFit.sample_heap SampleFit.no_tables
                     (AlphaParameter 2)) 0 = SampleFit.sample_heap 0.
Proof.
  split.
  - exact (proj1 (Model_init_names SampleFit.sample_heap SampleFit.no_tables
                    (AlphaParameter 2)) 2 eq_refl).
  - apply (proj1 (proj2 (Model_init_names SampleFit.sample_heap
                           SampleFit.no_tables (AlphaParameter 2))) 0).
    discriminate.
Defined.

Lemma get_schema_overlay_witness :
  dict_get (get_schema (Some [("wavelen", Some 2); ("optics", None)])
                       [("wavelen", 1); ("optics", 3)]) "optics"
  = Some 3.
Proof.
  refine (proj1 (get_schema_overlay nat [("wavelen", Some 2); ("optics", None)]
                   [("wavelen", 1); ("optics", 3)] _) "optics").
  apply FlatFacts.distinct_NoDup. reflexivity.
Defined.

End FitFacts.
